(** * Engine lifecycle layer of the Lightning delivery backend

    A shallow embedding of [lightning/backend/backend.go]: engine identity
    derivation, the disk-quota evaluation, the retry loops of
    [OpenedEngine.WriteRows] and [ClosedEngine.Import], and the unsafe
    close / import-and-reset entry points, together with the properties
    the design document states about them. *)

From Stdlib Require Import ZArith String Ascii List Bool Lia.
From Stdlib Require Import Permutation Sorted DecimalString DecimalZ.
From Stdlib Require Import Floats.SpecFloat.
Import ListNotations.

Local Open Scope Z_scope.
Local Open Scope list_scope.

(** ** Formatting ([fmt.Sprintf] with the verbs the file uses) *)

Module fmt.

(** [%d] on an integer: optional minus sign, then the decimal digits
    without leading zeros. *)
Definition itoa (z : Z) : string := NilEmpty.string_of_int (Z.to_int z).

(** Does the byte [c] occur in [s]? *)
Fixpoint occurs (c : ascii) (s : string) : bool :=
  match s with
  | EmptyString => false
  | String a s' => Ascii.eqb a c || occurs c s'
  end.

End fmt.

(** ** Machine numbers *)

(** Two's-complement wrap-around of Go's [int64]. *)
Definition wrap64 (z : Z) : Z := (z + 2 ^ 63) mod 2 ^ 64 - 2 ^ 63.

Definition add64 (a b : Z) : Z := wrap64 (a + b).

Definition in_int64 (z : Z) : Prop := - 2 ^ 63 <= z < 2 ^ 63.

(** Go's [float64] is IEEE 754 binary64: 53 bits of precision, round to
    nearest even.  [float64_of_int] is the conversion [float64(n)]. *)
Definition float64 : Type := spec_float.

Definition float64_of_int (z : Z) : float64 := binary_normalize 53 1024 z 0 false.

Definition float64_sub (x y : float64) : float64 := SFsub 53 1024 x y.

Definition float64_gt (x y : float64) : bool := SFltb y x.

(** [p * 2 ^ n] on mantissas. *)
Definition shl (p : positive) (n : nat) : positive := Nat.iter n xO p.

(** The binary64 representation of a whole number of at most 53 bits: the
    mantissa is shifted up to 53 bits. *)
Definition canonical (z : Z) : float64 :=
  match z with
  | Z0 => S754_zero false
  | Zpos p => S754_finite false
                (shl p (Z.to_nat (53 - Zpos (digits2_pos p))))
                (Zpos (digits2_pos p) - 53)
  | Zneg p => S754_finite true
                (shl p (Z.to_nat (53 - Zpos (digits2_pos p))))
                (Zpos (digits2_pos p) - 53)
  end.

(** What rounding makes of a number of 54 bits and more: a float of the
    same sign with a positive exponent, or an infinity. *)
Definition large (s : bool) (x : float64) : Prop :=
  match x with
  | S754_finite s' _ e => s' = s /\ 1 <= e
  | S754_infinity s' => s' = s
  | _ => False
  end.

(** The counter reading [x] is the whole number [z]. *)
Definition whole_reading (x : float64) (z : Z) : Prop :=
  0 <= z < 2 ^ 53 /\ x = float64_of_int z.

(** ** Imported packages

    Everything the file takes from other packages: opaque value types, the
    pure library functions it calls, and the handle type of the
    [AbstractBackend] interface value.  [error_value] is a non-nil Go
    [error]; the interface value [error] itself may be nil.
    [fmt_float64] is the [%v] rendering of a [float64]. *)

Class Imports : Type := {
  context_Context : Type;
  uuid_UUID : Type;
  uuid_String : uuid_UUID -> string;
  uuid_MustParse : string -> uuid_UUID;
  uuid_NewSHA1 : uuid_UUID -> string -> uuid_UUID;
  error_value : Type;
  errors_Annotatef : option error_value -> string -> option error_value;
  common_IsRetryableError : option error_value -> bool;
  oracle_ComposeTS : Z -> Z -> Z;
  fmt_float64 : float64 -> string;
  sort_Slice : forall A : Type, list A -> (A -> A -> bool) -> list A;
  Rows : Type;
  Rows_SplitIntoChunks : Rows -> Z -> list Rows;
  AbstractBackend : Type
}.

Arguments sort_Slice {_ A} _ _.

Definition error `{Imports} : Type := option error_value.

(** The nil error value. *)
Definition no_error `{Imports} : error := None.

(** A comparison [sort.Slice] can sort by: asymmetric, and with a
    transitive "not less than". *)
Definition strict_weak_order {A : Type} (less : A -> A -> bool) : Prop :=
  (forall a b, less a b = true -> less b a = false) /\
  (forall a b c, less a b = false -> less b c = false -> less a c = false).

(** No later element is less than an earlier one. *)
Definition ordered_by {A : Type} (less : A -> A -> bool) : list A -> Prop :=
  StronglySorted (fun a b => less b a = false).

(** What a call of [sort.Slice] on [l] guarantees: the slice is permuted,
    and it is ordered when [less] is a strict weak ordering.  Nothing is
    promised about the relative order of equivalent elements (the sort is
    not stable). *)
Definition sort_Slice_sorts `{Imports} {A : Type} (l : list A)
    (less : A -> A -> bool) : Prop :=
  Permutation (sort_Slice l less) l /\
  (strict_weak_order less -> ordered_by less (sort_Slice l less)).

Definition sort_Slice_contract `{Imports} : Prop :=
  forall (A : Type) (l : list A) (less : A -> A -> bool), sort_Slice_sorts l less.

(** ** Data declared by the file *)

Section Lightning.

Context `{Imports}.

Definition maxRetryTimes : Z := 3.

Record EngineFileSize : Type := {
  UUID : uuid_UUID;
  Size : Z;
  IsImporting : bool
}.

(** Structured logging: a logger is the list of fields attached to it, a
    task is a logger with the level and name it was begun with (the time
    it records on beginning stays with the log sink). *)
Inductive zap_Field : Type :=
| zap_String (key val : string)
| zap_Stringer (key : string) (val : uuid_UUID)
| zap_Int (key : string) (val : Z)
| log_ShortError (err : error).

Inductive zap_Level : Type := InfoLevel | WarnLevel | ErrorLevel.

Definition log_Logger : Type := list zap_Field.

Definition log_With (fields : list zap_Field) : log_Logger := fields.

Definition Logger_With (l : log_Logger) (fields : list zap_Field) : log_Logger :=
  l ++ fields.

Record log_Task : Type := {
  task_logger : log_Logger;
  task_level : zap_Level;
  task_name : string
}.

Inductive failpoint_Value : Type :=
| failpoint_int (n : Z)
| failpoint_string (s : string)
| failpoint_bool (b : bool).

Record Backend : Type := { abstract : AbstractBackend }.

Record engine : Type := {
  backend : AbstractBackend;
  logger : log_Logger;
  uuid : uuid_UUID
}.

Record OpenedEngine : Type := {
  opened : engine;
  tableName : string;
  ts : Z
}.

Record ClosedEngine : Type := { closed : engine }.

(** ** Effects

    Every call that leaves the file is a [call]; [resp c] is the type of
    what comes back.  The first group are the methods of [AbstractBackend]
    (the receiver is the first argument), the second group is the clock,
    the log sink, the metric counters and the failpoint registry. *)

Inductive call : Type :=
| abstract_Close (b : AbstractBackend)
| abstract_MakeEmptyRows (b : AbstractBackend)
| abstract_RetryImportDelay (b : AbstractBackend)
| abstract_MaxChunkSize (b : AbstractBackend)
| abstract_ShouldPostProcess (b : AbstractBackend)
| abstract_OpenEngine (b : AbstractBackend) (ctx : context_Context) (engineUUID : uuid_UUID)
| abstract_WriteRows (b : AbstractBackend) (ctx : context_Context)
    (engineUUID : uuid_UUID) (tableName : string) (columnNames : list string)
    (commitTS : Z) (rows : Rows)
| abstract_CloseEngine (b : AbstractBackend) (ctx : context_Context) (engineUUID : uuid_UUID)
| abstract_ImportEngine (b : AbstractBackend) (ctx : context_Context) (engineUUID : uuid_UUID)
| abstract_CleanupEngine (b : AbstractBackend) (ctx : context_Context) (engineUUID : uuid_UUID)
| abstract_CheckRequirements (b : AbstractBackend) (ctx : context_Context)
| abstract_FlushEngine (b : AbstractBackend) (engineUUID : uuid_UUID)
| abstract_FlushAllEngines (b : AbstractBackend)
| abstract_EngineFileSizes (b : AbstractBackend)
| abstract_ResetEngine (b : AbstractBackend) (ctx : context_Context) (engineUUID : uuid_UUID)
| time_Sleep (d : Z)
| time_Now_Unix
| Logger_Info (l : log_Logger) (msg : string)
| Logger_Begin (l : log_Logger) (level : zap_Level) (name : string)
| Task_End (task : log_Task) (level : zap_Level) (err : error)
| Task_Warn (task : log_Task) (msg : string) (fields : list zap_Field)
| Counter_Inc (label : string)
| metric_ReadCounter (label : string)
| failpoint_Inject (name : string).

Definition resp (c : call) : Type :=
  match c with
  | abstract_Close _ => unit
  | abstract_MakeEmptyRows _ => Rows
  | abstract_RetryImportDelay _ => Z
  | abstract_MaxChunkSize _ => Z
  | abstract_ShouldPostProcess _ => bool
  | abstract_OpenEngine _ _ _ => error
  | abstract_WriteRows _ _ _ _ _ _ _ => error
  | abstract_CloseEngine _ _ _ => error
  | abstract_ImportEngine _ _ _ => error
  | abstract_CleanupEngine _ _ _ => error
  | abstract_CheckRequirements _ _ => error
  | abstract_FlushEngine _ _ => error
  | abstract_FlushAllEngines _ => error
  | abstract_EngineFileSizes _ => list EngineFileSize
  | abstract_ResetEngine _ _ _ => error
  | time_Sleep _ => unit
  | time_Now_Unix => Z
  | Logger_Info _ _ => unit
  | Logger_Begin _ _ _ => unit
  | Task_End _ _ _ => unit
  | Task_Warn _ _ _ => unit
  | Counter_Inc _ => unit
  | metric_ReadCounter _ => float64
  | failpoint_Inject _ => option failpoint_Value
  end.

(** A program is a finite tree of calls: every loop of the file is bounded
    by [maxRetryTimes] or by the length of a slice. *)
Inductive prog (R : Type) : Type :=
| Ret (r : R)
| Do (c : call) (k : resp c -> prog R)
| Panic (msg : string).

Arguments Ret {R} r.
Arguments Do {R} c k.
Arguments Panic {R} msg.

Fixpoint bind {A B : Type} (p : prog A) (f : A -> prog B) : prog B :=
  match p with
  | Ret a => f a
  | Do c k => Do c (fun x => bind (k x) f)
  | Panic msg => Panic msg
  end.

Definition perform (c : call) : prog (resp c) := Do c Ret.

End Lightning.

Arguments Ret {_ R} r.
Arguments Do {_ R} c k.
Arguments Panic {_ R} msg.

Declare Scope prog_scope.
Delimit Scope prog_scope with prog.
Notation "x <- p ;; q" := (bind p (fun x => q))
  (at level 61, p at next level, right associativity) : prog_scope.
Notation "p ;; q" := (bind p (fun _ => q))
  (at level 61, right associativity) : prog_scope.

Local Open Scope prog_scope.

(** ** The functions of [backend.go] *)

Section Code.

Context `{Imports}.

Definition makeTag (tableName : string) (engineID : Z) : string :=
  (tableName ++ ":" ++ fmt.itoa engineID)%string.

Definition makeLogger (tag : string) (engineUUID : uuid_UUID) : log_Logger :=
  log_With [zap_String "engineTag" tag; zap_Stringer "engineUUID" engineUUID].

Definition engineNamespace : uuid_UUID :=
  uuid_MustParse "d68d6abe-c59e-45d6-ade8-e2b0ceb7bedf".

Definition MakeUUID (tableName : string) (engineID : Z) : string * uuid_UUID :=
  let tag := makeTag tableName engineID in
  let engineUUID := uuid_NewSHA1 engineNamespace tag in
  (tag, engineUUID).

Definition MakeBackend (ab : AbstractBackend) : Backend := {| abstract := ab |}.

Definition Backend_Close (be : Backend) : prog unit :=
  perform (abstract_Close (abstract be)).

Definition Backend_MakeEmptyRows (be : Backend) : prog Rows :=
  perform (abstract_MakeEmptyRows (abstract be)).

Definition Backend_ShouldPostProcess (be : Backend) : prog bool :=
  perform (abstract_ShouldPostProcess (abstract be)).

Definition Backend_CheckRequirements (be : Backend) (ctx : context_Context) : prog error :=
  perform (abstract_CheckRequirements (abstract be) ctx).

Definition Backend_FlushAll (be : Backend) : prog error :=
  perform (abstract_FlushAllEngines (abstract be)).

(** The comparison closure handed to [sort.Slice] in [CheckDiskQuota],
    on the two elements the indices select. *)
Definition less (a b : EngineFileSize) : bool :=
  if negb (Bool.eqb (IsImporting a) (IsImporting b)) then IsImporting a
  else Size a <? Size b.

(** One iteration of the accumulation loop of [CheckDiskQuota] over the
    three named results.  [totalSize] is an [int64] and wraps;
    [inProgressLargeEngines] is an [int] that counts elements of a slice
    and stays far below its range. *)
Definition CheckDiskQuota_step (quota : Z)
    (acc : list uuid_UUID * Z * Z) (size : EngineFileSize)
    : list uuid_UUID * Z * Z :=
  let '(largeEngines, inProgressLargeEngines, totalSize) := acc in
  let totalSize := add64 totalSize (Size size) in
  if totalSize >? quota then
    if IsImporting size
    then (largeEngines, inProgressLargeEngines + 1, totalSize)
    else (largeEngines ++ [UUID size], inProgressLargeEngines, totalSize)
  else (largeEngines, inProgressLargeEngines, totalSize).

Definition Backend_CheckDiskQuota (be : Backend) (quota : Z)
    : prog (list uuid_UUID * Z * Z) :=
  sizes <- perform (abstract_EngineFileSizes (abstract be)) ;;
  let sizes := sort_Slice sizes less in
  Ret (fold_left (CheckDiskQuota_step quota) sizes ([], 0, 0)).

(** [for i := 0; i < maxRetryTimes; i++] of [ClosedEngine.Import], with
    [remaining = maxRetryTimes - i] iterations to go and [err] the
    function-level variable. *)
Fixpoint ClosedEngine_Import_loop (engine : ClosedEngine) (ctx : context_Context)
    (remaining : nat) (err : error) : prog error :=
  match remaining with
  | O =>
      Ret (errors_Annotatef err
             ("[" ++ uuid_String (uuid (closed engine))
                  ++ "] import reach max retry " ++ fmt.itoa maxRetryTimes
                  ++ " and still failed")%string)
  | S remaining' =>
      let i := maxRetryTimes - Z.of_nat remaining in
      let l := Logger_With (logger (closed engine)) [zap_Int "retryCnt" i] in
      let task := {| task_logger := l; task_level := InfoLevel; task_name := "import" |} in
      perform (Logger_Begin l InfoLevel "import") ;;
      err <- perform (abstract_ImportEngine (backend (closed engine)) ctx
                        (uuid (closed engine))) ;;
      if negb (common_IsRetryableError err) then
        perform (Task_End task ErrorLevel err) ;;
        Ret err
      else
        perform (Task_Warn task "import spuriously failed, going to retry again"
                   [log_ShortError err]) ;;
        d <- perform (abstract_RetryImportDelay (backend (closed engine))) ;;
        perform (time_Sleep d) ;;
        ClosedEngine_Import_loop engine ctx remaining' err
  end.

Definition ClosedEngine_Import (engine : ClosedEngine) (ctx : context_Context)
    : prog error :=
  ClosedEngine_Import_loop engine ctx (Z.to_nat maxRetryTimes) no_error.

Definition ClosedEngine_Cleanup (engine : ClosedEngine) (ctx : context_Context)
    : prog error :=
  let l := logger (closed engine) in
  let task := {| task_logger := l; task_level := InfoLevel; task_name := "cleanup" |} in
  perform (Logger_Begin l InfoLevel "cleanup") ;;
  err <- perform (abstract_CleanupEngine (backend (closed engine)) ctx
                    (uuid (closed engine))) ;;
  perform (Task_End task WarnLevel err) ;;
  Ret err.

Definition ClosedEngine_Logger (engine : ClosedEngine) : log_Logger :=
  logger (closed engine).

Definition Backend_UnsafeImportAndReset (be : Backend) (ctx : context_Context)
    (engineUUID : uuid_UUID) : prog error :=
  let closedEngine :=
    {| closed := {| backend := abstract be;
                    logger := makeLogger "<import-and-reset>" engineUUID;
                    uuid := engineUUID |} |} in
  err <- ClosedEngine_Import closedEngine ctx ;;
  match err with
  | Some _ => Ret err
  | None => perform (abstract_ResetEngine (abstract be) ctx engineUUID)
  end.

(** The body of the [FailIfEngineCountExceeds] failpoint: the closure that
    runs when the failpoint is active, on its value [val]. *)
Definition FailIfEngineCountExceeds (val : failpoint_Value) : prog unit :=
  openCount <- perform (metric_ReadCounter "open") ;;
  closedCount <- perform (metric_ReadCounter "closed") ;;
  match val with
  | failpoint_int injectValue =>
      if float64_gt (float64_sub openCount closedCount) (float64_of_int injectValue) then
        Panic ("forcing failure due to FailIfEngineCountExceeds: "
                 ++ fmt_float64 openCount ++ " - " ++ fmt_float64 closedCount
                 ++ " >= " ++ fmt.itoa injectValue)%string
      else Ret tt
  | _ => Panic "interface conversion: interface {} is not int"
  end.

Definition Backend_OpenEngine (be : Backend) (ctx : context_Context)
    (tableName : string) (engineID : Z) : prog (option OpenedEngine * error) :=
  let '(tag, engineUUID) := MakeUUID tableName engineID in
  let logger := makeLogger tag engineUUID in
  err <- perform (abstract_OpenEngine (abstract be) ctx engineUUID) ;;
  match err with
  | Some _ => Ret (None, err)
  | None =>
      perform (Counter_Inc "open") ;;
      perform (Logger_Info logger "open engine") ;;
      val <- perform (failpoint_Inject "FailIfEngineCountExceeds") ;;
      match val with
      | Some val => FailIfEngineCountExceeds val
      | None => Ret tt
      end ;;
      now <- perform time_Now_Unix ;;
      Ret (Some {| opened := {| backend := abstract be;
                                logger := logger;
                                uuid := engineUUID |};
                   tableName := tableName;
                   ts := oracle_ComposeTS (wrap64 (now * 1000)) 0 |},
           no_error)
  end.

Definition engine_unsafeClose (en : engine) (ctx : context_Context)
    : prog (option ClosedEngine * error) :=
  let task := {| task_logger := logger en; task_level := InfoLevel;
                 task_name := "engine close" |} in
  perform (Logger_Begin (logger en) InfoLevel "engine close") ;;
  err <- perform (abstract_CloseEngine (backend en) ctx (uuid en)) ;;
  perform (Task_End task ErrorLevel err) ;;
  match err with
  | Some _ => Ret (None, err)
  | None => Ret (Some {| closed := en |}, no_error)
  end.

Definition OpenedEngine_Close (engine : OpenedEngine) (ctx : context_Context)
    : prog (option ClosedEngine * error) :=
  res <- engine_unsafeClose (opened engine) ctx ;;
  let '(closedEngine, err) := res in
  match err with
  | None => perform (Counter_Inc "closed") ;; Ret (closedEngine, err)
  | Some _ => Ret (closedEngine, err)
  end.

Definition OpenedEngine_Flush (engine : OpenedEngine) : prog error :=
  perform (abstract_FlushEngine (backend (opened engine)) (uuid (opened engine))).

(** How the retry loop of [WriteRows] over one chunk is left. *)
Inductive chunk_exit : Type :=
| continue_outside
| return_err (err : error)
| loop_done (err : error).

(** [for i := 0; i < maxRetryTimes; i++] of [OpenedEngine.WriteRows] on the
    chunk [r], with [remaining = maxRetryTimes - i]. *)
Fixpoint OpenedEngine_WriteRows_retry (engine : OpenedEngine) (ctx : context_Context)
    (columnNames : list string) (r : Rows) (remaining : nat) (err : error)
    : prog chunk_exit :=
  match remaining with
  | O => Ret (loop_done err)
  | S remaining' =>
      err <- perform (abstract_WriteRows (backend (opened engine)) ctx
                        (uuid (opened engine)) (tableName engine) columnNames
                        (ts engine) r) ;;
      match err with
      | None => Ret continue_outside
      | Some _ =>
          if common_IsRetryableError err
          then OpenedEngine_WriteRows_retry engine ctx columnNames r remaining' err
          else Ret (return_err err)
      end
  end.

(** The [outside:] loop over the chunks. *)
Fixpoint OpenedEngine_WriteRows_chunks (engine : OpenedEngine) (ctx : context_Context)
    (columnNames : list string) (chunks : list Rows) (err : error) : prog error :=
  match chunks with
  | [] => Ret no_error
  | r :: chunks' =>
      ex <- OpenedEngine_WriteRows_retry engine ctx columnNames r
              (Z.to_nat maxRetryTimes) err ;;
      match ex with
      | continue_outside =>
          OpenedEngine_WriteRows_chunks engine ctx columnNames chunks' no_error
      | return_err err => Ret err
      | loop_done err =>
          Ret (errors_Annotatef err
                 ("[" ++ tableName engine ++ "] write rows reach max retry "
                      ++ fmt.itoa maxRetryTimes ++ " and still failed")%string)
      end
  end.

Definition OpenedEngine_WriteRows (engine : OpenedEngine) (ctx : context_Context)
    (columnNames : list string) (rows : Rows) : prog error :=
  splitSize <- perform (abstract_MaxChunkSize (backend (opened engine))) ;;
  OpenedEngine_WriteRows_chunks engine ctx columnNames
    (Rows_SplitIntoChunks rows splitSize) no_error.

Definition Backend_UnsafeCloseEngineWithUUID (be : Backend) (ctx : context_Context)
    (tag : string) (engineUUID : uuid_UUID) : prog (option ClosedEngine * error) :=
  engine_unsafeClose
    {| backend := abstract be; logger := makeLogger tag engineUUID; uuid := engineUUID |}
    ctx.

Definition Backend_UnsafeCloseEngine (be : Backend) (ctx : context_Context)
    (tableName : string) (engineID : Z) : prog (option ClosedEngine * error) :=
  let '(tag, engineUUID) := MakeUUID tableName engineID in
  Backend_UnsafeCloseEngineWithUUID be ctx tag engineUUID.

End Code.

(** ** Runs and traces *)

Section Semantics.

Context `{Imports}.

(** A call together with what it returned. *)
Record event : Type := Ev { ev_call : call; ev_resp : resp ev_call }.

Inductive outcome (R : Type) : Type :=
| Returned (r : R)
| Panicked (msg : string).

Arguments Returned {R} r.
Arguments Panicked {R} msg.

(** [runs p tr out]: the program [p] can make exactly the calls of [tr], in
    that order and with those responses, and then ends with [out].  The
    responses are whatever the environment chooses. *)
Fixpoint runs {R : Type} (p : prog R) (tr : list event) (out : outcome R) : Prop :=
  match p with
  | Ret r => tr = [] /\ out = Returned r
  | Panic msg => tr = [] /\ out = Panicked msg
  | Do c k => exists (x : resp c) (tr' : list event),
                tr = Ev c x :: tr' /\ runs (k x) tr' out
  end.

(** An environment with state [W] answers every call. *)
Definition handler (W : Type) : Type := forall c : call, W -> resp c * W.

Fixpoint exec {R W : Type} (h : handler W) (p : prog R) (w : W)
    : outcome R * W * list event :=
  match p with
  | Ret r => (Returned r, w, [])
  | Panic msg => (Panicked msg, w, [])
  | Do c k =>
      let (x, w1) := h c w in
      let '(out, w2, tr) := exec h (k x) w1 in
      (out, w2, Ev c x :: tr)
  end.

(** Classification of the events of a trace. *)
Definition is_CloseEngine (e : event) : bool :=
  match ev_call e with abstract_CloseEngine _ _ _ => true | _ => false end.

Definition is_ResetEngine (e : event) : bool :=
  match ev_call e with abstract_ResetEngine _ _ _ => true | _ => false end.

Definition is_ImportEngine (e : event) : bool :=
  match ev_call e with abstract_ImportEngine _ _ _ => true | _ => false end.

Definition is_WriteRows (e : event) : bool :=
  match ev_call e with abstract_WriteRows _ _ _ _ _ _ _ => true | _ => false end.

Definition is_Sleep (e : event) : bool :=
  match ev_call e with time_Sleep _ => true | _ => false end.

(** Calls into the log sink. *)
Definition is_log (e : event) : bool :=
  match ev_call e with
  | Logger_Info _ _ | Logger_Begin _ _ _ | Task_End _ _ _ | Task_Warn _ _ _ => true
  | _ => false
  end.

(** The trace without its log entries. *)
Definition unlogged (tr : list event) : list event :=
  filter (fun e => negb (is_log e)) tr.

End Semantics.

Arguments Returned {R} r.
Arguments Panicked {R} msg.

(** ** An in-memory environment

    A test double: identities are plain names, errors are tagged as
    transient or permanent, [sort.Slice] is the insertion sort the Go
    library runs on slices of at most twelve elements, and the backend keeps
    its engines in memory and fails on demand from a script. *)

Module double.

Inductive err : Type :=
| transient (msg : string)
| permanent (msg : string)
| annotated (cause : err) (msg : string).

Fixpoint Cause (e : err) : err :=
  match e with
  | annotated cause _ => Cause cause
  | _ => e
  end.

Definition IsRetryableError (e : option err) : bool :=
  match e with
  | Some e => match Cause e with transient _ => true | _ => false end
  | None => false
  end.

Definition Annotatef (e : option err) (msg : string) : option err :=
  match e with
  | Some e => Some (annotated e msg)
  | None => None
  end.

(** [insertionSort_func]: each element in turn is swapped leftwards while
    it is less than its left neighbour.  [before] is the already sorted
    prefix, nearest neighbour first. *)
Fixpoint sink {A : Type} (less : A -> A -> bool) (x : A) (before : list A) : list A :=
  match before with
  | [] => [x]
  | y :: before' => if less x y then y :: sink less x before' else x :: before
  end.

(** The sorted prefix as [sink] sees it, read from its right end. *)
Definition descending {A : Type} (less : A -> A -> bool) : list A -> Prop :=
  StronglySorted (fun a b => less a b = false).

Definition insertionSort {A : Type} (l : list A) (less : A -> A -> bool) : list A :=
  rev (fold_left (fun before x => sink less x before) l []).

(** Rendering of the floats that hold whole numbers. *)
Definition show_float64 (x : float64) : string :=
  match x with
  | S754_zero _ => "0"
  | S754_infinity s => if s then "-Inf" else "+Inf"
  | S754_nan => "NaN"
  | S754_finite s m e =>
      fmt.itoa (if s then - Z.shiftl (Zpos m) e else Z.shiftl (Zpos m) e)
  end.

(** Rows are lists of encoded rows; a chunk is closed as soon as adding
    the next row would take it past [splitSize] bytes. *)
Fixpoint split (splitSize : Z) (cur : list string) (curSize : Z)
    (rows : list string) : list (list string) :=
  match rows with
  | [] => match cur with [] => [] | _ => [rev cur] end
  | r :: rows' =>
      let n := Z.of_nat (String.length r) in
      match cur with
      | [] => split splitSize [r] n rows'
      | _ => if curSize + n >? splitSize
             then rev cur :: split splitSize [r] n rows'
             else split splitSize (r :: cur) (curSize + n) rows'
      end
  end.

Definition imports : Imports := {|
  context_Context := unit;
  uuid_UUID := string;
  uuid_String := fun u => u;
  uuid_MustParse := fun s => s;
  uuid_NewSHA1 := fun space data => (space ++ "/" ++ data)%string;
  error_value := err;
  errors_Annotatef := Annotatef;
  common_IsRetryableError := IsRetryableError;
  oracle_ComposeTS := fun physical logical => Z.shiftl physical 18 + logical;
  fmt_float64 := show_float64;
  sort_Slice := @insertionSort;
  Rows := list string;
  Rows_SplitIntoChunks := fun rows splitSize => split splitSize [] 0 rows;
  AbstractBackend := unit
|}.

#[local] Existing Instance imports.

(** One engine held by the backend. *)
Record file : Type := { name : string; is_open : bool; content : list string }.

Record world : Type := {
  script : list error;          (* failures to inject, one per fallible call *)
  engines : list file;
  imported : list string;       (* rows delivered to the target *)
  max_chunk : Z;
  retry_delay : Z;
  slept : Z;                    (* total time spent in time.Sleep *)
  clock : Z;
  open_counter : Z;
  closed_counter : Z;
  failpoints : list (string * failpoint_Value);
  file_sizes : list EngineFileSize   (* what EngineFileSizes reports *)
}.

Definition find_engine (u : string) (w : world) : option file :=
  find (fun f => String.eqb (name f) u) (engines w).

Definition put_engine (f : file) (w : world) : list file :=
  f :: filter (fun g => negb (String.eqb (name g) (name f))) (engines w).

Definition with_engines (fs : list file) (w : world) : world :=
  {| script := script w; engines := fs; imported := imported w;
     max_chunk := max_chunk w; retry_delay := retry_delay w; slept := slept w;
     clock := clock w; open_counter := open_counter w;
     closed_counter := closed_counter w; failpoints := failpoints w; file_sizes := file_sizes w |}.

Definition with_script (s : list error) (w : world) : world :=
  {| script := s; engines := engines w; imported := imported w;
     max_chunk := max_chunk w; retry_delay := retry_delay w; slept := slept w;
     clock := clock w; open_counter := open_counter w;
     closed_counter := closed_counter w; failpoints := failpoints w; file_sizes := file_sizes w |}.

(** A fallible backend call first consults the script: a queued failure
    is returned as it is, otherwise the operation [op] is carried out. *)
Definition fallible (op : world -> error * world) (w : world) : error * world :=
  match script w with
  | Some e :: s => (Some e, with_script s w)
  | None :: s => op (with_script s w)
  | [] => op w
  end.

Definition not_open : error := Some (permanent "engine is not open").

Definition do_open (u : string) (w : world) : error * world :=
  let rows := match find_engine u w with Some f => content f | None => [] end in
  (None, with_engines (put_engine {| name := u; is_open := true; content := rows |} w) w).

Definition do_write (u : string) (rows : list string) (w : world) : error * world :=
  match find_engine u w with
  | Some f =>
      if is_open f
      then (None, with_engines
                    (put_engine {| name := u; is_open := true;
                                   content := content f ++ rows |} w) w)
      else (not_open, w)
  | None => (not_open, w)
  end.

Definition do_close (u : string) (w : world) : error * world :=
  match find_engine u w with
  | Some f =>
      (None, with_engines
               (put_engine {| name := u; is_open := false; content := content f |} w) w)
  | None => (not_open, w)
  end.

Definition do_import (u : string) (w : world) : error * world :=
  match find_engine u w with
  | Some f =>
      (None,
       {| script := script w; engines := engines w;
          imported := imported w ++ content f;
          max_chunk := max_chunk w; retry_delay := retry_delay w; slept := slept w;
          clock := clock w; open_counter := open_counter w;
          closed_counter := closed_counter w; failpoints := failpoints w; file_sizes := file_sizes w |})
  | None => (Some (permanent "no such engine"), w)
  end.

Definition do_reset (u : string) (w : world) : error * world :=
  match find_engine u w with
  | Some f =>
      (None, with_engines
               (put_engine {| name := u; is_open := is_open f; content := [] |} w) w)
  | None => (Some (permanent "no such engine"), w)
  end.

Definition do_cleanup (u : string) (w : world) : error * world :=
  (None, with_engines
           (filter (fun g => negb (String.eqb (name g) u)) (engines w)) w).

Definition bump (label : string) (w : world) : world :=
  {| script := script w; engines := engines w; imported := imported w;
     max_chunk := max_chunk w; retry_delay := retry_delay w; slept := slept w;
     clock := clock w;
     open_counter := if String.eqb label "open" then open_counter w + 1
                     else open_counter w;
     closed_counter := if String.eqb label "closed" then closed_counter w + 1
                       else closed_counter w;
     failpoints := failpoints w; file_sizes := file_sizes w |}.

Definition sleep (d : Z) (w : world) : world :=
  {| script := script w; engines := engines w; imported := imported w;
     max_chunk := max_chunk w; retry_delay := retry_delay w; slept := slept w + d;
     clock := clock w; open_counter := open_counter w;
     closed_counter := closed_counter w; failpoints := failpoints w; file_sizes := file_sizes w |}.

Definition serve : handler world := fun c =>
  match c as c0 return world -> resp c0 * world with
  | abstract_Close _ => fun w => (tt, w)
  | abstract_MakeEmptyRows _ => fun w => ([], w)
  | abstract_RetryImportDelay _ => fun w => (retry_delay w, w)
  | abstract_MaxChunkSize _ => fun w => (max_chunk w, w)
  | abstract_ShouldPostProcess _ => fun w => (true, w)
  | abstract_OpenEngine _ _ u => fallible (do_open u)
  | abstract_WriteRows _ _ u _ _ _ rows => fallible (do_write u rows)
  | abstract_CloseEngine _ _ u => fallible (do_close u)
  | abstract_ImportEngine _ _ u => fallible (do_import u)
  | abstract_CleanupEngine _ _ u => fallible (do_cleanup u)
  | abstract_CheckRequirements _ _ => fallible (fun w => (None, w))
  | abstract_FlushEngine _ _ => fallible (fun w => (None, w))
  | abstract_FlushAllEngines _ => fallible (fun w => (None, w))
  | abstract_EngineFileSizes _ => fun w => (file_sizes w, w)
  | abstract_ResetEngine _ _ u => fallible (do_reset u)
  | time_Sleep d => fun w => (tt, sleep d w)
  | time_Now_Unix => fun w => (clock w, w)
  | Logger_Info _ _ => fun w => (tt, w)
  | Logger_Begin _ _ _ => fun w => (tt, w)
  | Task_End _ _ _ => fun w => (tt, w)
  | Task_Warn _ _ _ => fun w => (tt, w)
  | Counter_Inc label => fun w => (tt, bump label w)
  | metric_ReadCounter label => fun w =>
      (float64_of_int
         (if String.eqb label "open" then open_counter w
          else if String.eqb label "closed" then closed_counter w else 0), w)
  | failpoint_Inject fp => fun w =>
      (option_map snd (find (fun p => String.eqb (fst p) fp) (failpoints w)), w)
  end.

(** The engine [u] exists and accepts writes. *)
Definition writable (u : string) (w : world) : Prop :=
  exists f, find_engine u w = Some f /\ is_open f = true.

Definition start : world :=
  {| script := []; engines := []; imported := [];
     max_chunk := 8; retry_delay := 1000; slept := 0; clock := 1600000000;
     open_counter := 0; closed_counter := 0; failpoints := [];
     file_sizes := [] |}.

Definition be : Backend := MakeBackend tt.

Local Open Scope string_scope.

(** The records of the worked example of the design document. *)
Definition size_A : EngineFileSize := {| UUID := "A"; Size := 10; IsImporting := false |}.
Definition size_B : EngineFileSize := {| UUID := "B"; Size := 30; IsImporting := false |}.
Definition size_C : EngineFileSize := {| UUID := "C"; Size := 5; IsImporting := true |}.

Definition sizes_ABC : list EngineFileSize := [size_A; size_B; size_C].

(** Two importing records whose total passes the quota 20, then an idle
    record of negative size that brings it back under. *)
Definition sizes_dip : list EngineFileSize :=
  [ {| UUID := "D"; Size := 30; IsImporting := true |};
    {| UUID := "E"; Size := -20; IsImporting := false |} ].

(** An engine named A holding two rows, open for writing. *)
Definition with_A (failures : list error) : world :=
  {| script := failures;
     engines := [{| name := "A"; is_open := true; content := ["r1"; "r2"] |}];
     imported := [];
     max_chunk := 8; retry_delay := 1000; slept := 0; clock := 1600000000;
     open_counter := 0; closed_counter := 0; failpoints := [];
     file_sizes := [] |}.

(** A backend that reports the given engine sizes. *)
Definition reporting (sizes : list EngineFileSize) : world :=
  {| script := []; engines := []; imported := [];
     max_chunk := 8; retry_delay := 1000; slept := 0; clock := 1600000000;
     open_counter := 0; closed_counter := 0; failpoints := [];
     file_sizes := sizes |}.

Definition quota_run : outcome (list uuid_UUID * Z * Z) * world * list event :=
  exec serve (Backend_CheckDiskQuota be 20) (reporting sizes_ABC).

Definition engine_A : engine :=
  {| backend := tt; logger := makeLogger "t:0" "A"; uuid := "A" |}.

Definition opened_A : OpenedEngine :=
  {| opened := engine_A; tableName := "t"; ts := 0 |}.

Definition closed_A : ClosedEngine := {| closed := engine_A |}.

(** Import with one transient failure before the success. *)
Definition import_run : outcome error * world * list event :=
  exec serve (ClosedEngine_Import closed_A tt)
    (with_A [Some (transient "connection reset"); None]).

(** Three rows of four, four and two bytes with chunks of at most eight
    bytes; the first write fails transiently. *)
Definition write_run : outcome error * world * list event :=
  exec serve (OpenedEngine_WriteRows opened_A tt ["c"] ["aaaa"; "bbbb"; "cc"])
    (with_A [Some (transient "busy")]).

Definition write_nothing_run : outcome error * world * list event :=
  exec serve (OpenedEngine_WriteRows opened_A tt ["c"] []) (with_A []).

Definition import_and_reset_run : outcome error * world * list event :=
  exec serve (Backend_UnsafeImportAndReset be tt "A") (with_A []).

Definition import_and_reset_failing_run : outcome error * world * list event :=
  exec serve (Backend_UnsafeImportAndReset be tt "A")
    (with_A [Some (permanent "disk full")]).

(** The engine of table t, number 0, open and empty. *)
Definition close_run : outcome (option ClosedEngine * error) * world * list event :=
  exec serve (Backend_UnsafeCloseEngineWithUUID be tt
                (fst (MakeUUID "t" 0)) (snd (MakeUUID "t" 0)))
    (with_engines [{| name := snd (MakeUUID "t" 0); is_open := true; content := [] |}]
       start).

(** Four engines open and none closed, the failpoint set to 4 as in the
    integration test. *)
Definition guarded (opened_so_far : Z) : world :=
  {| script := []; engines := []; imported := [];
     max_chunk := 8; retry_delay := 1000; slept := 0; clock := 1600000000;
     open_counter := opened_so_far; closed_counter := 0;
     failpoints := [("FailIfEngineCountExceeds", failpoint_int 4)];
     file_sizes := [] |}.

Definition open_run (opened_so_far : Z)
    : outcome (option OpenedEngine * error) * world * list event :=
  exec serve (Backend_OpenEngine be tt "t" 0) (guarded opened_so_far).

End double.

(** ** Vocabulary of the properties *)

Section Vocabulary.

Context `{Imports}.

(** What a call returned, without the dependency on the call. *)
Inductive answer : Type :=
| ans_unit
| ans_Z (z : Z)
| ans_float (x : float64)
| ans_bool (b : bool)
| ans_error (e : error)
| ans_sizes (l : list EngineFileSize)
| ans_rows (r : Rows)
| ans_value (v : option failpoint_Value).

Definition answer_of (e : event) : answer :=
  match e with
  | Ev c x =>
      match c as c0 return resp c0 -> answer with
      | abstract_Close _ => fun _ => ans_unit
      | abstract_MakeEmptyRows _ => ans_rows
      | abstract_RetryImportDelay _ => ans_Z
      | abstract_MaxChunkSize _ => ans_Z
      | abstract_ShouldPostProcess _ => ans_bool
      | abstract_OpenEngine _ _ _ => ans_error
      | abstract_WriteRows _ _ _ _ _ _ _ => ans_error
      | abstract_CloseEngine _ _ _ => ans_error
      | abstract_ImportEngine _ _ _ => ans_error
      | abstract_CleanupEngine _ _ _ => ans_error
      | abstract_CheckRequirements _ _ => ans_error
      | abstract_FlushEngine _ _ => ans_error
      | abstract_FlushAllEngines _ => ans_error
      | abstract_EngineFileSizes _ => ans_sizes
      | abstract_ResetEngine _ _ _ => ans_error
      | time_Sleep _ => fun _ => ans_unit
      | time_Now_Unix => ans_Z
      | Logger_Info _ _ => fun _ => ans_unit
      | Logger_Begin _ _ _ => fun _ => ans_unit
      | Task_End _ _ _ => fun _ => ans_unit
      | Task_Warn _ _ _ => fun _ => ans_unit
      | Counter_Inc _ => fun _ => ans_unit
      | metric_ReadCounter _ => ans_float
      | failpoint_Inject _ => ans_value
      end x
  end.

(** Two distinct tags that hash to the same identity. *)
Definition hash_collision (tag1 tag2 : string) : Prop :=
  tag1 <> tag2 /\
  uuid_NewSHA1 engineNamespace tag1 = uuid_NewSHA1 engineNamespace tag2.

(** A failure that makes a retry loop go round again. *)
Definition retryable_failure (e : error) : Prop :=
  e <> no_error /\ common_IsRetryableError e = true.

(** The calls [UnsafeImportAndReset] can make: importing, resetting, asking
    for the retry delay, sleeping and logging. *)
Definition import_and_reset_call (c : call) : bool :=
  match c with
  | abstract_ImportEngine _ _ _ | abstract_ResetEngine _ _ _
  | abstract_RetryImportDelay _ | time_Sleep _
  | Logger_Info _ _ | Logger_Begin _ _ _ | Task_End _ _ _ | Task_Warn _ _ _ => true
  | _ => false
  end.

(** The engine that [UnsafeImportAndReset] builds for its import. *)
Definition import_and_reset_engine (be : Backend) (engineUUID : uuid_UUID)
    : ClosedEngine :=
  {| closed := {| backend := abstract be;
                  logger := makeLogger "<import-and-reset>" engineUUID;
                  uuid := engineUUID |} |}.

(** The backend import of [engine], answered with [e]. *)
Definition import_attempt (engine : ClosedEngine) (ctx : context_Context)
    (e : error) : event :=
  Ev (abstract_ImportEngine (backend (closed engine)) ctx (uuid (closed engine))) e.

(** One attempt of [Import] that failed with [fst f] and was retried, as
    seen by the backend and the clock: the import, the query of the retry
    delay (answered [snd f]), the sleep. *)
Definition failed_import (engine : ClosedEngine) (ctx : context_Context)
    (f : error * Z) : list event :=
  [ import_attempt engine ctx (fst f);
    Ev (abstract_RetryImportDelay (backend (closed engine))) (snd f);
    Ev (time_Sleep (snd f)) tt ].

(** The annotation [Import] puts on the last error once its attempts are
    used up: the format of the source with the engine identity and
    [maxRetryTimes] filled in. *)
Definition import_message (engine : ClosedEngine) : string :=
  ("[" ++ uuid_String (uuid (closed engine)) ++ "] import reach max retry 3 and still failed")%string.

(** The attempts of [WriteRows] on one chunk: the responses that sent the
    loop round again, and the response that ended it. *)
Record attempts : Type := {
  chunk : Rows;
  retried : list error;
  settled : error
}.

(** The backend write of the chunk [r] through [engine], answered with [e]. *)
Definition write_attempt (engine : OpenedEngine) (ctx : context_Context)
    (columnNames : list string) (r : Rows) (e : error) : event :=
  Ev (abstract_WriteRows (backend (opened engine)) ctx (uuid (opened engine))
        (tableName engine) columnNames (ts engine) r) e.

Definition write_events (engine : OpenedEngine) (ctx : context_Context)
    (columnNames : list string) (a : attempts) : list event :=
  map (write_attempt engine ctx columnNames (chunk a)) (retried a ++ [settled a]).

(** The annotation [WriteRows] puts on the last error once the attempts on
    a chunk are used up, with the table name and [maxRetryTimes] filled
    in. *)
Definition write_message (engine : OpenedEngine) : string :=
  ("[" ++ tableName engine ++ "] write rows reach max retry 3 and still failed")%string.

(** At most three attempts, all but the last having failed retryably. *)
Definition attempts_ok (a : attempts) : Prop :=
  Forall retryable_failure (retried a) /\ (length (retried a ++ [settled a]) <= 3)%nat.

(** The last attempt on the chunk succeeded. *)
Definition written (a : attempts) : Prop := settled a = no_error.

(** How [WriteRows] ends, given the attempts [groups] it made and the chunks
    [later] it never reached: either every chunk was written and there is
    none left, or the last chunk tried failed for good. *)
Definition WriteRows_result (engine : OpenedEngine) (groups : list attempts)
    (later : list Rows) (out : outcome error) : Prop :=
  (Forall written groups /\ later = [] /\ out = Returned no_error)
  \/
  (exists gs a,
     groups = gs ++ [a] /\ Forall written gs /\ settled a <> no_error /\
     ((common_IsRetryableError (settled a) = false /\ out = Returned (settled a))
      \/
      (common_IsRetryableError (settled a) = true /\
       length (retried a ++ [settled a]) = 3%nat /\
       out = Returned (errors_Annotatef (settled a) (write_message engine))))).

Definition sum_sizes (l : list EngineFileSize) : Z :=
  fold_right (fun r s => Size r + s) 0 l.

(** Running totals of the accumulation loop: each record with the [int64]
    total once it has been added. *)
Fixpoint running (total : Z) (l : list EngineFileSize) : list (EngineFileSize * Z) :=
  match l with
  | [] => []
  | r :: l' => let t := add64 total (Size r) in (r, t) :: running t l'
  end.

(** The records at which the running total is above the quota. *)
Definition excess_from (total quota : Z) (l : list EngineFileSize)
    : list EngineFileSize :=
  map fst (filter (fun rt => snd rt >? quota) (running total l)).

Definition excess (quota : Z) (l : list EngineFileSize) : list EngineFileSize :=
  excess_from 0 quota l.

(** What [CheckDiskQuota] returns when it walks the records in the order
    [order]: the identities of the idle excess records, the number of
    importing excess records, and the wrapped sum of all sizes. *)
Definition quota_verdict (quota : Z) (order : list EngineFileSize)
    : list uuid_UUID * Z * Z :=
  (map UUID (filter (fun r => negb (IsImporting r)) (excess quota order)),
   Z.of_nat (length (filter IsImporting (excess quota order))),
   wrap64 (sum_sizes order)).

Definition ascending (l : list EngineFileSize) : Prop :=
  StronglySorted (fun a b => Size a <= Size b) l.

(** Importing records first, each group ascending by size. *)
Definition importing_first (l : list EngineFileSize) : Prop :=
  exists imp idle,
    l = imp ++ idle /\
    Forall (fun r => IsImporting r = true) imp /\
    Forall (fun r => IsImporting r = false) idle /\
    ascending imp /\ ascending idle.

(** The order the design document describes: importing records last. *)
Definition importing_last (l : list EngineFileSize) : Prop :=
  exists idle imp,
    l = idle ++ imp /\
    Forall (fun r => IsImporting r = false) idle /\
    Forall (fun r => IsImporting r = true) imp /\
    ascending idle /\ ascending imp.

(** The behaviour the design document describes for [CheckDiskQuota]: the
    result of walking the reported records in some order that has the
    importing records last. *)
Definition CheckDiskQuota_as_described (sizes : list EngineFileSize) (quota : Z)
    (out : outcome (list uuid_UUID * Z * Z)) : Prop :=
  exists order,
    Permutation order sizes /\ importing_last order /\
    out = Returned (quota_verdict quota order).

End Vocabulary.

(** ** Vocabulary of the further properties *)

Section MoreVocabulary.

Context `{Imports}.

Definition is_OpenEngine (e : event) : bool :=
  match ev_call e with abstract_OpenEngine _ _ _ => true | _ => false end.

Definition is_MaxChunkSize (e : event) : bool :=
  match ev_call e with abstract_MaxChunkSize _ => true | _ => false end.

(** An increment of the engine counter with the label [label]. *)
Definition is_Counter_Inc (label : string) (e : event) : bool :=
  match ev_call e with Counter_Inc l => String.eqb l label | _ => false end.

(** The call, when it goes to a backend, goes to [b], and when it names an
    engine, names [u]. *)
Definition on_engine (b : AbstractBackend) (u : uuid_UUID) (c : call) : Prop :=
  match c with
  | abstract_Close b' | abstract_MakeEmptyRows b' | abstract_RetryImportDelay b'
  | abstract_MaxChunkSize b' | abstract_ShouldPostProcess b'
  | abstract_FlushAllEngines b' | abstract_EngineFileSizes b'
  | abstract_CheckRequirements b' _ => b' = b
  | abstract_OpenEngine b' _ u' | abstract_CloseEngine b' _ u'
  | abstract_ImportEngine b' _ u' | abstract_CleanupEngine b' _ u'
  | abstract_ResetEngine b' _ u' | abstract_FlushEngine b' u'
  | abstract_WriteRows b' _ u' _ _ _ _ => b' = b /\ u' = u
  | _ => True
  end.

(** The chunks of the backend writes that were answered nil, in the order
    of the trace. *)
Definition delivered (tr : list event) : list Rows :=
  flat_map
    (fun e =>
       match e with
       | Ev c x =>
           match c as c0 return resp c0 -> list Rows with
           | abstract_WriteRows _ _ _ _ _ _ r =>
               fun err => match err with None => [r] | Some _ => [] end
           | _ => fun _ => []
           end x
       end) tr.


(** The engine [OpenEngine] returns when the clock reads [now]. *)
Definition OpenEngine_engine (be : Backend) (tableName : string) (engineID : Z)
    (now : Z) : OpenedEngine :=
  {| opened := {| backend := abstract be;
                  logger := makeLogger (fst (MakeUUID tableName engineID))
                              (snd (MakeUUID tableName engineID));
                  uuid := snd (MakeUUID tableName engineID) |};
     tableName := tableName;
     ts := oracle_ComposeTS (wrap64 (now * 1000)) 0 |}.

(** What [OpenEngine] does up to the failpoint once the backend has opened
    the engine. *)
Definition OpenEngine_prefix (be : Backend) (ctx : context_Context)
    (tableName : string) (engineID : Z) : list event :=
  [ Ev (abstract_OpenEngine (abstract be) ctx (snd (MakeUUID tableName engineID)))
       no_error;
    Ev (Counter_Inc "open") tt;
    Ev (Logger_Info (makeLogger (fst (MakeUUID tableName engineID))
                       (snd (MakeUUID tableName engineID))) "open engine") tt ].

(** The guard aborts on the value [v] and the readings [o] and [c]. *)
Definition guard_fires (v : failpoint_Value) (o c : float64) : Prop :=
  match v with
  | failpoint_int n => float64_gt (float64_sub o c) (float64_of_int n) = true
  | _ => True
  end.



Definition is_Counter (e : event) : bool :=
  match ev_call e with Counter_Inc _ => true | _ => false end.

Definition idle (r : EngineFileSize) : bool := negb (IsImporting r).

End MoreVocabulary.

(** ** Further runs of the in-memory environment *)

Module double_runs.

Import double.
#[local] Existing Instance imports.
Local Open Scope string_scope.

Definition open_failing_run
    : outcome (option OpenedEngine * error) * world * list event :=
  exec serve (Backend_OpenEngine be tt "t" 0)
    (with_script [Some (permanent "no space left")] start).

Definition open_plain_run
    : outcome (option OpenedEngine * error) * world * list event :=
  exec serve (Backend_OpenEngine be tt "t" 0) start.

(** The failpoint set to a string instead of a number. *)
Definition mistyped : world :=
  {| script := []; engines := []; imported := [];
     max_chunk := 8; retry_delay := 1000; slept := 0; clock := 1600000000;
     open_counter := 9; closed_counter := 0;
     failpoints := [("FailIfEngineCountExceeds", failpoint_string "4")];
     file_sizes := [] |}.

Definition open_mistyped_run
    : outcome (option OpenedEngine * error) * world * list event :=
  exec serve (Backend_OpenEngine be tt "t" 0) mistyped.

Definition close_ok_run
    : outcome (option ClosedEngine * error) * world * list event :=
  exec serve (OpenedEngine_Close opened_A tt) (with_A []).

Definition close_failing_run
    : outcome (option ClosedEngine * error) * world * list event :=
  exec serve (OpenedEngine_Close opened_A tt) (with_A [Some (transient "busy")]).

(** The usual workflow on table t, engine 0: open, write, flush, close,
    import, clean up, each step in the world the step before left. *)
Definition life_engine : OpenedEngine := OpenEngine_engine be "t" 0 1600000000.

Definition life_closed : ClosedEngine := {| closed := opened life_engine |}.

Definition life_open := exec serve (Backend_OpenEngine be tt "t" 0) start.

Definition life_write :=
  exec serve (OpenedEngine_WriteRows life_engine tt ["c"] ["aaaa"; "bbbb"; "cc"])
    (with_script [Some (transient "busy")] (snd (fst life_open))).

Definition life_flush :=
  exec serve (OpenedEngine_Flush life_engine) (snd (fst life_write)).

Definition life_close :=
  exec serve (OpenedEngine_Close life_engine tt) (snd (fst life_flush)).

Definition life_import :=
  exec serve (ClosedEngine_Import life_closed tt)
    (with_script [Some (transient "timeout")] (snd (fst life_close))).

Definition life_cleanup :=
  exec serve (ClosedEngine_Cleanup life_closed tt) (snd (fst life_import)).

(** The engine closed by table name and number instead, right after it was
    opened. *)
Definition life_unsafe_close :=
  exec serve (Backend_UnsafeCloseEngine be tt "t" 0) (snd (fst life_open)).

(** The second of two chunks fails for good. *)
Definition write_failing_run : outcome error * world * list event :=
  exec serve (OpenedEngine_WriteRows opened_A tt ["c"] ["aaaa"; "bbbb"; "cc"])
    (with_A [None; Some (permanent "checksum mismatch")]).


(** The import succeeds, the reset fails. *)
Definition reset_failing_run : outcome error * world * list event :=
  exec serve (Backend_UnsafeImportAndReset be tt "A")
    (with_A [None; Some (permanent "cannot reset")]).

(** Two importing engines of 15 and 10 bytes, two idle ones of 7 and 3. *)
Definition sizes_busy : list EngineFileSize :=
  [ {| UUID := "P"; Size := 15; IsImporting := true |};
    {| UUID := "Q"; Size := 7; IsImporting := false |};
    {| UUID := "R"; Size := 10; IsImporting := true |};
    {| UUID := "S"; Size := 3; IsImporting := false |} ].

Definition busy_run (quota : Z)
    : outcome (list uuid_UUID * Z * Z) * world * list event :=
  exec serve (Backend_CheckDiskQuota be quota) (reporting sizes_busy).

End double_runs.

(** ** Runs: general facts *)

Section RunFacts.

Context `{Imports}.

(** Every environment produces a run of the program. *)
Lemma exec_runs {R W : Type} (h : handler W) (p : prog R) (w : W) :
  runs p (snd (exec h p w)) (fst (fst (exec h p w))).
Proof.
  revert w. induction p as [r | c k IH | msg]; intros w; simpl; auto.
  destruct (h c w) as [x w1]. specialize (IH x w1).
  destruct (exec h (k x) w1) as [[out w2] tr]. simpl in *. eauto.
Qed.

Lemma runs_bind {A B : Type} (p : prog A) (f : A -> prog B) tr out :
  runs (bind p f) tr out <->
  (exists tr1 a tr2, runs p tr1 (Returned a) /\ runs (f a) tr2 out /\ tr = tr1 ++ tr2)
  \/ (exists msg, runs p tr (Panicked msg) /\ out = Panicked msg).
Proof.
  revert tr. induction p as [r | c k IH | msg]; intros tr; simpl.
  - split.
    + intros Hr. left. exists [], r, tr. auto.
    + intros [(tr1 & a & tr2 & [-> E] & Hr & ->) | (msg & [_ E] & _)];
        [inversion E; subst; exact Hr | discriminate].
  - split.
    + intros (x & tr' & -> & Hr). apply IH in Hr.
      destruct Hr as [(tr1 & a & tr2 & H1 & H2 & ->) | (msg & H1 & ->)].
      * left. exists (Ev c x :: tr1), a, tr2. simpl. eauto 8.
      * right. exists msg. eauto 8.
    + intros [(tr1 & a & tr2 & (x & tr' & -> & H1) & H2 & ->) | (msg & (x & tr' & -> & H1) & ->)].
      * exists x, (tr' ++ tr2). split; [reflexivity|]. apply IH. left. eauto 8.
      * exists x, tr'. split; [reflexivity|]. apply IH. right. eauto.
  - split.
    + intros [-> ->]. right. exists msg. auto.
    + intros [(tr1 & a & tr2 & [_ E] & _) | (m & [-> E] & ->)];
        [discriminate | inversion E; auto].
  Qed.

(** The responses recorded for one and the same call can be compared. *)
Lemma Ev_answer (e1 e2 : event) : e1 = e2 -> answer_of e1 = answer_of e2.
Proof. now intros ->. Qed.

Lemma Ev_inj (c : call) (x y : resp c) : Ev c x = Ev c y -> x = y.
Proof.
  intros E. apply Ev_answer in E.
  destruct c; simpl in *; try (now destruct x, y); now inversion E.
Qed.

(** A program reads its trace from the left: two runs of one program that
    start a common sequence of events are the same run. *)
Lemma runs_prefix {R : Type} (p : prog R) :
  forall tr1 tr2 tr1' tr2' out out',
    runs p tr1 out -> runs p tr1' out' -> tr1 ++ tr2 = tr1' ++ tr2' ->
    tr1 = tr1' /\ out = out'.
Proof.
  induction p as [r | c k IH | msg]; simpl; intros tr1 tr2 tr1' tr2' out out'.
  - intros [-> ->] [-> ->] _. auto.
  - intros (x & t & -> & Hr) (x' & t' & -> & Hr') E.
    simpl in E. inversion E as [[Ex Et]].
    assert (x = x') as <- by (apply Ev_inj; congruence).
    destruct (IH x _ _ _ _ _ _ Hr Hr' Et) as [-> ->]. auto.
  - intros [-> ->] [-> ->] _. auto.
Qed.

(** A state property that every call of a run preserves holds at its end. *)
Lemma exec_invariant {R W : Type} (h : handler W) (P : W -> Prop)
    (allowed : call -> bool) (p : prog R) :
  (forall tr out, runs p tr out -> forallb (fun e => allowed (ev_call e)) tr = true) ->
  (forall c w, allowed c = true -> P w -> P (snd (h c w))) ->
  forall w, P w -> P (snd (fst (exec h p w))).
Proof.
  intros Hcalls Hstep.
  induction p as [r | c k IH | msg]; intros w Pw; simpl; auto.
  destruct (h c w) as [x w1] eqn:E.
  destruct (exec h (k x) w1) as [[out w2] tr] eqn:E2. simpl.
  assert (Hrun : runs (k x) tr out).
  { pose proof (exec_runs h (k x) w1) as Hr. now rewrite E2 in Hr. }
  assert (Hall : forallb (fun e => allowed (ev_call e)) (Ev c x :: tr) = true).
  { apply (Hcalls _ out). simpl. eauto. }
  simpl in Hall. apply andb_prop in Hall as [Hc _].
  specialize (IH x).
  assert (P w1) by (pose proof (Hstep c w Hc Pw) as Q; now rewrite E in Q).
  replace w2 with (snd (fst (exec h (k x) w1))) by now rewrite E2.
  apply IH; auto.
  intros tr0 out0 Hr0.
  assert (Hall0 : forallb (fun e => allowed (ev_call e)) (Ev c x :: tr0) = true).
  { apply (Hcalls _ out0). simpl. eauto. }
  simpl in Hall0. now apply andb_prop in Hall0 as [_ ?].
Qed.

End RunFacts.

(** ** Formatting: the decimal rendering can be read back *)

Module fmt_facts.

Import fmt.

Lemma itoa_inj (a b : Z) : itoa a = itoa b -> a = b.
Proof.
  unfold itoa. intros H.
  apply DecimalZ.to_int_inj.
  assert (Hs : Some (Z.to_int a) = Some (Z.to_int b))
    by (rewrite <- !NilEmpty.isi, H; reflexivity).
  now inversion Hs.
Qed.

Lemma uint_digits_no_colon (d : Decimal.uint) :
  occurs ":" (NilEmpty.string_of_uint d) = false.
Proof. induction d; simpl; auto. Qed.

Lemma itoa_no_colon (z : Z) : occurs ":" (itoa z) = false.
Proof.
  unfold itoa, NilEmpty.string_of_int.
  destruct (Z.to_int z); simpl; apply uint_digits_no_colon.
Qed.

(** The text after the last colon of a string determines the split. *)
Lemma colon_split (t1 t2 s1 s2 : string) :
  occurs ":" s1 = false -> occurs ":" s2 = false ->
  (t1 ++ ":" ++ s1 = t2 ++ ":" ++ s2)%string -> t1 = t2 /\ s1 = s2.
Proof.
  intros H1 H2. revert t2.
  induction t1 as [|c t1 IH]; intros [|c' t2] E; simpl in E.
  - inversion E; auto.
  - inversion E; subst. exfalso.
    clear -H1. induction t2; simpl in H1; [discriminate|].
    apply orb_false_iff in H1 as [_ H1]; auto.
  - inversion E; subst. exfalso.
    clear -H2. induction t1; simpl in H2; [discriminate|].
    apply orb_false_iff in H2 as [_ H2]; auto.
  - inversion E; subst. destruct (IH _ H3) as [-> ->]; auto.
Qed.

End fmt_facts.

(** ** Engine identity *)

Section Identity.

Context `{Imports}.

Lemma makeTag_inj (t1 t2 : string) (e1 e2 : Z) :
  makeTag t1 e1 = makeTag t2 e2 -> t1 = t2 /\ e1 = e2.
Proof.
  unfold makeTag. intros E.
  apply fmt_facts.colon_split in E; try apply fmt_facts.itoa_no_colon.
  destruct E as [-> E]. split; [reflexivity | now apply fmt_facts.itoa_inj].
Qed.

(** C6.  The identity of an engine is a function of the table name and the
    engine number alone: equal inputs give the equal tag and identity, the
    tag alone already determines the inputs, and two different inputs can
    only share an identity when their tags collide under the namespaced
    hash. *)
Theorem MakeUUID_deterministic_injective (t1 t2 : string) (e1 e2 : Z) :
  (t1 = t2 -> e1 = e2 -> MakeUUID t1 e1 = MakeUUID t2 e2) /\
  (fst (MakeUUID t1 e1) = fst (MakeUUID t2 e2) -> t1 = t2 /\ e1 = e2) /\
  (snd (MakeUUID t1 e1) = snd (MakeUUID t2 e2) ->
     (t1 = t2 /\ e1 = e2) \/ hash_collision (makeTag t1 e1) (makeTag t2 e2)).
Proof.
  split; [| split].
  - now intros -> ->.
  - unfold MakeUUID. simpl. apply makeTag_inj.
  - unfold MakeUUID. simpl. intros E.
    destruct (string_dec (makeTag t1 e1) (makeTag t2 e2)) as [T | T].
    + left. now apply makeTag_inj.
    + right. split; assumption.
Qed.

(** Whatever the environment answers, [OpenEngine] asks the backend for the
    engine of the derived identity, and before anything else. *)
Lemma OpenEngine_opens_derived_identity (be : Backend) (ctx : context_Context)
    (tableName : string) (engineID : Z) tr out :
  runs (Backend_OpenEngine be ctx tableName engineID) tr out ->
  exists err rest,
    tr = Ev (abstract_OpenEngine (abstract be) ctx (snd (MakeUUID tableName engineID))) err
           :: rest.
Proof.
  unfold Backend_OpenEngine. simpl. intros (err & rest & -> & _). eauto.
Qed.

(** A table name may itself contain colons and digits. *)
Lemma makeTag_examples :
  makeTag "db.t" 12 = "db.t:12"%string /\
  makeTag "a:1" 2 = "a:1:2"%string /\
  makeTag "a" (-1) = "a:-1"%string /\
  makeTag "" 0 = ":0"%string.
Proof. repeat split. Qed.

End Identity.

(** ** [ClosedEngine.Import] *)

Section ImportFacts.

Context `{Imports}.

Lemma filter_unlogged (f : event -> bool) (tr : list event) :
  (forall e, f e = true -> is_log e = false) ->
  filter f (unlogged tr) = filter f tr.
Proof.
  intros Hf. unfold unlogged. induction tr as [|e tr IH]; simpl; auto.
  destruct (is_log e) eqn:L; simpl.
  - destruct (f e) eqn:F; [apply Hf in F; congruence | exact IH].
  - destruct (f e); now rewrite IH.
Qed.

Lemma last_cons_default {A : Type} (x d : A) (l : list A) :
  last (x :: l) d = last l x.
Proof.
  revert x d. induction l as [|y l IH]; intros x d; [reflexivity|].
  change (last (x :: y :: l) d) with (last (y :: l) d).
  now rewrite !IH.
Qed.

Lemma Import_loop_runs (engine : ClosedEngine) (ctx : context_Context) (n : nat) :
  forall err0 tr out,
    runs (ClosedEngine_Import_loop engine ctx n err0) tr out ->
    (length (filter is_ImportEngine tr) <= n)%nat /\
    forallb (fun e => is_log e || is_ImportEngine e || is_Sleep e ||
                      match ev_call e with abstract_RetryImportDelay _ => true | _ => false end)
            tr = true /\
    exists fails : list (error * Z),
      Forall (fun f => common_IsRetryableError (fst f) = true) fails /\
      ((exists e,
          unlogged tr = flat_map (failed_import engine ctx) fails ++
                        [import_attempt engine ctx e] /\
          common_IsRetryableError e = false /\
          (length fails < n)%nat /\ out = Returned e)
       \/
       (unlogged tr = flat_map (failed_import engine ctx) fails /\
        length fails = n /\
        out = Returned (errors_Annotatef (last (map fst fails) err0)
                          (import_message engine)))).
Proof.
  induction n as [|n IH]; intros err0 tr out Hr.
  - simpl in Hr. destruct Hr as [-> ->]. simpl. repeat split; auto.
    exists []. split; [constructor|]. right. repeat split; reflexivity.
  - cbn [ClosedEngine_Import_loop] in Hr. simpl bind in Hr.
    destruct Hr as ([] & tr1 & -> & e & tr2 & -> & Hr).
    destruct (common_IsRetryableError e) eqn:Re; simpl in Hr.
    + destruct Hr as ([] & tr3 & -> & d & tr4 & -> & [] & tr5 & -> & Hr).
      apply IH in Hr. destruct Hr as (Hc & Hk & fails & Hf & Hs).
      split; [simpl; lia|]. split; [simpl; exact Hk|].
      exists ((e, d) :: fails). split; [constructor; auto|].
      destruct Hs as [(e' & Ht & Re' & Hl & ->) | (Ht & Hl & ->)].
      * left. exists e'. unfold unlogged in *. simpl. rewrite Ht.
        repeat split; auto. simpl; lia.
      * right. split; [unfold unlogged in *; simpl; now rewrite Ht|].
        split; [simpl; lia|].
        change (map fst ((e, d) :: fails)) with (e :: map fst fails).
        now rewrite last_cons_default.
    + destruct Hr as ([] & tr3 & -> & -> & ->).
      split; [simpl; lia|]. split; [reflexivity|].
      exists []. split; [constructor|]. left. exists e.
      repeat split; auto. simpl; lia.
Qed.

(** C4.  [Import] calls the backend's import at most three times.  Every
    attempt that fails retryably is followed by a query of the backend's
    retry delay and a sleep of that length.  An attempt whose result is not
    retryable ends the call at once with that result; that includes
    success, which the classifier does not report as retryable.  After
    three retryable failures the last error comes back annotated with the
    engine identity and the bound. *)
Theorem Import_retries_bounded (engine : ClosedEngine) (ctx : context_Context)
    (tr : list event) (out : outcome error) :
  runs (ClosedEngine_Import engine ctx) tr out ->
  (length (filter is_ImportEngine tr) <= 3)%nat /\
  (exists fails : list (error * Z),
     Forall (fun f => common_IsRetryableError (fst f) = true) fails /\
     ((exists e,
         unlogged tr = flat_map (failed_import engine ctx) fails ++ [import_attempt engine ctx e] /\
         common_IsRetryableError e = false /\
         (length fails < 3)%nat /\ out = Returned e)
      \/
      (exists fails' e d,
         unlogged tr = flat_map (failed_import engine ctx) fails /\
         fails = fails' ++ [(e, d)] /\ length fails = 3%nat /\
         out = Returned (errors_Annotatef e (import_message engine))))) /\
  (forall e, common_IsRetryableError e = false -> In (import_attempt engine ctx e) tr ->
     out = Returned e /\ exists before, unlogged tr = before ++ [import_attempt engine ctx e]).
Proof.
  intros Hr. unfold ClosedEngine_Import in Hr.
  apply Import_loop_runs in Hr. destruct Hr as (Hc & _ & fails & Hf & Hs).
  change (Z.to_nat maxRetryTimes) with 3%nat in *.
  split; [exact Hc|].
  assert (Hin : forall e, In (import_attempt engine ctx e) (flat_map (failed_import engine ctx) fails) ->
                          common_IsRetryableError e = true).
  { intros e Hi. apply in_flat_map in Hi as (f & Hfin & Hi).
    rewrite Forall_forall in Hf. specialize (Hf f Hfin).
    simpl in Hi. destruct Hi as [Hi | [Hi | [Hi | []]]];
      apply Ev_answer in Hi; simpl in Hi; try discriminate.
    inversion Hi; subst. exact Hf. }
  assert (Hmem : forall e, In (import_attempt engine ctx e) tr -> In (import_attempt engine ctx e) (unlogged tr)).
  { intros e Hi. unfold unlogged. apply filter_In. split; auto. }
  split.
  - exists fails. split; [exact Hf|].
    destruct Hs as [(e & Ht & Re & Hl & ->) | (Ht & Hl & ->)].
    + left. exists e. auto.
    + right. destruct (exists_last (l := fails)) as (fails' & [e d] & ->).
      { intros ->. discriminate. }
      exists fails', e, d. repeat split; auto.
      rewrite map_app. simpl. rewrite last_last. reflexivity.
  - intros e Re Hi. apply Hmem in Hi.
    destruct Hs as [(e' & Ht & Re' & Hl & ->) | (Ht & Hl & ->)]; rewrite Ht in Hi.
    + apply in_app_or in Hi as [Hi | [Hi | []]].
      * apply Hin in Hi. congruence.
      * apply Ev_answer in Hi. simpl in Hi. inversion Hi; subst.
        split; [reflexivity|]. eauto.
    + apply Hin in Hi. congruence.
Qed.

End ImportFacts.

(** ** [Backend.UnsafeImportAndReset] *)

Section ImportAndResetFacts.

Context `{Imports}.

Lemma Import_calls (engine : ClosedEngine) (ctx : context_Context) tr out :
  runs (ClosedEngine_Import engine ctx) tr out ->
  forallb (fun e => import_and_reset_call (ev_call e)) tr = true /\
  existsb is_ResetEngine tr = false /\
  (exists e, In (import_attempt engine ctx e) tr) /\
  exists err, out = Returned err.
Proof.
  unfold ClosedEngine_Import. change (Z.to_nat maxRetryTimes) with 3%nat.
  intros Hr. split; [| split; [| split]].
  - apply Import_loop_runs in Hr as (_ & Hk & _).
    rewrite forallb_forall in *. intros e He. specialize (Hk e He).
    destruct e as [c x]. destruct c; simpl in *; auto; discriminate.
  - apply Import_loop_runs in Hr as (_ & Hk & _).
    destruct (existsb is_ResetEngine tr) eqn:E; [|reflexivity].
    apply existsb_exists in E as (e & He & Hreset).
    rewrite forallb_forall in Hk. specialize (Hk e He).
    destruct e as [c x]. destruct c; simpl in *; discriminate.
  - cbn [ClosedEngine_Import_loop] in Hr. simpl bind in Hr.
    destruct Hr as ([] & tr1 & -> & e & tr2 & -> & _).
    exists e. right. left. reflexivity.
  - apply Import_loop_runs in Hr as (_ & _ & fails & _ & Hs).
    destruct Hs as [(e & _ & _ & _ & ->) | (_ & _ & ->)]; eauto.
Qed.

Lemma UnsafeImportAndReset_runs (be : Backend) (ctx : context_Context)
    (engineUUID : uuid_UUID) tr out :
  runs (Backend_UnsafeImportAndReset be ctx engineUUID) tr out ->
  exists tr1 err,
    runs (ClosedEngine_Import (import_and_reset_engine be engineUUID) ctx) tr1
         (Returned err) /\
    ((err <> no_error /\ tr = tr1 /\ out = Returned err) \/
     (err = no_error /\ exists err',
        tr = tr1 ++ [Ev (abstract_ResetEngine (abstract be) ctx engineUUID) err'] /\
        out = Returned err')).
Proof.
  unfold Backend_UnsafeImportAndReset. intros Hr.
  apply runs_bind in Hr.
  destruct Hr as [(tr1 & err & tr2 & H1 & H2 & ->) | (msg & H1 & _)].
  - exists tr1, err. split; [exact H1|].
    destruct err as [e|]; simpl in H2.
    + destruct H2 as [-> ->]. left. rewrite app_nil_r. repeat split. discriminate.
    + destruct H2 as (err' & tr' & -> & -> & ->). right. split; [reflexivity|]. eauto.
  - apply Import_calls in H1 as (_ & _ & _ & err & E). discriminate.
Qed.

(** C5.  No run of [UnsafeImportAndReset] contains a call of the backend's
    close operation: it only imports, resets, asks for the retry delay,
    sleeps and logs.  When it returns nil it has run the import on the
    engine to success and then reset that engine, the reset being the last
    call.  Hence whatever holds of the backend and survives those calls,
    such as the engine being open and accepting writes, still holds when
    it returns. *)
Theorem UnsafeImportAndReset_never_closes (be : Backend) (ctx : context_Context)
    (engineUUID : uuid_UUID) (tr : list event) (out : outcome error) :
  runs (Backend_UnsafeImportAndReset be ctx engineUUID) tr out ->
  existsb is_CloseEngine tr = false /\
  forallb (fun e => import_and_reset_call (ev_call e)) tr = true /\
  (out = Returned no_error ->
     exists tr1,
       tr = tr1 ++ [Ev (abstract_ResetEngine (abstract be) ctx engineUUID) no_error] /\
       runs (ClosedEngine_Import (import_and_reset_engine be engineUUID) ctx) tr1
            (Returned no_error) /\
       (exists e, In (import_attempt (import_and_reset_engine be engineUUID) ctx e) tr1) /\
       existsb is_ResetEngine tr1 = false) /\
  (forall (W : Type) (h : handler W) (P : W -> Prop),
     (forall c w, import_and_reset_call c = true -> P w -> P (snd (h c w))) ->
     forall w, P w ->
       P (snd (fst (exec h (Backend_UnsafeImportAndReset be ctx engineUUID) w)))).
Proof.
  intros Hr.
  assert (Hcalls : forall tr out,
            runs (Backend_UnsafeImportAndReset be ctx engineUUID) tr out ->
            forallb (fun e => import_and_reset_call (ev_call e)) tr = true).
  { clear. intros tr out Hr.
    apply UnsafeImportAndReset_runs in Hr as (tr1 & err & H1 & Hs).
    apply Import_calls in H1 as (Hk & _).
    destruct Hs as [(_ & -> & _) | (_ & err' & -> & _)]; auto.
    rewrite forallb_app, Hk. reflexivity. }
  split; [| split; [| split]].
  - specialize (Hcalls _ _ Hr).
    destruct (existsb is_CloseEngine tr) eqn:E; [|reflexivity].
    apply existsb_exists in E as (e & He & Hc).
    rewrite forallb_forall in Hcalls. specialize (Hcalls e He).
    destruct e as [c x]. destruct c; simpl in *; discriminate.
  - eauto.
  - intros ->.
    apply UnsafeImportAndReset_runs in Hr as (tr1 & err & H1 & Hs).
    destruct Hs as [(Hne & _ & E) | (-> & err' & -> & E)].
    + inversion E; subst. now elim Hne.
    + inversion E; subst. exists tr1. split; [reflexivity|]. split; [exact H1|].
      apply Import_calls in H1 as (_ & Hreset & Hin & _). auto.
  - intros W h P Hstep w Pw.
    eapply exec_invariant; eauto.
Qed.

(** C8.  Every run of [UnsafeImportAndReset] starts with a run of the
    import step.  When that step returns an error, nothing follows it: the
    error is the result and the backend's reset is not called. *)
Theorem UnsafeImportAndReset_import_error (be : Backend) (ctx : context_Context)
    (engineUUID : uuid_UUID) (tr : list event) (out : outcome error) :
  runs (Backend_UnsafeImportAndReset be ctx engineUUID) tr out ->
  (exists tr1 tr2 err,
     tr = tr1 ++ tr2 /\
     runs (ClosedEngine_Import (import_and_reset_engine be engineUUID) ctx) tr1
          (Returned err)) /\
  (forall tr1 tr2 err,
     tr = tr1 ++ tr2 ->
     runs (ClosedEngine_Import (import_and_reset_engine be engineUUID) ctx) tr1
          (Returned err) ->
     err <> no_error ->
     tr2 = [] /\ out = Returned err /\ existsb is_ResetEngine tr = false).
Proof.
  intros Hr.
  apply UnsafeImportAndReset_runs in Hr as (tr1 & err & H1 & Hs).
  split.
  - destruct Hs as [(_ & -> & _) | (_ & err' & -> & _)].
    + exists tr1, [], err. now rewrite app_nil_r.
    + eauto.
  - intros tr1' tr2' e' Et H1' Hne.
    destruct Hs as [(_ & E & Eo) | (Hn & err' & E & _)].
    + destruct (runs_prefix _ tr1 [] tr1' tr2' _ _ H1 H1') as [<- Q].
      { rewrite app_nil_r. congruence. }
      inversion Q; subst err. subst tr.
      rewrite <- (app_nil_r tr1) in Et at 1. apply app_inv_head in Et. subst tr2'.
      split; [reflexivity|]. split; [exact Eo|].
      now apply Import_calls in H1 as (_ & Hreset & _).
    + destruct (runs_prefix _ tr1
                  [Ev (abstract_ResetEngine (abstract be) ctx engineUUID) err']
                  tr1' tr2' _ _ H1 H1') as [_ Q].
      { rewrite <- E. exact Et. }
      inversion Q; subst. now elim Hne.
Qed.

End ImportAndResetFacts.

(** ** [OpenedEngine.WriteRows] *)

Section WriteRowsFacts.

Context `{Imports}.

Variables (engine : OpenedEngine) (ctx : context_Context) (columnNames : list string).

Lemma WriteRows_retry_runs (r : Rows) (n : nat) :
  forall err0 tr ex,
    runs (OpenedEngine_WriteRows_retry engine ctx columnNames r n err0) tr ex ->
    exists fails : list error,
      Forall retryable_failure fails /\
      ((exists e,
          tr = map (write_attempt engine ctx columnNames r) (fails ++ [e]) /\ (length fails < n)%nat /\
          ((e = no_error /\ ex = Returned continue_outside) \/
           (e <> no_error /\ common_IsRetryableError e = false /\
            ex = Returned (return_err e))))
       \/
       (tr = map (write_attempt engine ctx columnNames r) fails /\ length fails = n /\
        ex = Returned (loop_done (last fails err0)))).
Proof.
  induction n as [|n IH]; intros err0 tr ex Hr.
  - simpl in Hr. destruct Hr as [-> ->].
    exists []. split; [constructor|]. right. auto.
  - cbn [OpenedEngine_WriteRows_retry] in Hr. simpl bind in Hr.
    destruct Hr as (e & tr1 & -> & Hr).
    destruct e as [ev|].
    + destruct (common_IsRetryableError (Some ev)) eqn:Re.
      * apply IH in Hr as (fails & Hf & Hs).
        exists (Some ev :: fails). split.
        { constructor; [split; [discriminate | exact Re] | exact Hf]. }
        destruct Hs as [(e & -> & Hl & Hs) | (-> & Hl & ->)].
        -- left. exists e. split; [reflexivity|]. split; [simpl; lia | exact Hs].
        -- right. split; [reflexivity|]. split; [simpl; lia|].
           now rewrite last_cons_default.
      * simpl in Hr. destruct Hr as [-> ->].
        exists []. split; [constructor|]. left. exists (Some ev).
        split; [reflexivity|]. split; [simpl; lia|]. right.
        repeat split; [discriminate | exact Re].
    + simpl in Hr. destruct Hr as [-> ->].
      exists []. split; [constructor|]. left. exists None.
      split; [reflexivity|]. split; [simpl; lia|]. left. auto.
Qed.

Lemma WriteRows_chunks_runs (chunks : list Rows) :
  forall err0 tr out,
    runs (OpenedEngine_WriteRows_chunks engine ctx columnNames chunks err0) tr out ->
    exists (groups : list attempts) (later : list Rows),
      chunks = map chunk groups ++ later /\
      tr = flat_map (write_events engine ctx columnNames) groups /\
      Forall attempts_ok groups /\
      WriteRows_result engine groups later out.
Proof.
  induction chunks as [|r chunks IH]; intros err0 tr out Hr.
  - simpl in Hr. destruct Hr as [-> ->].
    exists [], []. split; [reflexivity|]. split; [reflexivity|].
    split; [constructor|]. left. repeat split. constructor.
  - cbn [OpenedEngine_WriteRows_chunks] in Hr. apply runs_bind in Hr.
    change (Z.to_nat maxRetryTimes) with 3%nat in Hr.
    destruct Hr as [(tr1 & ex & tr2 & H1 & H2 & ->) | (msg & H1 & _)].
    2:{ apply WriteRows_retry_runs in H1 as (fails & _ & Hs).
        destruct Hs as [(e & _ & _ & [[_ E] | (_ & _ & E)]) | (_ & _ & E)];
          discriminate. }
    apply WriteRows_retry_runs in H1 as (fails & Hf & Hs).
    destruct Hs as [(e & -> & Hl & [[-> E] | (Hne & Re & E)]) | (-> & Hl & E)];
      inversion E; subst ex; clear E.
    + (* the chunk was written: on to the next one *)
      apply IH in H2 as (groups & later & -> & -> & Hok & Hres).
      set (a := {| chunk := r; retried := fails; settled := no_error |}).
      exists (a :: groups), later. split; [reflexivity|]. split; [reflexivity|].
      split.
      { constructor; [|exact Hok]. split; [exact Hf|].
        simpl. rewrite length_app. simpl. lia. }
      destruct Hres as [(Hw & -> & ->) | (gs & b & -> & Hw & Hne & Hcase)].
      * left. repeat split; auto. constructor; [reflexivity | exact Hw].
      * right. exists (a :: gs), b. repeat split; auto.
        constructor; [reflexivity | exact Hw].
    + (* a permanent failure *)
      simpl in H2. destruct H2 as [-> ->].
      set (a := {| chunk := r; retried := fails; settled := e |}).
      exists [a], chunks. split; [reflexivity|].
      split; [unfold write_events; simpl; now rewrite !app_nil_r|].
      split.
      { constructor; [|constructor]. split; [exact Hf|].
        simpl. rewrite length_app. simpl. lia. }
      right. exists [], a. repeat split; auto.
    + (* three retryable failures *)
      simpl in H2. destruct H2 as [-> ->].
      destruct (exists_last (l := fails)) as (fails' & e & ->).
      { intros ->. discriminate. }
      rewrite last_last.
      apply Forall_app in Hf as [Hf' He]. inversion He as [|? ? [Hne Re] _]; subst.
      set (a := {| chunk := r; retried := fails'; settled := e |}).
      exists [a], chunks. split; [reflexivity|].
      split; [unfold write_events; simpl; now rewrite !app_nil_r|].
      split.
      { constructor; [|constructor]. split; [exact Hf'|]. simpl. lia. }
      right. exists [], a. repeat split; auto.
Qed.

(** C3.  [WriteRows] asks the backend for its maximum chunk size, splits
    the rows with it and then only writes: the chunks of the split are
    written one after the other in split order, each with at most three
    attempts, every attempt but the last on a chunk having failed
    retryably.  As long as the last attempt on a chunk succeeds the next
    chunk follows, and nil is returned after the last chunk.  The first
    chunk whose last attempt fails ends the call: with that error as it is
    when it is not retryable, and with that error annotated with the table
    name and the bound when it is the third retryable failure. *)
Theorem WriteRows_retries_bounded (rows : Rows) (tr : list event) (out : outcome error) :
  runs (OpenedEngine_WriteRows engine ctx columnNames rows) tr out ->
  exists (splitSize : Z) (groups : list attempts) (later : list Rows),
    tr = Ev (abstract_MaxChunkSize (backend (opened engine))) splitSize
           :: flat_map (write_events engine ctx columnNames) groups /\
    Rows_SplitIntoChunks rows splitSize = map chunk groups ++ later /\
    Forall attempts_ok groups /\
    WriteRows_result engine groups later out.
Proof.
  unfold OpenedEngine_WriteRows. simpl bind. intros (splitSize & tr' & -> & Hr).
  apply WriteRows_chunks_runs in Hr as (groups & later & E & -> & Hok & Hres).
  exists splitSize, groups, later. auto.
Qed.

(** C9.  When splitting the rows with the chunk size the backend reported
    gives no chunk, [WriteRows] returns nil and the backend's write is not
    called. *)
Theorem WriteRows_no_chunks (rows : Rows) (tr : list event) (out : outcome error) :
  runs (OpenedEngine_WriteRows engine ctx columnNames rows) tr out ->
  (forall splitSize,
     In (Ev (abstract_MaxChunkSize (backend (opened engine))) splitSize) tr ->
     Rows_SplitIntoChunks rows splitSize = []) ->
  out = Returned no_error /\ existsb is_WriteRows tr = false.
Proof.
  unfold OpenedEngine_WriteRows. simpl bind. intros (splitSize & tr' & -> & Hr) Hsplit.
  rewrite (Hsplit splitSize) in Hr by (left; reflexivity).
  simpl in Hr. destruct Hr as [-> ->]. auto.
Qed.

End WriteRowsFacts.

(** ** Closing without opening *)

Section UnsafeCloseFacts.

Context `{Imports}.

Lemma unsafeClose_runs (en : engine) (ctx : context_Context) tr out :
  runs (engine_unsafeClose en ctx) tr out <->
  exists err,
    tr = [ Ev (Logger_Begin (logger en) InfoLevel "engine close") tt;
           Ev (abstract_CloseEngine (backend en) ctx (uuid en)) err;
           Ev (Task_End {| task_logger := logger en; task_level := InfoLevel;
                           task_name := "engine close" |} ErrorLevel err) tt ] /\
    out = Returned (match err with
                    | Some _ => (None, err)
                    | None => (Some {| closed := en |}, no_error)
                    end).
Proof.
  unfold engine_unsafeClose. simpl. split.
  - intros ([] & tr1 & -> & err & tr2 & -> & [] & tr3 & -> & Hr).
    exists err. destruct err; destruct Hr as [-> ->]; auto.
  - intros (err & -> & ->). exists tt. eexists. split; [reflexivity|].
    exists err. eexists. split; [reflexivity|].
    exists tt. eexists. split; [reflexivity|]. destruct err; simpl; auto.
Qed.

(** C10.  [UnsafeCloseEngine] on a table name and engine number behaves as
    [UnsafeCloseEngineWithUUID] on the tag and identity [MakeUUID] derives
    from them: the two have the same runs.  Such a run makes one backend
    call, the close of the derived identity; it returns a closed engine on
    that identity when the backend answers nil and the backend's error
    otherwise. *)
Theorem UnsafeCloseEngine_as_WithUUID (be : Backend) (ctx : context_Context)
    (tableName : string) (engineID : Z) :
  let tag := fst (MakeUUID tableName engineID) in
  let engineUUID := snd (MakeUUID tableName engineID) in
  (forall tr out,
     runs (Backend_UnsafeCloseEngine be ctx tableName engineID) tr out <->
     runs (Backend_UnsafeCloseEngineWithUUID be ctx tag engineUUID) tr out) /\
  (forall tr out,
     runs (Backend_UnsafeCloseEngineWithUUID be ctx tag engineUUID) tr out ->
     exists err,
       unlogged tr = [Ev (abstract_CloseEngine (abstract be) ctx engineUUID) err] /\
       length (filter is_CloseEngine tr) = 1%nat /\
       out = Returned
               (match err with
                | Some _ => (None, err)
                | None =>
                    (Some {| closed := {| backend := abstract be;
                                          logger := makeLogger tag engineUUID;
                                          uuid := engineUUID |} |},
                     no_error)
                end)).
Proof.
  intros tag engineUUID. split.
  - intros tr out. reflexivity.
  - intros tr out Hr. unfold Backend_UnsafeCloseEngineWithUUID in Hr.
    apply unsafeClose_runs in Hr as (err & -> & ->).
    exists err. repeat split.
Qed.

End UnsafeCloseFacts.

(** ** Binary64 on whole numbers *)

Section Float64Facts.

Lemma iter_pos_nat {A : Type} (f : A -> A) (p : positive) (x : A) :
  iter_pos f p x = Nat.iter (Pos.to_nat p) f x.
Proof.
  revert x. induction p as [p IH | p IH |]; intros x; cbn [iter_pos].
  - rewrite !IH, Pos2Nat.inj_xI, <- Nat.iter_add, <- Nat.iter_succ_r.
    f_equal. lia.
  - rewrite !IH, Pos2Nat.inj_xO, <- Nat.iter_add. f_equal. lia.
  - reflexivity.
Qed.

Lemma Pos_iter_nat {A : Type} (f : A -> A) (p : positive) (x : A) :
  Pos.iter f x p = Nat.iter (Pos.to_nat p) f x.
Proof. apply Pos2Nat.inj_iter. Qed.

Lemma shl_add (p : positive) (n m : nat) : shl (shl p n) m = shl p (m + n).
Proof. unfold shl. now rewrite Nat.iter_add. Qed.

Lemma shl_val (p : positive) (n : nat) : Zpos (shl p n) = Zpos p * 2 ^ Z.of_nat n.
Proof.
  induction n as [|n IH]; [simpl; lia|].
  change (shl p (S n)) with (xO (shl p n)).
  rewrite Pos2Z.inj_xO, IH, Nat2Z.inj_succ, Z.pow_succ_r by lia. lia.
Qed.

Lemma digits_shl (p : positive) (n : nat) :
  Zpos (digits2_pos (shl p n)) = Zpos (digits2_pos p) + Z.of_nat n.
Proof.
  induction n as [|n IH]; [simpl; lia|].
  change (shl p (S n)) with (xO (shl p n)). simpl digits2_pos.
  rewrite Pos2Z.inj_succ, IH. lia.
Qed.

Lemma digits_size (p : positive) : digits2_pos p = Pos.size p.
Proof. induction p; simpl; congruence. Qed.

Lemma digits_bounds (p : positive) :
  2 ^ (Zpos (digits2_pos p) - 1) <= Zpos p < 2 ^ Zpos (digits2_pos p).
Proof.
  rewrite digits_size. split.
  - pose proof (Pos.size_le p) as H.
    apply Pos2Z.pos_le_pos in H. rewrite Pos2Z.inj_pow, Pos2Z.inj_xO in H.
    assert (E : 2 ^ Zpos (Pos.size p) = 2 * 2 ^ (Zpos (Pos.size p) - 1)).
    { rewrite <- Z.pow_succ_r by lia. f_equal. lia. }
    change ((2 * 1) ^ Zpos (Pos.size p)) with (2 ^ Zpos (Pos.size p)) in H.
    rewrite E in H. lia.
  - pose proof (Pos.size_gt p) as H.
    apply Pos2Z.pos_lt_pos in H. rewrite Pos2Z.inj_pow in H. exact H.
Qed.

Lemma digits_le_53 (p : positive) : Zpos p < 2 ^ 53 -> Zpos (digits2_pos p) <= 53.
Proof.
  intros H. pose proof (digits_bounds p) as [L _].
  destruct (Z_le_gt_dec (Zpos (digits2_pos p)) 53) as [|G]; [assumption|].
  exfalso. assert (2 ^ 53 <= 2 ^ (Zpos (digits2_pos p) - 1))
    by (apply Z.pow_le_mono_r; lia). lia.
Qed.

Lemma shr_shl (n : nat) (q : positive) :
  Nat.iter n shr_1 {| shr_m := Zpos (shl q n); shr_r := false; shr_s := false |}
  = {| shr_m := Zpos q; shr_r := false; shr_s := false |}.
Proof.
  induction n as [|n IH]; [reflexivity|].
  rewrite Nat.iter_succ_r. change (shl q (S n)) with (xO (shl q n)). simpl shr_1.
  exact IH.
Qed.

(** A mantissa [p * 2 ^ j] of at least 53 bits with exponent [- j], where
    [p] has at most 53 bits, is rounded without loss. *)
Lemma round_aux_exact (s : bool) (p : positive) (j : nat) :
  let D := Zpos (digits2_pos p) in
  D <= 53 -> 53 <= D + Z.of_nat j ->
  binary_round_aux 53 1024 s (Zpos (shl p j)) (- Z.of_nat j) loc_Exact
  = S754_finite s (shl p (Z.to_nat (53 - D))) (D - 53).
Proof.
  intros D H1 H2. unfold binary_round_aux.
  assert (Hshr : shr_fexp 53 1024 (Zpos (shl p j)) (- Z.of_nat j) loc_Exact
                 = ({| shr_m := Zpos (shl p (Z.to_nat (53 - D)));
                       shr_r := false; shr_s := false |}, D - 53)).
  { unfold shr_fexp, Zdigits2. rewrite digits_shl. fold D.
    replace (D + Z.of_nat j + - Z.of_nat j) with D by lia.
    unfold fexp, emin. replace (Z.max (D - 53) (3 - 1024 - 53)) with (D - 53) by lia.
    simpl shr_record_of_loc. unfold shr.
    destruct (D - 53 - - Z.of_nat j) as [|n|n] eqn:En; try lia.
    - assert (Ej : j = Z.to_nat (53 - D)) by lia.
      rewrite <- Ej. f_equal. lia.
    - rewrite iter_pos_nat.
      replace j with (Pos.to_nat n + Z.to_nat (53 - D))%nat at 1 by lia.
      rewrite <- shl_add, shr_shl. f_equal. lia. }
  rewrite Hshr. cbn [round_nearest_even shr_m loc_of_shr_record].
  assert (Hshr2 : shr_fexp 53 1024 (Zpos (shl p (Z.to_nat (53 - D)))) (D - 53) loc_Exact
                  = ({| shr_m := Zpos (shl p (Z.to_nat (53 - D)));
                        shr_r := false; shr_s := false |}, D - 53)).
  { unfold shr_fexp, Zdigits2. rewrite digits_shl. fold D.
    rewrite Z2Nat.id by lia.
    replace (D + (53 - D) + (D - 53)) with D by lia.
    unfold fexp, emin. replace (Z.max (D - 53) (3 - 1024 - 53)) with (D - 53) by lia.
    rewrite Z.sub_diag. reflexivity. }
  rewrite Hshr2. cbn [shr_m].
  replace (D - 53 <=? 1024 - 53) with true by lia. reflexivity.
Qed.

Lemma round_exact (s : bool) (p : positive) (k : nat) :
  let D := Zpos (digits2_pos p) in
  D <= 53 ->
  binary_round 53 1024 s (shl p k) (- Z.of_nat k)
  = S754_finite s (shl p (Z.to_nat (53 - D))) (D - 53).
Proof.
  intros D H1. unfold binary_round. rewrite digits_shl. fold D.
  replace (D + Z.of_nat k + - Z.of_nat k) with D by lia.
  unfold fexp, emin. replace (Z.max (D - 53) (3 - 1024 - 53)) with (D - 53) by lia.
  unfold shl_align.
  destruct (D - 53 - - Z.of_nat k) as [|n|n] eqn:En.
  - apply round_aux_exact; fold D; lia.
  - apply round_aux_exact; fold D; lia.
  - rewrite Pos_iter_nat. fold (shl (shl p k) (Pos.to_nat n)). rewrite shl_add.
    replace (D - 53) with (- Z.of_nat (Pos.to_nat n + k)) at 1 by lia.
    apply round_aux_exact; fold D; lia.
Qed.

(** Normalising [z * 2 ^ k] with exponent [- k] gives the float64 of [z]. *)
Lemma normalize_scaled (z : Z) (k : nat) :
  Z.abs z < 2 ^ 53 ->
  binary_normalize 53 1024 (z * 2 ^ Z.of_nat k) (- Z.of_nat k) false = canonical z.
Proof.
  intros Hz. destruct z as [|p|p].
  - reflexivity.
  - rewrite <- shl_val. cbn [binary_normalize canonical].
    apply round_exact. apply digits_le_53. simpl in Hz. lia.
  - replace (Zneg p * 2 ^ Z.of_nat k) with (Zneg (shl p k))
      by (rewrite <- Pos2Z.opp_pos, shl_val; lia).
    cbn [binary_normalize canonical].
    apply round_exact. apply digits_le_53. simpl in Hz. lia.
Qed.

Lemma float64_of_int_canonical (z : Z) :
  Z.abs z < 2 ^ 53 -> float64_of_int z = canonical z.
Proof.
  intros Hz. unfold float64_of_int.
  pose proof (normalize_scaled z 0 Hz) as N. simpl in N.
  now rewrite Z.mul_1_r in N.
Qed.

Lemma align_canonical (p : positive) (ez : Z) :
  let D := Zpos (digits2_pos p) in
  D <= 53 -> ez <= D - 53 ->
  fst (shl_align (shl p (Z.to_nat (53 - D))) (D - 53) ez) = shl p (Z.to_nat (- ez)).
Proof.
  intros D H1 H2. unfold shl_align.
  destruct (ez - (D - 53)) as [|d|d] eqn:Ed; try lia; cbn [fst].
  - f_equal. lia.
  - rewrite Pos_iter_nat. fold (shl (shl p (Z.to_nat (53 - D))) (Pos.to_nat d)).
    rewrite shl_add. f_equal. lia.
Qed.

(** On whole numbers below [2 ^ 53] the float64 subtraction is exact. *)
Lemma float64_sub_whole (o c : Z) :
  0 <= o < 2 ^ 53 -> 0 <= c < 2 ^ 53 ->
  float64_sub (float64_of_int o) (float64_of_int c) = float64_of_int (o - c).
Proof.
  intros Ho Hc.
  rewrite !float64_of_int_canonical by lia.
  destruct o as [|po|po], c as [|pc|pc]; try lia; try reflexivity.
  cbn [canonical]. unfold float64_sub, SFsub. cbn [cond_Zopp].
  set (Do := Zpos (digits2_pos po)). set (Dc := Zpos (digits2_pos pc)).
  assert (Do <= 53) by (apply digits_le_53; lia).
  assert (Dc <= 53) by (apply digits_le_53; lia).
  set (ez := Z.min (Do - 53) (Dc - 53)).
  rewrite !align_canonical by (fold Do Dc; lia).
  rewrite !shl_val.
  replace (Zpos po * 2 ^ Z.of_nat (Z.to_nat (- ez)) - Zpos pc * 2 ^ Z.of_nat (Z.to_nat (- ez)))
    with ((Zpos po - Zpos pc) * 2 ^ Z.of_nat (Z.to_nat (- ez))) by lia.
  replace ez with (- Z.of_nat (Z.to_nat (- ez))) at 2 by lia.
  apply normalize_scaled. lia.
Qed.

Lemma compare_shl (pa pb : positive) (n : nat) :
  Pos.compare_cont Eq (shl pa n) (shl pb n) = (Zpos pa ?= Zpos pb).
Proof.
  change (Pos.compare_cont Eq (shl pa n) (shl pb n))
    with (Zpos (shl pa n) ?= Zpos (shl pb n)).
  rewrite !shl_val. symmetry. apply Zmult_compare_compat_r.
  apply Z.lt_gt, Z.pow_pos_nonneg; lia.
Qed.

Lemma compare_canonical_pos (pa pb : positive) :
  let Da := Zpos (digits2_pos pa) in
  let Db := Zpos (digits2_pos pb) in
  match Da - 53 ?= Db - 53 with
  | Lt => Lt
  | Gt => Gt
  | Eq => Pos.compare_cont Eq (shl pa (Z.to_nat (53 - Da))) (shl pb (Z.to_nat (53 - Db)))
  end = (Zpos pa ?= Zpos pb).
Proof.
  intros Da Db.
  pose proof (digits_bounds pa) as [La Ua]. pose proof (digits_bounds pb) as [Lb Ub].
  fold Da in La, Ua. fold Db in Lb, Ub.
  destruct (Da - 53 ?= Db - 53) eqn:C.
  - apply Z.compare_eq in C. assert (E : Da = Db) by lia. rewrite E. apply compare_shl.
  - rewrite Z.compare_lt_iff in C. symmetry. apply Z.compare_lt_iff.
    assert (2 ^ Da <= 2 ^ (Db - 1)) by (apply Z.pow_le_mono_r; lia). lia.
  - rewrite Z.compare_gt_iff in C. symmetry. apply Z.compare_gt_iff.
    assert (2 ^ Db <= 2 ^ (Da - 1)) by (apply Z.pow_le_mono_r; lia). lia.
Qed.

Lemma SFcompare_canonical (a b : Z) :
  SFcompare (canonical a) (canonical b) = Some (a ?= b).
Proof.
  destruct a as [|pa|pa], b as [|pb|pb]; try reflexivity; cbn [canonical SFcompare].
  - f_equal. apply compare_canonical_pos.
  - f_equal. change (Zneg pa ?= Zneg pb) with (CompOpp (Zpos pa ?= Zpos pb)).
    rewrite <- compare_canonical_pos.
    destruct (Zpos (digits2_pos pa) - 53 ?= Zpos (digits2_pos pb) - 53); reflexivity.
Qed.

(** On whole numbers below [2 ^ 53] the float64 comparison is the
    comparison of the numbers. *)
Lemma float64_gt_whole (a b : Z) :
  Z.abs a < 2 ^ 53 -> Z.abs b < 2 ^ 53 ->
  float64_gt (float64_of_int a) (float64_of_int b) = (a >? b).
Proof.
  intros Ha Hb. unfold float64_gt, SFltb.
  rewrite !float64_of_int_canonical by assumption.
  rewrite SFcompare_canonical. rewrite Z.gtb_ltb. unfold Z.ltb. reflexivity.
Qed.

(** *** Numbers of 54 bits and more *)

Lemma shr_1_div2 (mrs : shr_record) :
  0 <= shr_m mrs -> shr_m (shr_1 mrs) = shr_m mrs / 2.
Proof.
  destruct mrs as [m r s]. cbn [shr_m]. intros Hm.
  rewrite <- Z.div2_div.
  destruct m as [|[p|p|]|p]; try reflexivity. lia.
Qed.

Lemma shr_iter_div (n : nat) (mrs : shr_record) :
  0 <= shr_m mrs ->
  shr_m (Nat.iter n shr_1 mrs) = shr_m mrs / 2 ^ Z.of_nat n.
Proof.
  intros Hm. induction n as [|n IH].
  - simpl. now rewrite Z.div_1_r.
  - rewrite Nat2Z.inj_succ, Z.pow_succ_r by lia.
    change (Nat.iter (S n) shr_1 mrs) with (shr_1 (Nat.iter n shr_1 mrs)).
    assert (Hpos : 0 < 2 ^ Z.of_nat n) by (apply Z.pow_pos_nonneg; lia).
    rewrite shr_1_div2 by (rewrite IH; apply Z.div_pos; lia).
    rewrite IH, Z.div_div by lia. f_equal. lia.
Qed.

Lemma digits_unique (p : positive) (D : Z) :
  2 ^ (D - 1) <= Zpos p < 2 ^ D -> 0 < D -> Zpos (digits2_pos p) = D.
Proof.
  intros [L U] HD. pose proof (digits_bounds p) as [L' U'].
  destruct (Z.lt_trichotomy (Zpos (digits2_pos p)) D) as [G | [G | G]]; [|exact G|].
  - assert (2 ^ Zpos (digits2_pos p) <= 2 ^ (D - 1)) by (apply Z.pow_le_mono_r; lia). lia.
  - assert (2 ^ D <= 2 ^ (Zpos (digits2_pos p) - 1)) by (apply Z.pow_le_mono_r; lia). lia.
Qed.

Lemma fexp_normal (e : Z) : -1021 <= e -> fexp 53 1024 e = e - 53.
Proof. intros He. unfold fexp, emin. lia. Qed.

(** The first shift of the rounding brings a number of [D >= 54] bits down
    to 53 bits. *)
Lemma shr_fexp_first (p : positive) :
  let D := Zpos (digits2_pos p) in
  54 <= D ->
  exists mrs,
    shr_fexp 53 1024 (Zpos p) 0 loc_Exact = (mrs, D - 53) /\
    2 ^ 52 <= shr_m mrs < 2 ^ 53.
Proof.
  intros D HD. pose proof (digits_bounds p) as [L U]. fold D in L, U.
  unfold shr_fexp, Zdigits2. fold D.
  rewrite Z.add_0_r, fexp_normal, Z.sub_0_r by lia.
  cbn [shr_record_of_loc]. unfold shr.
  destruct (D - 53) as [|k|k] eqn:Ek; try lia.
  rewrite iter_pos_nat. eexists. split; [reflexivity|].
  rewrite shr_iter_div by (cbn; lia). cbn [shr_m]. rewrite positive_nat_Z.
  assert (Hk : 0 < 2 ^ Zpos k) by (apply Z.pow_pos_nonneg; lia).
  assert (Hpow : 2 ^ D = 2 ^ 53 * 2 ^ Zpos k)
    by (rewrite <- Z.pow_add_r by lia; f_equal; lia).
  assert (Hpow' : 2 ^ (D - 1) = 2 ^ 52 * 2 ^ Zpos k)
    by (rewrite <- Z.pow_add_r by lia; f_equal; lia).
  split.
  - apply Z.div_le_lower_bound; lia.
  - apply Z.div_lt_upper_bound; lia.
Qed.

(** The second shift takes back the bit a carry of the rounding added. *)
Lemma shr_fexp_second (m : Z) (e : Z) :
  2 ^ 52 <= m <= 2 ^ 53 -> 1 <= e ->
  exists mrs e',
    shr_fexp 53 1024 m e loc_Exact = (mrs, e') /\ 0 < shr_m mrs /\ e <= e'.
Proof.
  intros Hm He. destruct m as [|q|q]; try lia.
  unfold shr_fexp, Zdigits2. cbn [shr_record_of_loc].
  destruct (Z.eq_dec (Zpos q) (2 ^ 53)) as [Ecarry | Ecarry].
  - rewrite (digits_unique q 54) by (simpl Z.sub; lia).
    rewrite fexp_normal by lia.
    replace (54 + e - 53 - e) with 1 by lia.
    cbn [shr iter_pos]. eexists _, _. split; [reflexivity|]. split; [|lia].
    rewrite shr_1_div2 by (cbn; lia). cbn [shr_m]. rewrite Ecarry. reflexivity.
  - rewrite (digits_unique q 53) by (simpl Z.sub; lia).
    rewrite fexp_normal by lia.
    replace (53 + e - 53 - e) with 0 by lia.
    cbn [shr]. eexists _, _. split; [reflexivity|]. split; [cbn; lia | lia].
Qed.

Lemma round_large (s : bool) (p : positive) :
  2 ^ 53 <= Zpos p -> large s (binary_round 53 1024 s p 0).
Proof.
  intros Hp.
  pose proof (digits_bounds p) as [L U].
  assert (HD : 54 <= Zpos (digits2_pos p)).
  { destruct (Z_le_gt_dec 54 (Zpos (digits2_pos p))); [assumption|].
    assert (2 ^ Zpos (digits2_pos p) <= 2 ^ 53) by (apply Z.pow_le_mono_r; lia). lia. }
  unfold binary_round. rewrite Z.add_0_r, fexp_normal by lia.
  unfold shl_align.
  destruct (Zpos (digits2_pos p) - 53 - 0) as [|n|n] eqn:En; try lia.
  unfold binary_round_aux.
  destruct (shr_fexp_first p HD) as (mrs & -> & B1).
  set (m2 := round_nearest_even (shr_m mrs) (loc_of_shr_record mrs)).
  assert (B2 : 2 ^ 52 <= m2 <= 2 ^ 53).
  { unfold m2, round_nearest_even.
    destruct (loc_of_shr_record mrs) as [|[| |]]; try destruct (Z.even _); lia. }
  destruct (shr_fexp_second m2 (Zpos (digits2_pos p) - 53) B2) as (mrs2 & e2 & -> & Hpos & He);
    [lia|].
  destruct (shr_m mrs2) as [|m|m]; try lia.
  destruct (e2 <=? 1024 - 53); simpl; [split; [reflexivity | lia] | reflexivity].
Qed.

Lemma float64_of_int_large (N : Z) :
  2 ^ 53 <= Z.abs N -> large (N <? 0) (float64_of_int N).
Proof.
  intros HN. unfold float64_of_int, binary_normalize.
  destruct N as [|p|p]; [simpl in HN; lia | |];
    apply round_large; simpl in HN; lia.
Qed.

(** A float64 of 54 bits and more against that of a number below
    [2 ^ 53]: the sign decides. *)
Lemma SFcompare_large (s : bool) (x : float64) (a : Z) :
  large s x -> Z.abs a < 2 ^ 53 ->
  SFcompare x (canonical a) = Some (if s then Lt else Gt).
Proof.
  intros Hx Ha. destruct x as [s'|s'|  |s' m e]; simpl in Hx; try contradiction.
  - subst s'. destruct a; reflexivity.
  - destruct Hx as [-> He].
    destruct a as [|p|p]; cbn [canonical SFcompare]; try (destruct s; reflexivity).
    + destruct s; [reflexivity|].
      assert (Zpos (digits2_pos p) <= 53) by (apply digits_le_53; simpl in Ha; lia).
      replace (e ?= Zpos (digits2_pos p) - 53) with Gt; [reflexivity|].
      symmetry. apply Z.compare_gt_iff. lia.
    + destruct s; [|reflexivity].
      assert (Zpos (digits2_pos p) <= 53) by (apply digits_le_53; simpl in Ha; lia).
      replace (e ?= Zpos (digits2_pos p) - 53) with Gt; [reflexivity|].
      symmetry. apply Z.compare_gt_iff. lia.
Qed.

(** A whole number below [2 ^ 53] against the float64 of any integer. *)
Lemma float64_gt_int (a N : Z) :
  Z.abs a < 2 ^ 53 ->
  float64_gt (float64_of_int a) (float64_of_int N) = (a >? N).
Proof.
  intros Ha.
  destruct (Z_lt_le_dec (Z.abs N) (2 ^ 53)) as [HN | HN].
  - now apply float64_gt_whole.
  - unfold float64_gt, SFltb.
    rewrite (float64_of_int_canonical a) by assumption.
    rewrite (SFcompare_large (N <? 0) _ a (float64_of_int_large N HN) Ha).
    destruct (N <? 0) eqn:S; lia.
Qed.

End Float64Facts.

(** ** The engine-count guard of [OpenEngine] *)

Section GuardFacts.

Context `{Imports}.

Lemma FailIfEngineCountExceeds_runs (val : failpoint_Value) tr out :
  runs (FailIfEngineCountExceeds val) tr out ->
  exists openCount closedCount,
    tr = [Ev (metric_ReadCounter "open") openCount;
          Ev (metric_ReadCounter "closed") closedCount] /\
    match val with
    | failpoint_int injectValue =>
        (float64_gt (float64_sub openCount closedCount) (float64_of_int injectValue)
         = true /\ exists msg, out = Panicked msg) \/
        (float64_gt (float64_sub openCount closedCount) (float64_of_int injectValue)
         = false /\ out = Returned tt)
    | _ => exists msg, out = Panicked msg
    end.
Proof.
  unfold FailIfEngineCountExceeds. simpl.
  intros (o & tr1 & -> & c & tr2 & -> & Hr).
  exists o, c. destruct val as [n | s | b]; simpl in Hr.
  - destruct (float64_gt (float64_sub o c) (float64_of_int n)) eqn:G;
      simpl in Hr; destruct Hr as [-> ->]; (split; [reflexivity|]).
    + left. split; [reflexivity | eauto].
    + right. split; reflexivity.
  - destruct Hr as [-> ->]. eauto.
  - destruct Hr as [-> ->]. eauto.
Qed.

(** C7.  In a run of [OpenEngine] in which the failpoint is active with the
    ceiling [N], the two counters are read once each, right after the
    failpoint, and the run ends in a panic exactly when the float64
    comparison of the source holds of the two readings.  When the readings
    are the whole numbers [o] and [c] below [2 ^ 53] (the counters count
    calls of [Inc]), that is exactly when [o - c] is greater than [N]; at
    or below [N] an opened engine is returned. *)
Theorem OpenEngine_guard (be : Backend) (ctx : context_Context)
    (tableName : string) (engineID : Z) (N : Z)
    (tr : list event) (out : outcome (option OpenedEngine * error)) :
  runs (Backend_OpenEngine be ctx tableName engineID) tr out ->
  In (Ev (failpoint_Inject "FailIfEngineCountExceeds") (Some (failpoint_int N))) tr ->
  exists openCount closedCount before after,
    tr = before ++ [Ev (failpoint_Inject "FailIfEngineCountExceeds")
                       (Some (failpoint_int N));
                    Ev (metric_ReadCounter "open") openCount;
                    Ev (metric_ReadCounter "closed") closedCount] ++ after /\
    ((exists msg, out = Panicked msg) <->
     float64_gt (float64_sub openCount closedCount) (float64_of_int N) = true) /\
    (forall o c,
       whole_reading openCount o -> whole_reading closedCount c ->
       ((exists msg, out = Panicked msg) <-> o - c > N) /\
       ((exists engine, out = Returned (Some engine, no_error)) <-> o - c <= N)).
Proof.
  unfold Backend_OpenEngine. simpl.
  intros (err & tr1 & -> & Hr) Hin.
  destruct err as [e|]; simpl in Hr.
  { destruct Hr as [-> ->]. exfalso.
    destruct Hin as [Hin | []]. apply (f_equal ev_call) in Hin. discriminate. }
  destruct Hr as ([] & tr2 & -> & [] & tr3 & -> & val & tr4 & -> & Hr).
  apply runs_bind in Hr.
  assert (Hval : val = Some (failpoint_int N)).
  { assert (Hhere : forall rest,
              In (Ev (failpoint_Inject "FailIfEngineCountExceeds")
                     (Some (failpoint_int N)))
                 (Ev (failpoint_Inject "FailIfEngineCountExceeds") val :: rest) ->
              (forall e, In e rest ->
                 match ev_call e with
                 | metric_ReadCounter _ | time_Now_Unix => True
                 | _ => False
                 end) ->
              val = Some (failpoint_int N)).
    { intros rest [Hi | Hi] Hrest.
      - apply Ev_inj in Hi. now symmetry.
      - specialize (Hrest _ Hi). simpl in Hrest. contradiction. }
    simpl in Hin. destruct Hin as [Hin | [Hin | [Hin | Hin]]];
      try (apply (f_equal ev_call) in Hin; discriminate).
    apply (Hhere tr4 Hin).
    destruct Hr as [(t1 & [] & t2 & H1 & H2 & ->) | (msg & H1 & _)].
    - simpl in H2. destruct H2 as (now' & t3 & -> & -> & _).
      destruct val as [v|].
      + apply FailIfEngineCountExceeds_runs in H1 as (o & c & -> & _).
        intros e [<- | [<- | [<- | []]]]; exact I.
      + simpl in H1. destruct H1 as [-> _].
        intros e [<- | []]; exact I.
    - destruct val as [v|]; [| simpl in H1; destruct H1 as [_ ?]; discriminate].
      apply FailIfEngineCountExceeds_runs in H1 as (o & c & -> & _).
      intros e [<- | [<- | []]]; exact I. }
  subst val.
  assert (Hwhole : forall (x y : float64) o c,
            whole_reading x o -> whole_reading y c ->
            float64_gt (float64_sub x y) (float64_of_int N) = (o - c >? N)).
  { intros x y o c [Ho ->] [Hc ->].
    rewrite float64_sub_whole by assumption. apply float64_gt_int; lia. }
  destruct Hr as [(t1 & [] & t2 & H1 & H2 & ->) | (msg & H1 & ->)].
  - apply FailIfEngineCountExceeds_runs in H1 as (o & c & -> & Hg).
    simpl in H2. destruct H2 as (now' & t3 & -> & -> & ->).
    destruct Hg as [(_ & msg & Hp) | (Hle & _)]; [discriminate|].
    exists o, c.
    eexists [_; _; _], [_]. split; [reflexivity|]. split.
    + split; [intros (msg & E); discriminate | congruence].
    + intros o' c' Ho Hc. rewrite (Hwhole _ _ _ _ Ho Hc) in Hle. split.
      * split; [intros (msg & E); discriminate | lia].
      * split; [intros _; lia | eauto].
  - apply FailIfEngineCountExceeds_runs in H1 as (o & c & -> & Hg).
    destruct Hg as [(Hgt & _) | (_ & Hp)]; [|discriminate].
    exists o, c.
    eexists [_; _; _], []. split; [reflexivity|]. split.
    + split; [intros _; exact Hgt | eauto].
    + intros o' c' Ho Hc. rewrite (Hwhole _ _ _ _ Ho Hc) in Hgt. split.
      * split; [intros _; lia | eauto].
      * split; [intros (en & E); discriminate | lia].
Qed.

End GuardFacts.

(** ** [Backend.CheckDiskQuota] *)

Section QuotaFacts.

Context `{Imports}.

Lemma wrap64_small (z : Z) : in_int64 z -> wrap64 z = z.
Proof.
  unfold in_int64, wrap64. intros Hz.
  rewrite Z.mod_small; lia.
Qed.

Lemma add64_wrap64 (a b : Z) : add64 (wrap64 a) b = wrap64 (a + b).
Proof.
  unfold add64, wrap64.
  replace ((a + 2 ^ 63) mod 2 ^ 64 - 2 ^ 63 + b + 2 ^ 63)
    with ((a + 2 ^ 63) mod 2 ^ 64 + b) by lia.
  rewrite Zplus_mod_idemp_l. f_equal. f_equal. lia.
Qed.

Lemma less_strict_weak_order : strict_weak_order less.
Proof.
  split.
  - intros a b. unfold less.
    destruct (IsImporting a), (IsImporting b); simpl; try congruence; lia.
  - intros a b c. unfold less.
    destruct (IsImporting a), (IsImporting b), (IsImporting c); simpl;
      try congruence; lia.
Qed.

(** The loop, started in the middle. *)
Lemma CheckDiskQuota_loop (quota : Z) (l : list EngineFileSize) :
  forall largeEngines inProgress total,
    fold_left (CheckDiskQuota_step quota) l (largeEngines, inProgress, wrap64 total) =
    (largeEngines ++
       map UUID (filter (fun r => negb (IsImporting r))
                   (excess_from (wrap64 total) quota l)),
     inProgress +
       Z.of_nat (length (filter IsImporting (excess_from (wrap64 total) quota l))),
     wrap64 (total + sum_sizes l)).
Proof.
  unfold excess_from.
  induction l as [|r l IH]; intros le ip total.
  - simpl. rewrite app_nil_r. repeat first [lia | reflexivity | progress f_equal].
  - change (sum_sizes (r :: l)) with (Size r + sum_sizes l).
    cbn [fold_left CheckDiskQuota_step running filter map fst snd].
    rewrite add64_wrap64.
    destruct (wrap64 (total + Size r) >? quota) eqn:G.
    + destruct (IsImporting r) eqn:I; rewrite IH;
        cbn [filter map fst snd negb length app]; rewrite I; cbn [negb length map].
      * rewrite Nat2Z.inj_succ. repeat first [lia | reflexivity | progress f_equal].
      * rewrite <- app_assoc. cbn [app].
        repeat first [lia | reflexivity | progress f_equal].
    + rewrite IH. repeat first [lia | reflexivity | progress f_equal].
Qed.

Lemma CheckDiskQuota_runs (be : Backend) (quota : Z) sizes out :
  runs (Backend_CheckDiskQuota be quota)
       [Ev (abstract_EngineFileSizes (abstract be)) sizes] out <->
  out = Returned (quota_verdict quota (sort_Slice sizes less)).
Proof.
  unfold Backend_CheckDiskQuota, quota_verdict, excess. simpl.
  pose proof (CheckDiskQuota_loop quota (sort_Slice sizes less) [] 0 0) as L.
  change (wrap64 0) with 0 in L. simpl in L. rewrite <- L.
  split.
  - intros (x & tr' & E & [_ ->]).
    assert (Ex : Ev (abstract_EngineFileSizes (abstract be)) sizes
                 = Ev (abstract_EngineFileSizes (abstract be)) x) by congruence.
    apply Ev_inj in Ex. now subst x.
  - intros ->. exists sizes, []. auto.
Qed.

(** Sorted by the comparison of the source means: importing first, and
    ascending by size within the importing and within the idle records. *)
Lemma ordered_importing_first (l : list EngineFileSize) :
  ordered_by less l -> importing_first l.
Proof.
  unfold ordered_by, importing_first, ascending.
  induction 1 as [|r l Hs IH Hr].
  - exists [], []. repeat split; constructor.
  - destruct IH as (imp & idle & -> & Himp & Hidle & Aimp & Aidle).
    apply Forall_app in Hr as [Hr1 Hr2].
    destruct (IsImporting r) eqn:I.
    + exists (r :: imp), idle. repeat split; auto.
      constructor; auto.
      rewrite Forall_forall in *. intros b Hb.
      specialize (Hr1 b Hb). specialize (Himp b Hb). unfold less in Hr1.
      rewrite Himp, I in Hr1. simpl in Hr1. lia.
    + destruct imp as [|b imp].
      * exists [], (r :: idle). repeat split; auto.
        constructor; auto.
        rewrite Forall_forall in *. intros b Hb.
        specialize (Hr2 b Hb). specialize (Hidle b Hb). unfold less in Hr2.
        rewrite Hidle, I in Hr2. simpl in Hr2. lia.
      * exfalso. inversion Hr1 as [|? ? Hb _]; subst.
        inversion Himp as [|? ? Ib _]; subst.
        unfold less in Hb. rewrite Ib, I in Hb. discriminate.
Qed.

(** With the importing records last, whatever follows an importing record
    is importing. *)
Lemma importing_last_head (a : EngineFileSize) (l : list EngineFileSize) :
  importing_last (a :: l) -> IsImporting a = true ->
  Forall (fun r => IsImporting r = true) l.
Proof.
  intros (idle & imp & E & Hidle & Himp & _) Ia.
  destruct idle as [|r idle]; simpl in E.
  - subst imp. now inversion Himp.
  - inversion E; subst. inversion Hidle; subst. congruence.
Qed.

Lemma importing_last_tail (a : EngineFileSize) (l : list EngineFileSize) :
  importing_last (a :: l) -> importing_last l.
Proof.
  intros (idle & imp & E & Hidle & Himp & Aidle & Aimp).
  destruct idle as [|r idle]; simpl in E.
  - subst imp. exists [], l. inversion Himp; subst. inversion Aimp; subst.
    repeat split; auto; constructor.
  - inversion E; subst. exists idle, imp.
    inversion Hidle; subst. inversion Aidle; subst. repeat split; auto.
Qed.

Lemma sum_sizes_app (l1 l2 : list EngineFileSize) :
  sum_sizes (l1 ++ l2) = sum_sizes l1 + sum_sizes l2.
Proof. induction l1; simpl; lia. Qed.

Lemma sum_sizes_perm (l1 l2 : list EngineFileSize) :
  Permutation l1 l2 -> sum_sizes l1 = sum_sizes l2.
Proof. induction 1; simpl; lia. Qed.

Lemma sum_sizes_nonneg (l : list EngineFileSize) :
  Forall (fun r => 0 <= Size r) l -> 0 <= sum_sizes l.
Proof. induction 1; simpl; lia. Qed.

(** Above the quota once, above it for good, when sizes are not negative
    and nothing overflows. *)
Lemma excess_all (quota : Z) (l : list EngineFileSize) :
  forall total,
    Forall (fun r => 0 <= Size r) l ->
    quota < total -> 0 <= total -> total + sum_sizes l < 2 ^ 63 ->
    excess_from total quota l = l.
Proof.
  unfold excess_from.
  induction l as [|r l IH]; intros total Hpos Hq H0 Hsum; [reflexivity|].
  inversion Hpos as [|? ? Hr Hl]; subst. simpl in *.
  pose proof (sum_sizes_nonneg l Hl).
  unfold add64. rewrite wrap64_small by (unfold in_int64; lia).
  replace (total + Size r >? quota) with true by lia. simpl. f_equal.
  apply IH; auto; lia.
Qed.

Lemma excess_suffix (quota : Z) (l : list EngineFileSize) :
  forall total,
    Forall (fun r => 0 <= Size r) l ->
    0 <= total -> total + sum_sizes l < 2 ^ 63 ->
    exists kept over,
      l = kept ++ over /\ excess_from total quota l = over /\
      (kept <> [] -> total + sum_sizes kept <= quota) /\
      (forall r over', over = r :: over' -> quota < total + sum_sizes kept + Size r).
Proof.
  induction l as [|r l IH]; intros total Hpos H0 Hsum.
  - exists [], []. repeat split; auto; try discriminate. congruence.
  - inversion Hpos as [|? ? Hr Hl]; subst. simpl in Hsum.
    pose proof (sum_sizes_nonneg l Hl).
    destruct (Z_lt_le_dec quota (total + Size r)) as [G | G].
    + exists [], (r :: l). split; [reflexivity|]. split.
      * pose proof (excess_all quota l (total + Size r) Hl G) as Hall.
        unfold excess_from in *. simpl.
        unfold add64. rewrite wrap64_small by (unfold in_int64; lia).
        replace (total + Size r >? quota) with true by lia. simpl.
        f_equal. apply Hall; lia.
      * split; [congruence|]. intros r' over' E. inversion E; subst. simpl. lia.
    + destruct (IH (total + Size r) Hl) as (kept & over & -> & He & Hk & Ho); try lia.
      exists (r :: kept), over. split; [reflexivity|]. split.
      * unfold excess_from in *. simpl.
        unfold add64. rewrite wrap64_small by (unfold in_int64; lia).
        replace (total + Size r >? quota) with false by lia. exact He.
      * split.
        -- intros _. simpl. destruct kept as [|k kept].
           ++ simpl. lia.
           ++ assert (Q : k :: kept <> []) by discriminate. specialize (Hk Q). lia.
        -- intros r' over' E. specialize (Ho r' over' E). simpl. lia.
Qed.

End QuotaFacts.

Section QuotaTheorems.

Context `{Imports}.

(** C1.  Once [sort.Slice] has sorted the records, [CheckDiskQuota] walks the
    reported records in an order that is a permutation of them with the
    importing records first (not last) and each of the two groups
    ascending by size.  A record is excess when the running [int64] total
    including it is above the quota; the idle excess records are returned
    in walking order, the importing ones are only counted, and the total is
    the wrapped sum.  When no size is negative and the sum fits, the excess
    records are exactly the records from the first one that takes the total
    above the quota onwards. *)
Theorem CheckDiskQuota_order_and_excess (be : Backend) (quota : Z)
    (sizes : list EngineFileSize) (out : outcome (list uuid_UUID * Z * Z)) :
  sort_Slice_sorts sizes less ->
  runs (Backend_CheckDiskQuota be quota)
       [Ev (abstract_EngineFileSizes (abstract be)) sizes] out ->
  exists order,
    Permutation order sizes /\
    importing_first order /\
    out = Returned (quota_verdict quota order) /\
    (Forall (fun r => 0 <= Size r) sizes -> sum_sizes sizes < 2 ^ 63 ->
     exists kept over,
       order = kept ++ over /\ excess quota order = over /\
       (kept <> [] -> sum_sizes kept <= quota) /\
       (forall r over', over = r :: over' -> quota < sum_sizes kept + Size r)).
Proof.
  intros [Hperm Hord] Hr. apply CheckDiskQuota_runs in Hr.
  specialize (Hord less_strict_weak_order).
  exists (sort_Slice sizes less). split; [exact Hperm|].
  split; [now apply ordered_importing_first|]. split; [exact Hr|].
  intros Hpos Hsum.
  destruct (excess_suffix quota (sort_Slice sizes less) 0) as (kept & over & E & He & Hk & Ho).
  - eapply Permutation_Forall; [apply Permutation_sym; exact Hperm | exact Hpos].
  - lia.
  - rewrite (sum_sizes_perm _ _ Hperm). lia.
  - exists kept, over. repeat split; auto.
Qed.

Lemma Permutation_three {A : Type} (a b c : A) (l : list A) :
  Permutation l [a; b; c] ->
  l = [a; b; c] \/ l = [a; c; b] \/ l = [b; a; c] \/
  l = [b; c; a] \/ l = [c; a; b] \/ l = [c; b; a].
Proof.
  intros P.
  destruct l as [|x [|y [|z [|w l]]]];
    try (apply Permutation_length in P; discriminate).
  assert (Hx : In a [x; y; z]) by (eapply Permutation_in; [apply Permutation_sym; exact P | now left]).
  simpl in Hx. destruct Hx as [-> | [-> | [-> | []]]].
  - apply Permutation_cons_inv in P.
    apply Permutation_sym, Permutation_length_2_inv in P as [E | E];
      inversion E; subst; auto.
  - assert (P' : Permutation (a :: [x; z]) (a :: [b; c])).
    { etransitivity; [|exact P]. apply perm_swap. }
    apply Permutation_cons_inv in P'.
    apply Permutation_sym, Permutation_length_2_inv in P' as [E | E];
      inversion E; subst; auto 10.
  - assert (P' : Permutation (a :: [x; y]) (a :: [b; c])).
    { etransitivity; [|exact P].
      change [x; y; a] with ([x; y] ++ [a]).
      apply Permutation_cons_append. }
    apply Permutation_cons_inv in P'.
    apply Permutation_sym, Permutation_length_2_inv in P' as [E | E];
      inversion E; subst; auto 10.
Qed.

(** C2.  When the backend reports A (10, idle), B (30, idle) and C (5,
    importing) and the quota is 20, the records are walked as C, A, B, the
    running totals are 5, 15 and 45, and the result is the candidate list
    [B], no importing excess engine, and the total 45. *)
Theorem CheckDiskQuota_example (be : Backend) (A B C : uuid_UUID)
    (out : outcome (list uuid_UUID * Z * Z)) :
  let sizes := [ {| UUID := A; Size := 10; IsImporting := false |};
                 {| UUID := B; Size := 30; IsImporting := false |};
                 {| UUID := C; Size := 5; IsImporting := true |} ] in
  sort_Slice_sorts sizes less ->
  runs (Backend_CheckDiskQuota be 20)
       [Ev (abstract_EngineFileSizes (abstract be)) sizes] out ->
  out = Returned ([B], 0, 45).
Proof.
  intros sizes [Hperm Hord] Hr. apply CheckDiskQuota_runs in Hr. subst out.
  specialize (Hord less_strict_weak_order).
  apply Permutation_three in Hperm.
  destruct Hperm as [E | [E | [E | [E | [E | E]]]]]; rewrite E in *; clear E;
    try reflexivity;
    exfalso; unfold ordered_by in Hord;
    repeat match goal with
           | Hs : StronglySorted _ (_ :: _) |- _ => inversion Hs; subst; clear Hs
           | Hf : Forall _ (_ :: _) |- _ => inversion Hf; subst; clear Hf
           end;
    unfold less in *; simpl in *; discriminate.
Qed.

End QuotaTheorems.

(** ** The in-memory environment: facts and concrete runs *)

Module double_facts.

Import double.
#[local] Existing Instance imports.

Lemma sink_perm {A : Type} (less : A -> A -> bool) (x : A) (before : list A) :
  Permutation (sink less x before) (x :: before).
Proof.
  induction before as [|y before IH]; simpl; [constructor; constructor|].
  destruct (less x y); [|reflexivity].
  etransitivity; [apply perm_skip, IH | apply perm_swap].
Qed.

Lemma sink_all_perm {A : Type} (less : A -> A -> bool) (l : list A) :
  forall before,
    Permutation (fold_left (fun before x => sink less x before) l before)
                (l ++ before).
Proof.
  induction l as [|x l IH]; intros before; simpl; [reflexivity|].
  etransitivity; [apply IH|].
  etransitivity; [apply Permutation_app_head, sink_perm|].
  symmetry. apply Permutation_middle.
Qed.

Lemma sink_descending {A : Type} (less : A -> A -> bool) (x : A) (before : list A) :
  strict_weak_order less ->
  descending less before -> descending less (sink less x before).
Proof.
  intros [Hasym Htrans]. unfold descending.
  induction 1 as [|y before Hs IH Hy]; simpl.
  - constructor; constructor.
  - destruct (less x y) eqn:L.
    + constructor; [exact IH|].
      eapply Permutation_Forall; [symmetry; apply sink_perm|].
      constructor; [now apply Hasym | exact Hy].
    + constructor; [constructor; assumption|].
      constructor; [exact L|].
      rewrite Forall_forall in *. intros z Hz. eapply Htrans; eauto.
Qed.

Lemma sink_all_descending {A : Type} (less : A -> A -> bool) (l : list A) :
  strict_weak_order less ->
  forall before,
    descending less before ->
    descending less (fold_left (fun before x => sink less x before) l before).
Proof.
  intros Hswo. induction l as [|x l IH]; intros before Hd; simpl; auto.
  apply IH. now apply sink_descending.
Qed.

Lemma descending_rev {A : Type} (less : A -> A -> bool) (l : list A) :
  descending less l -> ordered_by less (rev l).
Proof.
  unfold descending, ordered_by.
  induction 1 as [|a l Hs IH Ha]; simpl; [constructor|].
  assert (G : forall l1, StronglySorted (fun a0 b => less b a0 = false) l1 ->
              Forall (fun z => less a z = false) l1 ->
              StronglySorted (fun a0 b => less b a0 = false) (l1 ++ [a])).
  { clear. induction 1 as [|b l1 Hs IH Hb]; intros Hf; simpl.
    - constructor; constructor.
    - inversion Hf; subst. constructor; [auto|].
      apply Forall_app. split; [exact Hb | constructor; auto]. }
  apply G; [exact IH|].
  apply Forall_rev. exact Ha.
Qed.

(** The insertion sort keeps what [sort.Slice] promises. *)
Lemma insertionSort_contract : sort_Slice_contract.
Proof.
  intros A l less. simpl. unfold insertionSort. split.
  - etransitivity; [symmetry; apply Permutation_rev|].
    etransitivity; [apply sink_all_perm|]. now rewrite app_nil_r.
  - intros Hswo. apply descending_rev.
    apply sink_all_descending; [exact Hswo | constructor].
Qed.

(** C1 on two inputs.  At the records of the worked example the code
    walks C, A, B: the importing record is not after the idle ones, and the
    result, with no importing excess engine, is not the result of walking
    the records in any order that has the importing ones last.  And with a
    negative size the total falls back under the quota, so that the record
    after the first excess one is not excess. *)
Lemma CheckDiskQuota_importing_not_last :
  (sort_Slice sizes_ABC less = [size_C; size_A; size_B] /\
   ~ importing_last (sort_Slice sizes_ABC less) /\
   runs (Backend_CheckDiskQuota be 20)
        [Ev (abstract_EngineFileSizes (abstract be)) sizes_ABC]
        (Returned (["B"%string], 0, 45)) /\
   ~ CheckDiskQuota_as_described sizes_ABC 20 (Returned (["B"%string], 0, 45))) /\
  (sort_Slice sizes_dip less = sizes_dip /\
   map snd (running 0 sizes_dip) = [30; 10] /\
   excess 20 sizes_dip = [ {| UUID := "D"%string; Size := 30; IsImporting := true |} ]).
Proof.
  split; [| repeat split].
  split; [reflexivity|]. split; [| split].
  - change (sort_Slice sizes_ABC less) with [size_C; size_A; size_B].
    intros L. apply importing_last_head in L; [|reflexivity].
    inversion L as [|? ? HA _]. discriminate.
  - apply CheckDiskQuota_runs. reflexivity.
  - intros (order & P & L & E).
    apply Permutation_three in P.
    destruct P as [-> | [-> | [-> | [-> | [-> | ->]]]]];
      try (vm_compute in E; discriminate E).
    + (* A, C, B *)
      apply importing_last_tail, importing_last_head in L; [|reflexivity].
      inversion L as [|? ? HB _]. discriminate.
    + (* C, A, B *)
      apply importing_last_head in L; [|reflexivity].
      inversion L as [|? ? HA _]. discriminate.
Qed.

(** C2, as stated: the run returns no importing excess engine, not one. *)
Lemma CheckDiskQuota_example_not_one :
  runs (Backend_CheckDiskQuota be 20)
       [Ev (abstract_EngineFileSizes (abstract be)) sizes_ABC]
       (Returned (["B"%string], 0, 45)) /\
  ~ runs (Backend_CheckDiskQuota be 20)
       [Ev (abstract_EngineFileSizes (abstract be)) sizes_ABC]
       (Returned (["B"%string], 1, 45)).
Proof.
  split.
  - apply CheckDiskQuota_runs. reflexivity.
  - intros Hr. apply CheckDiskQuota_runs in Hr. discriminate.
Qed.

(** In the double, importing, resetting, waiting and logging leave an
    open engine open. *)
Lemma find_other (u v : string) (fs : list file) :
  String.eqb v u = false ->
  find (fun g => String.eqb (name g) u)
       (filter (fun g => negb (String.eqb (name g) v)) fs)
  = find (fun g => String.eqb (name g) u) fs.
Proof.
  intros Hne.
  induction fs as [|g fs IH]; simpl; [reflexivity|].
  destruct (String.eqb (name g) v) eqn:Ev; simpl.
  - apply String.eqb_eq in Ev. rewrite Ev, Hne. exact IH.
  - destruct (String.eqb (name g) u); [reflexivity | exact IH].
Qed.

Lemma fallible_keeps (P : world -> Prop) (op : world -> error * world) :
  (forall s w, P w -> P (with_script s w)) ->
  (forall w, P w -> P (snd (op w))) ->
  forall w, P w -> P (snd (fallible op w)).
Proof.
  intros Hs Hop w Pw. unfold fallible.
  destruct (script w) as [|[e|] s]; simpl; auto.
Qed.

Lemma serve_keeps_writable (u : string) (c : call) (w : world) :
  import_and_reset_call c = true ->
  writable u w -> writable u (snd (serve c w)).
Proof.
  destruct c; simpl; try discriminate; intros _; auto.
  - (* ImportEngine *)
    apply fallible_keeps; [intros s w0 Hw; exact Hw|].
    intros w0 Hw. unfold do_import.
    destruct (find_engine engineUUID w0); exact Hw.
  - (* ResetEngine *)
    apply fallible_keeps; [intros s w0 Hw; exact Hw|].
    intros w0 (f & Hf & Ho). unfold do_reset.
    destruct (find_engine engineUUID w0) as [g|] eqn:Eg; [|exists f; auto].
    unfold writable, find_engine, put_engine in *. simpl.
    destruct (String.eqb engineUUID u) eqn:Eu.
    + apply String.eqb_eq in Eu. subst engineUUID.
      rewrite Hf in Eg. inversion Eg; subst g.
      eexists. split; [reflexivity | exact Ho].
    + exists f. split; [|exact Ho]. rewrite <- Hf.
      apply find_other; auto.
Qed.

(** *** Concrete runs

    Each theorem above that has a premise is applied to a run of the
    double, which shows its premises can be met. *)

(** One transient failure of the first write: the write is repeated, the
    call succeeds, and the engine holds every row once, in order. *)
Lemma write_run_delivers_once :
  fst (fst write_run) = Returned no_error /\
  map content (engines (snd (fst write_run)))
  = [["r1"; "r2"; "aaaa"; "bbbb"; "cc"]]%string /\
  map answer_of (snd write_run)
  = [ans_Z 8; ans_error (Some (transient "busy")); ans_error None; ans_error None].
Proof. repeat split. Qed.

(** One transient failure of the import: one sleep of the declared delay,
    then the rows reach the target. *)
Lemma import_run_retries_once :
  fst (fst import_run) = Returned no_error /\
  slept (snd (fst import_run)) = 1000 /\
  imported (snd (fst import_run)) = ["r1"; "r2"]%string.
Proof. repeat split. Qed.

(** A permanent failure of the import is returned as it is, without a
    sleep and without a reset. *)
Lemma import_and_reset_failing_run_stops :
  fst (fst import_and_reset_failing_run) = Returned (Some (permanent "disk full")) /\
  slept (snd (fst import_and_reset_failing_run)) = 0 /\
  map content (engines (snd (fst import_and_reset_failing_run)))
  = [["r1"; "r2"]]%string.
Proof. repeat split. Qed.

(** The quota evaluation of the worked example, as the double runs it. *)
Lemma CheckDiskQuota_order_and_excess_witness :
  sort_Slice_sorts sizes_ABC less /\
  runs (Backend_CheckDiskQuota be 20)
       [Ev (abstract_EngineFileSizes (abstract be)) sizes_ABC]
       (fst (fst quota_run)) /\
  exists order,
    Permutation order sizes_ABC /\ importing_first order /\
    fst (fst quota_run) = Returned (quota_verdict 20 order) /\
    (Forall (fun r => 0 <= Size r) sizes_ABC -> sum_sizes sizes_ABC < 2 ^ 63 ->
     exists kept over,
       order = kept ++ over /\ excess 20 order = over /\
       (kept <> [] -> sum_sizes kept <= 20) /\
       (forall r over', over = r :: over' -> 20 < sum_sizes kept + Size r)).
Proof.
  split; [exact (insertionSort_contract _ sizes_ABC less)|].
  split; [exact (exec_runs serve (Backend_CheckDiskQuota be 20) (reporting sizes_ABC))|].
  exact (CheckDiskQuota_order_and_excess be 20 sizes_ABC (fst (fst quota_run))
           (insertionSort_contract _ sizes_ABC less)
           (exec_runs serve (Backend_CheckDiskQuota be 20) (reporting sizes_ABC))).
Defined.

(** The worked example on the double, with the insertion sort. *)
Lemma CheckDiskQuota_example_witness :
  sort_Slice_sorts sizes_ABC less /\
  runs (Backend_CheckDiskQuota be 20)
       [Ev (abstract_EngineFileSizes (abstract be)) sizes_ABC]
       (fst (fst quota_run)) /\
  fst (fst quota_run) = Returned (["B"%string], 0, 45).
Proof.
  split; [exact (insertionSort_contract _ sizes_ABC less)|].
  split; [exact (exec_runs serve (Backend_CheckDiskQuota be 20) (reporting sizes_ABC))|].
  exact (CheckDiskQuota_example be "A"%string "B"%string "C"%string (fst (fst quota_run))
           (insertionSort_contract _ sizes_ABC less)
           (exec_runs serve (Backend_CheckDiskQuota be 20) (reporting sizes_ABC))).
Defined.

(** Engines 0 and 1 of one table: different tags, and identities that can
    only agree on a collision. *)
Lemma MakeUUID_deterministic_injective_witness :
  MakeUUID "t" 0 <> MakeUUID "t" 1 /\
  (snd (MakeUUID "t" 0) = snd (MakeUUID "t" 1) ->
   ("t"%string = "t"%string /\ 0 = 1) \/ hash_collision (makeTag "t" 0) (makeTag "t" 1)).
Proof.
  split.
  - intros E.
    pose proof (proj1 (proj2 (MakeUUID_deterministic_injective "t" "t" 0 1))
                  (f_equal fst E)) as [_ Q].
    discriminate Q.
  - exact (proj2 (proj2 (MakeUUID_deterministic_injective "t" "t" 0 1))).
Defined.

(** The import that succeeds at its second attempt. *)
Lemma Import_retries_bounded_witness :
  runs (ClosedEngine_Import closed_A tt) (snd import_run) (fst (fst import_run)) /\
  common_IsRetryableError no_error = false /\
  In (import_attempt closed_A tt no_error) (snd import_run) /\
  (length (filter is_ImportEngine (snd import_run)) <= 3)%nat /\
  fst (fst import_run) = Returned no_error /\
  exists before, unlogged (snd import_run) = before ++ [import_attempt closed_A tt no_error].
Proof.
  pose (Hr := exec_runs serve (ClosedEngine_Import closed_A tt)
                (with_A [Some (transient "connection reset"); None])).
  pose (Hin := ltac:(vm_compute; auto 10)
               : In (import_attempt closed_A tt no_error) (snd import_run)).
  pose (T := Import_retries_bounded closed_A tt (snd import_run) (fst (fst import_run)) Hr).
  split; [exact Hr|]. split; [reflexivity|]. split; [exact Hin|].
  split; [exact (proj1 T)|].
  exact (proj2 (proj2 T) no_error eq_refl Hin).
Defined.

(** Import and reset of the open engine A: no close, and A still accepts
    writes afterwards. *)
Lemma UnsafeImportAndReset_never_closes_witness :
  runs (Backend_UnsafeImportAndReset be tt "A"%string)
       (snd import_and_reset_run) (fst (fst import_and_reset_run)) /\
  writable "A" (with_A []) /\
  existsb is_CloseEngine (snd import_and_reset_run) = false /\
  writable "A" (snd (fst import_and_reset_run)).
Proof.
  pose (Hr := exec_runs serve (Backend_UnsafeImportAndReset be tt "A"%string) (with_A [])).
  pose (T := UnsafeImportAndReset_never_closes be tt "A"%string
               (snd import_and_reset_run) (fst (fst import_and_reset_run)) Hr).
  assert (Hw : writable "A" (with_A [])) by (eexists; split; reflexivity).
  split; [exact Hr|]. split; [exact Hw|]. split; [exact (proj1 T)|].
  exact (proj2 (proj2 (proj2 T)) world serve (writable "A")
           (serve_keeps_writable "A") (with_A []) Hw).
Defined.

(** Import and reset when the import fails for good. *)
Lemma UnsafeImportAndReset_import_error_witness :
  runs (Backend_UnsafeImportAndReset be tt "A"%string)
       (snd import_and_reset_failing_run) (fst (fst import_and_reset_failing_run)) /\
  runs (ClosedEngine_Import (import_and_reset_engine be "A"%string) tt)
       (snd import_and_reset_failing_run) (Returned (Some (permanent "disk full"))) /\
  fst (fst import_and_reset_failing_run) = Returned (Some (permanent "disk full")) /\
  existsb is_ResetEngine (snd import_and_reset_failing_run) = false.
Proof.
  pose (Hr := exec_runs serve (Backend_UnsafeImportAndReset be tt "A"%string)
                (with_A [Some (permanent "disk full")])).
  pose (Hi := exec_runs serve (ClosedEngine_Import (import_and_reset_engine be "A"%string) tt)
                (with_A [Some (permanent "disk full")])).
  pose (T := proj2 (UnsafeImportAndReset_import_error be tt "A"%string
                      (snd import_and_reset_failing_run)
                      (fst (fst import_and_reset_failing_run)) Hr)
               (snd import_and_reset_failing_run) []
               (Some (permanent "disk full"))
               (eq_sym (app_nil_r _)) Hi
               ltac:(discriminate)).
  split; [exact Hr|]. split; [exact Hi|]. exact (proj2 T).
Defined.

(** Two chunks, the first written at its second attempt. *)
Lemma WriteRows_retries_bounded_witness :
  runs (OpenedEngine_WriteRows opened_A tt ["c"%string]
          ["aaaa"%string; "bbbb"%string; "cc"%string])
       (snd write_run) (fst (fst write_run)) /\
  exists (splitSize : Z) (groups : list attempts) (later : list Rows),
    snd write_run
    = Ev (abstract_MaxChunkSize (backend (opened opened_A))) splitSize
        :: flat_map (write_events opened_A tt ["c"%string]) groups /\
    Rows_SplitIntoChunks ["aaaa"%string; "bbbb"%string; "cc"%string] splitSize
    = map chunk groups ++ later /\
    Forall attempts_ok groups /\
    WriteRows_result opened_A groups later (fst (fst write_run)).
Proof.
  pose (Hr := exec_runs serve
                (OpenedEngine_WriteRows opened_A tt ["c"%string]
                   ["aaaa"%string; "bbbb"%string; "cc"%string])
                (with_A [Some (transient "busy")])).
  split; [exact Hr|].
  exact (WriteRows_retries_bounded opened_A tt ["c"%string] _ _ _ Hr).
Defined.

(** No rows, no chunk, no write. *)
Lemma WriteRows_no_chunks_witness :
  runs (OpenedEngine_WriteRows opened_A tt ["c"%string] [])
       (snd write_nothing_run) (fst (fst write_nothing_run)) /\
  (forall splitSize,
     In (Ev (abstract_MaxChunkSize (backend (opened opened_A))) splitSize)
        (snd write_nothing_run) ->
     Rows_SplitIntoChunks [] splitSize = []) /\
  fst (fst write_nothing_run) = Returned no_error /\
  existsb is_WriteRows (snd write_nothing_run) = false.
Proof.
  pose (Hr := exec_runs serve (OpenedEngine_WriteRows opened_A tt ["c"%string] [])
                (with_A [])).
  pose (Hs := (fun splitSize _ => eq_refl)
              : forall splitSize,
                  In (Ev (abstract_MaxChunkSize (backend (opened opened_A))) splitSize)
                     (snd write_nothing_run) ->
                  Rows_SplitIntoChunks [] splitSize = []).
  split; [exact Hr|]. split; [exact Hs|].
  exact (WriteRows_no_chunks opened_A tt ["c"%string] [] _ _ Hr Hs).
Defined.

(** Closing the engine of table t, number 0, by name and by identity. *)
Lemma UnsafeCloseEngine_as_WithUUID_witness :
  runs (Backend_UnsafeCloseEngine be tt "t" 0) (snd close_run) (fst (fst close_run)) /\
  exists err,
    unlogged (snd close_run)
    = [Ev (abstract_CloseEngine (abstract be) tt (snd (MakeUUID "t" 0))) err] /\
    length (filter is_CloseEngine (snd close_run)) = 1%nat /\
    fst (fst close_run)
    = Returned
        (match err with
         | Some _ => (None, err)
         | None =>
             (Some {| closed := {| backend := abstract be;
                                   logger := makeLogger (fst (MakeUUID "t" 0))
                                               (snd (MakeUUID "t" 0));
                                   uuid := snd (MakeUUID "t" 0) |} |},
              no_error)
         end).
Proof.
  pose (Hr := exec_runs serve
                (Backend_UnsafeCloseEngineWithUUID be tt
                   (fst (MakeUUID "t" 0)) (snd (MakeUUID "t" 0)))
                (with_engines
                   [{| name := snd (MakeUUID "t" 0); is_open := true; content := [] |}]
                   start)).
  pose (T := UnsafeCloseEngine_as_WithUUID be tt "t" 0).
  split; [exact (proj2 (proj1 T _ _) Hr)|].
  exact (proj2 T _ _ Hr).
Defined.

(** The fifth unbalanced engine with the ceiling at 4. *)
Lemma OpenEngine_guard_witness :
  runs (Backend_OpenEngine be tt "t" 0) (snd (open_run 4)) (fst (fst (open_run 4))) /\
  In (Ev (failpoint_Inject "FailIfEngineCountExceeds") (Some (failpoint_int 4)))
     (snd (open_run 4)) /\
  exists openCount closedCount before after,
    snd (open_run 4)
    = before ++ [Ev (failpoint_Inject "FailIfEngineCountExceeds")
                    (Some (failpoint_int 4));
                 Ev (metric_ReadCounter "open") openCount;
                 Ev (metric_ReadCounter "closed") closedCount] ++ after /\
    ((exists msg, fst (fst (open_run 4)) = Panicked msg) <->
     float64_gt (float64_sub openCount closedCount) (float64_of_int 4) = true) /\
    (forall o c,
       whole_reading openCount o -> whole_reading closedCount c ->
       ((exists msg, fst (fst (open_run 4)) = Panicked msg) <-> o - c > 4) /\
       ((exists engine, fst (fst (open_run 4)) = Returned (Some engine, no_error)) <->
        o - c <= 4)).
Proof.
  pose (Hr := exec_runs serve (Backend_OpenEngine be tt "t" 0) (guarded 4)).
  pose (Hin := ltac:(vm_compute; auto 10)
               : In (Ev (failpoint_Inject "FailIfEngineCountExceeds")
                        (Some (failpoint_int 4))) (snd (open_run 4))).
  split; [exact Hr|]. split; [exact Hin|].
  exact (OpenEngine_guard be tt "t" 0 4 _ _ Hr Hin).
Defined.

(** The guard on the double, on both sides of the ceiling 4: the fifth
    unbalanced engine aborts, the fourth does not. *)
Lemma OpenEngine_guard_at_ceiling :
  fst (fst (open_run 4))
  = Panicked "forcing failure due to FailIfEngineCountExceeds: 5 - 0 >= 4" /\
  exists engine, fst (fst (open_run 3)) = Returned (Some engine, no_error).
Proof. split; [reflexivity | eexists; reflexivity]. Qed.

End double_facts.

(** ** Further properties: opening an engine *)

(** The event [H] claims to be is another call. *)
Ltac other_call H := apply (f_equal ev_call) in H; discriminate H.

Section OpenFacts.

Context `{Imports}.

Lemma existsb_false_In {A : Type} (f : A -> bool) (l : list A) (a : A) :
  existsb f l = false -> In a l -> f a = false.
Proof.
  intros He Hin. destruct (f a) eqn:E; [|reflexivity].
  assert (existsb f l = true) by (apply existsb_exists; eauto). congruence.
Qed.

(** The three ways through [OpenEngine]: the backend refuses; the failpoint
    is off; the failpoint is on and its body either aborts or lets the
    call go on. *)
Lemma OpenEngine_cases (be : Backend) (ctx : context_Context)
    (tableName : string) (engineID : Z) tr out :
  runs (Backend_OpenEngine be ctx tableName engineID) tr out ->
  (exists e,
     tr = [Ev (abstract_OpenEngine (abstract be) ctx
                 (snd (MakeUUID tableName engineID))) (Some e)] /\
     out = Returned (None, Some e))
  \/
  (exists now,
     tr = OpenEngine_prefix be ctx tableName engineID ++
          [Ev (failpoint_Inject "FailIfEngineCountExceeds") None;
           Ev time_Now_Unix now] /\
     out = Returned (Some (OpenEngine_engine be tableName engineID now), no_error))
  \/
  (exists v o c,
     (guard_fires v o c /\
      tr = OpenEngine_prefix be ctx tableName engineID ++
           [Ev (failpoint_Inject "FailIfEngineCountExceeds") (Some v);
            Ev (metric_ReadCounter "open") o;
            Ev (metric_ReadCounter "closed") c] /\
      exists msg, out = Panicked msg)
     \/
     (exists n now,
        v = failpoint_int n /\
        float64_gt (float64_sub o c) (float64_of_int n) = false /\
        tr = OpenEngine_prefix be ctx tableName engineID ++
             [Ev (failpoint_Inject "FailIfEngineCountExceeds") (Some v);
              Ev (metric_ReadCounter "open") o;
              Ev (metric_ReadCounter "closed") c;
              Ev time_Now_Unix now] /\
        out = Returned (Some (OpenEngine_engine be tableName engineID now),
                        no_error))).
Proof.
  unfold Backend_OpenEngine, OpenEngine_prefix, OpenEngine_engine. simpl.
  intros (err & tr1 & -> & Hr).
  destruct err as [e|]; simpl in Hr.
  { destruct Hr as [-> ->]. left. eauto. }
  right.
  destruct Hr as ([] & tr2 & -> & [] & tr3 & -> & val & tr4 & -> & Hr).
  apply runs_bind in Hr.
  destruct Hr as [(t1 & [] & t2 & H1 & H2 & ->) | (msg & H1 & ->)].
  - simpl in H2. destruct H2 as (now & t3 & -> & -> & ->).
    destruct val as [v|].
    + right. apply FailIfEngineCountExceeds_runs in H1 as (o & c & -> & Hg).
      exists v, o, c. right.
      destruct v as [n | s | b];
        try (destruct Hg as (msg & Hg); discriminate).
      destruct Hg as [(_ & msg & Hp) | (Hle & _)]; [discriminate|].
      exists n, now. auto.
    + left. simpl in H1. destruct H1 as [-> _]. exists now. auto.
  - destruct val as [v|]; [| simpl in H1; destruct H1 as [_ ?]; discriminate].
    right. apply FailIfEngineCountExceeds_runs in H1 as (o & c & -> & Hg).
    exists v, o, c. left. split; [| split; [reflexivity | eauto]].
    destruct v as [n | s | b]; simpl; auto.
    destruct Hg as [(Hgt & _) | (_ & Hp)]; [exact Hgt | discriminate].
Qed.

(** X1.  When the backend refuses to open the engine, [OpenEngine] stops
    there: the backend call is the whole run (no counter is incremented,
    the failpoint is not evaluated, the clock is not read) and the result
    is no engine together with the backend's error as it is. *)
Theorem OpenEngine_backend_failure (be : Backend) (ctx : context_Context)
    (tableName : string) (engineID : Z) (e : error_value)
    (tr : list event) (out : outcome (option OpenedEngine * error)) :
  runs (Backend_OpenEngine be ctx tableName engineID) tr out ->
  In (Ev (abstract_OpenEngine (abstract be) ctx (snd (MakeUUID tableName engineID)))
         (Some e)) tr ->
  tr = [Ev (abstract_OpenEngine (abstract be) ctx (snd (MakeUUID tableName engineID)))
           (Some e)] /\
  out = Returned (None, Some e).
Proof.
  intros Hr Hin. apply OpenEngine_cases in Hr.
  destruct Hr as [(e' & -> & ->) | [(now & -> & _) | (v & o & c & [(_ & -> & _) | (n & now & _ & _ & -> & _)])]].
  - destruct Hin as [Hin | []]. apply Ev_inj in Hin. inversion Hin; subst. auto.
  - exfalso. unfold OpenEngine_prefix in Hin. simpl in Hin.
    destruct Hin as [Hin | [Hin | [Hin | [Hin | [Hin | []]]]]];
      try other_call Hin.
    apply Ev_inj in Hin. discriminate.
  - exfalso. unfold OpenEngine_prefix in Hin. simpl in Hin.
    destruct Hin as [Hin | [Hin | [Hin | [Hin | [Hin | [Hin | []]]]]]];
      try other_call Hin.
    apply Ev_inj in Hin. discriminate.
  - exfalso. unfold OpenEngine_prefix in Hin. simpl in Hin.
    destruct Hin as [Hin | [Hin | [Hin | [Hin | [Hin | [Hin | [Hin | []]]]]]]];
      try other_call Hin.
    apply Ev_inj in Hin. discriminate.
Qed.

(** X2.  Once the backend has opened the engine, the counter of open
    engines is incremented exactly once, and before the failpoint is
    evaluated: an engine on which the guard then aborts has been counted as
    open all the same.  The counter of closed engines is not touched. *)
Theorem OpenEngine_counts_before_guard (be : Backend) (ctx : context_Context)
    (tableName : string) (engineID : Z)
    (tr : list event) (out : outcome (option OpenedEngine * error)) :
  runs (Backend_OpenEngine be ctx tableName engineID) tr out ->
  In (Ev (abstract_OpenEngine (abstract be) ctx (snd (MakeUUID tableName engineID)))
         no_error) tr ->
  (exists val rest,
     tr = OpenEngine_prefix be ctx tableName engineID ++
          Ev (failpoint_Inject "FailIfEngineCountExceeds") val :: rest /\
     existsb is_Counter rest = false) /\
  length (filter (is_Counter_Inc "open") tr) = 1%nat /\
  existsb (is_Counter_Inc "closed") tr = false.
Proof.
  intros Hr Hin. apply OpenEngine_cases in Hr.
  destruct Hr as [(e' & -> & ->) | [(now & -> & _) | (v & o & c & [(_ & -> & _) | (n & now & _ & _ & -> & _)])]].
  - exfalso. destruct Hin as [Hin | []]. apply Ev_inj in Hin. discriminate.
  - split; [eexists _, _; split; reflexivity | split; reflexivity].
  - split; [eexists _, _; split; reflexivity | split; reflexivity].
  - split; [eexists _, _; split; reflexivity | split; reflexivity].
Qed.

(** X3.  [OpenEngine] returns an engine or an error, never both and never
    neither.  An engine it returns is on the wrapped backend and on the
    identity derived from the table name and the engine number, carries the
    table name and the logger of that tag, and its timestamp is composed
    from the clock reading of the run in milliseconds.  An error it returns
    is the one the backend gave.  It panics only with the failpoint
    active. *)
Theorem OpenEngine_result (be : Backend) (ctx : context_Context)
    (tableName : string) (engineID : Z)
    (tr : list event) (out : outcome (option OpenedEngine * error)) :
  runs (Backend_OpenEngine be ctx tableName engineID) tr out ->
  match out with
  | Returned (Some en, None) =>
      exists now, In (Ev time_Now_Unix now) tr /\
                  en = OpenEngine_engine be tableName engineID now
  | Returned (None, Some e) =>
      In (Ev (abstract_OpenEngine (abstract be) ctx
                (snd (MakeUUID tableName engineID))) (Some e)) tr
  | Returned _ => False
  | Panicked _ =>
      exists v, In (Ev (failpoint_Inject "FailIfEngineCountExceeds") (Some v)) tr
  end.
Proof.
  intros Hr. apply OpenEngine_cases in Hr.
  destruct Hr as [(e' & -> & ->) | [(now & -> & ->) | (v & o & c & [(_ & -> & msg & ->) | (n & now & _ & _ & -> & ->)])]].
  - left. reflexivity.
  - exists now. split; [|reflexivity]. apply in_or_app. right. simpl. auto.
  - exists v. apply in_or_app. right. simpl. auto.
  - exists now. split; [|reflexivity]. apply in_or_app. right. simpl. auto.
Qed.

(** X4.  The body of the failpoint asserts that its value is an [int].
    With the failpoint active on a value of another type, [OpenEngine]
    panics whatever the counters read, after the backend has opened the
    engine and the open counter has been incremented. *)
Theorem OpenEngine_mistyped_failpoint (be : Backend) (ctx : context_Context)
    (tableName : string) (engineID : Z) (v : failpoint_Value)
    (tr : list event) (out : outcome (option OpenedEngine * error)) :
  runs (Backend_OpenEngine be ctx tableName engineID) tr out ->
  In (Ev (failpoint_Inject "FailIfEngineCountExceeds") (Some v)) tr ->
  (forall n, v <> failpoint_int n) ->
  (exists msg, out = Panicked msg) /\
  In (Ev (abstract_OpenEngine (abstract be) ctx (snd (MakeUUID tableName engineID)))
         no_error) tr /\
  length (filter (is_Counter_Inc "open") tr) = 1%nat.
Proof.
  intros Hr Hin Hv. apply OpenEngine_cases in Hr.
  destruct Hr as [(e' & -> & ->) | [(now & -> & _) | (v' & o & c & [(_ & -> & Hp) | (n & now & -> & _ & -> & _)])]].
  - exfalso. destruct Hin as [Hin | []]. other_call Hin.
  - exfalso. unfold OpenEngine_prefix in Hin. simpl in Hin.
    destruct Hin as [Hin | [Hin | [Hin | [Hin | [Hin | []]]]]];
      try other_call Hin.
    apply Ev_inj in Hin. discriminate.
  - split; [exact Hp|]. split; [left; reflexivity | reflexivity].
  - exfalso. unfold OpenEngine_prefix in Hin. simpl in Hin.
    destruct Hin as [Hin | [Hin | [Hin | [Hin | [Hin | [Hin | [Hin | []]]]]]]];
      try other_call Hin.
    apply Ev_inj in Hin. inversion Hin; subst. now apply (Hv n).
Qed.

End OpenFacts.

(** ** Further properties: closing an engine, and the whole life of one *)

Section CloseFacts.

Context `{Imports}.

Lemma Close_runs (engine : OpenedEngine) (ctx : context_Context) tr out :
  runs (OpenedEngine_Close engine ctx) tr out ->
  exists err,
    tr = [ Ev (Logger_Begin (logger (opened engine)) InfoLevel "engine close") tt;
           Ev (abstract_CloseEngine (backend (opened engine)) ctx
                 (uuid (opened engine))) err;
           Ev (Task_End {| task_logger := logger (opened engine);
                           task_level := InfoLevel;
                           task_name := "engine close" |} ErrorLevel err) tt ]
         ++ match err with
            | None => [Ev (Counter_Inc "closed") tt]
            | Some _ => []
            end /\
    out = Returned (match err with
                    | Some _ => (None, err)
                    | None => (Some {| closed := opened engine |}, no_error)
                    end).
Proof.
  unfold OpenedEngine_Close. intros Hr. apply runs_bind in Hr.
  destruct Hr as [(tr1 & res & tr2 & H1 & H2 & ->) | (msg & H1 & _)].
  - apply unsafeClose_runs in H1 as (err & -> & E). exists err.
    destruct err as [e|]; inversion E; subst; simpl in H2.
    + destruct H2 as [-> ->]. auto.
    + destruct H2 as ([] & t & -> & -> & ->). auto.
  - apply unsafeClose_runs in H1 as (err & _ & E). discriminate.
Qed.

(** X5.  [OpenedEngine.Close] calls the backend's close once, on the
    engine's own backend and identity.  When the backend answers nil the
    counter of closed engines is incremented, once, and the closed engine
    wraps the very engine that was open; when the backend fails, the
    counter is left alone and the backend's error comes back without an
    engine.  The counter of open engines is never touched. *)
Theorem Close_counts_success (engine : OpenedEngine) (ctx : context_Context)
    (tr : list event) (out : outcome (option ClosedEngine * error)) :
  runs (OpenedEngine_Close engine ctx) tr out ->
  exists err,
    filter is_CloseEngine tr
    = [Ev (abstract_CloseEngine (backend (opened engine)) ctx (uuid (opened engine)))
          err] /\
    length (filter (is_Counter_Inc "closed") tr)
    = (match err with None => 1 | Some _ => 0 end)%nat /\
    existsb (is_Counter_Inc "open") tr = false /\
    out = Returned (match err with
                    | Some _ => (None, err)
                    | None => (Some {| closed := opened engine |}, no_error)
                    end).
Proof.
  intros Hr. apply Close_runs in Hr as (err & -> & ->). exists err.
  destruct err; repeat split; reflexivity.
Qed.

(** X6.  Opening an engine and then closing it through [Close] leaves the
    two counters in balance: over the two runs the open counter and the
    closed counter are each incremented once, and the closed engine is the
    opened one. *)
Theorem Close_balances_OpenEngine (be : Backend) (ctx ctx' : context_Context)
    (tableName : string) (engineID : Z)
    (en : OpenedEngine) (cl : ClosedEngine) (err1 err2 : error)
    (tr1 tr2 : list event) :
  runs (Backend_OpenEngine be ctx tableName engineID) tr1 (Returned (Some en, err1)) ->
  runs (OpenedEngine_Close en ctx') tr2 (Returned (Some cl, err2)) ->
  length (filter (is_Counter_Inc "open") (tr1 ++ tr2)) = 1%nat /\
  length (filter (is_Counter_Inc "closed") (tr1 ++ tr2)) = 1%nat /\
  closed cl = opened en /\
  uuid (closed cl) = snd (MakeUUID tableName engineID) /\
  err1 = no_error /\ err2 = no_error.
Proof.
  intros H1 H2.
  apply Close_runs in H2 as (err & -> & E).
  destruct err as [e|]; [discriminate|]. inversion E; subst. clear E.
  apply OpenEngine_cases in H1.
  destruct H1 as [(e' & _ & E) | [(now & -> & E) | (v & o & c & [(_ & _ & msg & E) | (n & now & _ & _ & -> & E)])]];
    try discriminate; inversion E; subst; repeat split; reflexivity.
Qed.

(** X7.  [UnsafeCloseEngine] on the table name and engine number of an
    engine that [OpenEngine] returned closes that same engine, and when the
    backend answers nil it returns the closed engine [Close] would have
    returned; but it increments no counter, so the engine stays counted as
    open. *)
Theorem UnsafeCloseEngine_uncounted (be : Backend) (ctx ctx' : context_Context)
    (tableName : string) (engineID : Z)
    (en : OpenedEngine) (err1 : error) (tr1 tr2 : list event)
    (out : outcome (option ClosedEngine * error)) :
  runs (Backend_OpenEngine be ctx tableName engineID) tr1 (Returned (Some en, err1)) ->
  runs (Backend_UnsafeCloseEngine be ctx' tableName engineID) tr2 out ->
  existsb is_Counter tr2 = false /\
  length (filter (is_Counter_Inc "open") (tr1 ++ tr2)) = 1%nat /\
  existsb (is_Counter_Inc "closed") (tr1 ++ tr2) = false /\
  exists err,
    filter is_CloseEngine tr2
    = [Ev (abstract_CloseEngine (backend (opened en)) ctx' (uuid (opened en))) err] /\
    out = Returned (match err with
                    | Some _ => (None, err)
                    | None => (Some {| closed := opened en |}, no_error)
                    end).
Proof.
  intros H1 H2.
  cbv beta iota zeta delta
    [Backend_UnsafeCloseEngine Backend_UnsafeCloseEngineWithUUID MakeUUID] in H2.
  apply unsafeClose_runs in H2 as (err & -> & ->). simpl.
  apply OpenEngine_cases in H1.
  destruct H1 as [(e' & _ & E) | [(now & -> & E) | (v & o & c & [(_ & _ & msg & E) | (n & now & _ & _ & -> & E)])]];
    try discriminate; inversion E; subst;
    (split; [reflexivity|]); (split; [reflexivity|]); (split; [reflexivity|]);
    exists err; split; reflexivity.
Qed.

Lemma Import_loop_on_engine (engine : ClosedEngine) (ctx : context_Context) (n : nat) :
  forall err0 tr out,
    runs (ClosedEngine_Import_loop engine ctx n err0) tr out ->
    Forall (fun e => on_engine (backend (closed engine)) (uuid (closed engine))
                       (ev_call e)) tr.
Proof.
  induction n as [|n IH]; intros err0 tr out Hr.
  - simpl in Hr. destruct Hr as [-> _]. constructor.
  - cbn [ClosedEngine_Import_loop] in Hr. simpl bind in Hr.
    destruct Hr as ([] & tr1 & -> & err & tr2 & -> & Hr).
    constructor; [exact I|]. constructor; [simpl; auto|].
    destruct (common_IsRetryableError err); simpl in Hr.
    + destruct Hr as ([] & tr3 & -> & d & tr4 & -> & [] & tr5 & -> & Hr).
      constructor; [exact I|]. constructor; [reflexivity|].
      constructor; [exact I|]. eapply IH; eauto.
    + destruct Hr as ([] & tr3 & -> & -> & _).
      constructor; [exact I|]. constructor.
Qed.

Lemma WriteRows_on_engine (engine : OpenedEngine) (ctx : context_Context)
    (columnNames : list string) (rows : Rows) tr out :
  runs (OpenedEngine_WriteRows engine ctx columnNames rows) tr out ->
  Forall (fun e => on_engine (backend (opened engine)) (uuid (opened engine))
                     (ev_call e)) tr.
Proof.
  unfold OpenedEngine_WriteRows. simpl bind. intros (splitSize & tr' & -> & Hr).
  constructor; [reflexivity|].
  apply WriteRows_chunks_runs in Hr as (groups & later & _ & -> & _ & _).
  apply Forall_forall. intros e Hin.
  apply in_flat_map in Hin as (a & _ & Hin).
  unfold write_events in Hin. apply in_map_iff in Hin as (x & <- & _).
  simpl. auto.
Qed.

(** X8.  One engine, one identity.  Every call that reaches a backend
    while an engine is opened, written to, flushed, closed, imported and
    cleaned up goes to the backend the [Backend] value wraps, and every
    call that names an engine names the identity derived from the table
    name and the engine number given to [OpenEngine]. *)
Theorem lifecycle_on_one_engine (be : Backend) (ctx : context_Context)
    (tableName : string) (engineID : Z) (columnNames : list string) (rows : Rows)
    (en : OpenedEngine) (cl : ClosedEngine) (err1 err4 : error)
    (tr1 tr2 tr3 tr4 tr5 tr6 : list event)
    (out2 out3 out5 out6 : outcome error) :
  runs (Backend_OpenEngine be ctx tableName engineID) tr1 (Returned (Some en, err1)) ->
  runs (OpenedEngine_WriteRows en ctx columnNames rows) tr2 out2 ->
  runs (OpenedEngine_Flush en) tr3 out3 ->
  runs (OpenedEngine_Close en ctx) tr4 (Returned (Some cl, err4)) ->
  runs (ClosedEngine_Import cl ctx) tr5 out5 ->
  runs (ClosedEngine_Cleanup cl ctx) tr6 out6 ->
  Forall (fun e => on_engine (abstract be) (snd (MakeUUID tableName engineID))
                     (ev_call e))
         (tr1 ++ tr2 ++ tr3 ++ tr4 ++ tr5 ++ tr6).
Proof.
  intros H1 H2 H3 H4 H5 H6.
  assert (Hen : backend (opened en) = abstract be /\
                uuid (opened en) = snd (MakeUUID tableName engineID) /\
                Forall (fun e => on_engine (abstract be)
                                   (snd (MakeUUID tableName engineID)) (ev_call e)) tr1).
  { apply OpenEngine_cases in H1.
    destruct H1 as [(e' & _ & E) | [(now & -> & E) | (v & o & c & [(_ & _ & msg & E) | (n & now & _ & _ & -> & E)])]];
      try discriminate; inversion E; subst;
      (split; [reflexivity|]); (split; [reflexivity|]);
      repeat constructor. }
  destruct Hen as (Hb & Hu & F1).
  apply WriteRows_on_engine in H2. rewrite Hb, Hu in H2.
  apply Close_runs in H4 as (err & -> & E).
  destruct err as [e|]; [discriminate|]. inversion E; subst cl err4. clear E.
  apply Import_loop_on_engine in H5. simpl in H5. rewrite Hb, Hu in H5.
  unfold OpenedEngine_Flush in H3. simpl in H3.
  destruct H3 as (e3 & t3 & -> & -> & _).
  unfold ClosedEngine_Cleanup in H6. simpl in H6.
  destruct H6 as ([] & t6 & -> & e6 & t7 & -> & [] & t8 & -> & -> & _).
  rewrite Hb, Hu.
  repeat (apply Forall_app; split); auto; repeat constructor.
Qed.

End CloseFacts.

(** ** Further properties: what the retry loops deliver and cost *)

Section DeliveryFacts.

Context `{Imports}.

Lemma delivered_app (tr1 tr2 : list event) :
  delivered (tr1 ++ tr2) = delivered tr1 ++ delivered tr2.
Proof. unfold delivered. apply flat_map_app. Qed.

Lemma delivered_failed (engine : OpenedEngine) (ctx : context_Context)
    (columnNames : list string) (r : Rows) (fails : list error) :
  Forall retryable_failure fails ->
  delivered (map (write_attempt engine ctx columnNames r) fails) = [].
Proof.
  induction 1 as [|e fails [He _] _ IH]; [reflexivity|].
  destruct e as [e|]; [exact IH | now elim He].
Qed.

Lemma delivered_group (engine : OpenedEngine) (ctx : context_Context)
    (columnNames : list string) (a : attempts) :
  attempts_ok a ->
  delivered (write_events engine ctx columnNames a)
  = match settled a with None => [chunk a] | Some _ => [] end.
Proof.
  intros [Hf _]. unfold write_events. rewrite map_app, delivered_app.
  rewrite delivered_failed by assumption. simpl.
  destruct (settled a); reflexivity.
Qed.

Lemma delivered_written (engine : OpenedEngine) (ctx : context_Context)
    (columnNames : list string) (groups : list attempts) :
  Forall attempts_ok groups -> Forall written groups ->
  delivered (flat_map (write_events engine ctx columnNames) groups)
  = map chunk groups.
Proof.
  induction 1 as [|a groups Ha _ IH]; intros Hw; [reflexivity|].
  inversion Hw as [|? ? Wa Wg]; subst. simpl.
  rewrite delivered_app, (delivered_group _ _ _ _ Ha), Wa, IH by assumption.
  reflexivity.
Qed.

(** X9.  What [WriteRows] gets through to the backend.  The chunks whose
    write the backend acknowledged are, in order and each exactly once, an
    initial part of the split of the rows: no chunk is acknowledged twice,
    none is skipped, none is written out of order.  Provided annotating an
    error does not make it nil, the call returns nil exactly when that
    initial part is the whole split. *)
Theorem WriteRows_delivers_prefix (engine : OpenedEngine) (ctx : context_Context)
    (columnNames : list string) (rows : Rows)
    (tr : list event) (out : outcome error) :
  (forall e msg, e <> no_error -> errors_Annotatef e msg <> no_error) ->
  runs (OpenedEngine_WriteRows engine ctx columnNames rows) tr out ->
  exists splitSize later,
    In (Ev (abstract_MaxChunkSize (backend (opened engine))) splitSize) tr /\
    Rows_SplitIntoChunks rows splitSize = delivered tr ++ later /\
    (out = Returned no_error <-> later = []).
Proof.
  intros Hann. unfold OpenedEngine_WriteRows. simpl bind.
  intros (splitSize & tr' & -> & Hr).
  apply WriteRows_chunks_runs in Hr as (groups & later & E & -> & Hok & Hres).
  exists splitSize.
  change (delivered (?e :: ?l)) with (delivered [e] ++ delivered l).
  change (delivered [Ev (abstract_MaxChunkSize (backend (opened engine))) splitSize])
    with (@nil Rows). simpl app.
  destruct Hres as [(Hw & -> & ->) | (gs & a & -> & Hw & Hs & Hout)].
  - exists []. split; [left; reflexivity|].
    rewrite delivered_written by assumption.
    split; [exact E|]. split; reflexivity.
  - exists (chunk a :: later). split; [left; reflexivity|].
    apply Forall_app in Hok as [Hgs Ha]. inversion Ha as [|? ? Ha' _]; subst.
    rewrite flat_map_app, delivered_app, delivered_written by assumption.
    simpl flat_map. rewrite app_nil_r, (delivered_group _ _ _ _ Ha').
    destruct (settled a) as [e|] eqn:Es; [|now elim Hs].
    rewrite app_nil_r. split.
    + rewrite E, map_app, <- app_assoc. reflexivity.
    + split; [|discriminate]. intros Eo. exfalso.
      destruct Hout as [(_ & ->) | (_ & _ & ->)].
      * inversion Eo.
      * inversion Eo as [Eo']. now apply (Hann (Some e) (write_message engine)).
Qed.

(** X10.  What [WriteRows] costs.  It always returns; after the query of
    the chunk size it does nothing but write (in particular it does not
    wait between the attempts on a chunk, unlike [Import]); and the number
    of writes is at most three times the number of chunks of the split. *)
Theorem WriteRows_call_bound (engine : OpenedEngine) (ctx : context_Context)
    (columnNames : list string) (rows : Rows)
    (tr : list event) (out : outcome error) :
  runs (OpenedEngine_WriteRows engine ctx columnNames rows) tr out ->
  (exists err, out = Returned err) /\
  exists splitSize writes,
    tr = Ev (abstract_MaxChunkSize (backend (opened engine))) splitSize :: writes /\
    forallb is_WriteRows writes = true /\
    (length writes <= 3 * length (Rows_SplitIntoChunks rows splitSize))%nat.
Proof.
  unfold OpenedEngine_WriteRows. simpl bind.
  intros (splitSize & tr' & -> & Hr).
  apply WriteRows_chunks_runs in Hr as (groups & later & E & -> & Hok & Hres).
  split.
  { destruct Hres as [(_ & _ & ->) | (gs & a & _ & _ & _ & [(_ & ->) | (_ & _ & ->)])];
      eauto. }
  exists splitSize. eexists. split; [reflexivity|].
  rewrite E, length_app, length_map. clear E Hres. split.
  - induction groups as [|a groups IH]; [reflexivity|].
    inversion Hok; subst. simpl. rewrite forallb_app, IH by assumption.
    rewrite andb_true_r. unfold write_events.
    apply forallb_forall. intros e Hin. apply in_map_iff in Hin as (x & <- & _).
    reflexivity.
  - assert (length (flat_map (write_events engine ctx columnNames) groups)
            <= 3 * length groups)%nat; [|lia].
    induction Hok as [|a groups [_ Ha] _ IH]; [simpl; lia|].
    simpl. rewrite length_app. unfold write_events at 1. rewrite length_map. lia.
Qed.



(** X12.  When [UnsafeImportAndReset] gets as far as the backend's reset,
    the import before it returned nil, the reset is the last call and the
    only reset of the run, and what the reset answers is the result as it
    is: a failure of the reset is reported although the import has
    happened. *)
Theorem UnsafeImportAndReset_reset_result (be : Backend) (ctx : context_Context)
    (engineUUID : uuid_UUID) (err' : error)
    (tr : list event) (out : outcome error) :
  runs (Backend_UnsafeImportAndReset be ctx engineUUID) tr out ->
  In (Ev (abstract_ResetEngine (abstract be) ctx engineUUID) err') tr ->
  out = Returned err' /\
  filter is_ResetEngine tr
  = [Ev (abstract_ResetEngine (abstract be) ctx engineUUID) err'] /\
  exists tr1,
    tr = tr1 ++ [Ev (abstract_ResetEngine (abstract be) ctx engineUUID) err'] /\
    runs (ClosedEngine_Import (import_and_reset_engine be engineUUID) ctx) tr1
         (Returned no_error).
Proof.
  intros Hr Hin.
  apply UnsafeImportAndReset_runs in Hr as (tr1 & err & H1 & Hc).
  pose proof (Import_calls _ _ _ _ H1) as (_ & Hno & _ & _).
  assert (Hnone : filter is_ResetEngine tr1 = []).
  { clear - Hno. induction tr1 as [|e tr1 IH]; [reflexivity|].
    simpl in *. apply orb_false_elim in Hno as [-> Hno]. auto. }
  destruct Hc as [(_ & -> & _) | (-> & err'' & -> & ->)].
  - exfalso. pose proof (existsb_false_In _ _ _ Hno Hin) as Hf. discriminate.
  - apply in_app_or in Hin as [Hin | [Hin | []]].
    + exfalso. pose proof (existsb_false_In _ _ _ Hno Hin) as Hf. discriminate.
    + apply Ev_inj in Hin. subst err''.
      split; [reflexivity|]. split.
      * rewrite filter_app, Hnone. reflexivity.
      * exists tr1. auto.
Qed.

End DeliveryFacts.

(** ** Further properties: the verdict of the disk-quota evaluation *)

Section VerdictFacts.

Context `{Imports}.

Lemma filter_length_perm {A : Type} (f : A -> bool) (l1 l2 : list A) :
  Permutation l1 l2 -> length (filter f l1) = length (filter f l2).
Proof.
  induction 1 as [| x l1 l2 _ IH | x y l | l1 l2 l3 _ IH1 _ IH2]; simpl.
  - reflexivity.
  - destruct (f x); simpl; congruence.
  - destruct (f x), (f y); reflexivity.
  - congruence.
Qed.

Lemma filter_perm {A : Type} (f : A -> bool) (l1 l2 : list A) :
  Permutation l1 l2 -> Permutation (filter f l1) (filter f l2).
Proof.
  induction 1 as [| x l1 l2 _ IH | x y l | l1 l2 l3 _ IH1 _ IH2]; simpl.
  - constructor.
  - destruct (f x); auto.
  - destruct (f x), (f y); auto. constructor.
  - eapply perm_trans; eauto.
Qed.

(** The excess records are some of the records, in their order. *)
Lemma excess_from_sub (quota : Z) (f : EngineFileSize -> bool)
    (l : list EngineFileSize) :
  forall total,
    incl (excess_from total quota l) l /\
    (length (filter f (excess_from total quota l)) <= length (filter f l))%nat.
Proof.
  unfold excess_from. induction l as [|r l IH]; intros total; simpl.
  - split; [apply incl_refl | lia].
  - destruct (IH (add64 total (Size r))) as [Hi Hl].
    destruct (add64 total (Size r) >? quota); simpl.
    + split; [apply incl_cons; [left; reflexivity | now apply incl_tl]|].
      destruct (f r); simpl; lia.
    + split; [now apply incl_tl|]. destruct (f r); simpl; lia.
Qed.

(** X13.  The total [CheckDiskQuota] reports is the [int64] sum of all the
    sizes the backend reported, whatever the quota and whatever order the
    sort left the records in; it is their sum when that fits. *)
Theorem CheckDiskQuota_total (be : Backend) (quota : Z)
    (sizes : list EngineFileSize) (out : outcome (list uuid_UUID * Z * Z)) :
  Permutation (sort_Slice sizes less) sizes ->
  runs (Backend_CheckDiskQuota be quota)
       [Ev (abstract_EngineFileSizes (abstract be)) sizes] out ->
  exists largeEngines inProgressLargeEngines totalSize,
    out = Returned (largeEngines, inProgressLargeEngines, totalSize) /\
    totalSize = wrap64 (sum_sizes sizes) /\
    in_int64 totalSize /\
    (in_int64 (sum_sizes sizes) -> totalSize = sum_sizes sizes).
Proof.
  intros Hperm Hr. apply CheckDiskQuota_runs in Hr. subst out.
  unfold quota_verdict. eexists _, _, _. split; [reflexivity|].
  rewrite (sum_sizes_perm _ _ Hperm). split; [reflexivity|]. split.
  - unfold in_int64, wrap64.
    pose proof (Z.mod_pos_bound (sum_sizes sizes + 2 ^ 63) (2 ^ 64)). lia.
  - apply wrap64_small.
Qed.

(** X14.  [CheckDiskQuota] only flags what the backend reported: every
    identity it returns is the identity of a reported engine that is not
    importing, it returns no more identities than there are such engines,
    and it counts no more engines in progress than are importing. *)
Theorem CheckDiskQuota_flags_reported (be : Backend) (quota : Z)
    (sizes : list EngineFileSize) (out : outcome (list uuid_UUID * Z * Z)) :
  Permutation (sort_Slice sizes less) sizes ->
  runs (Backend_CheckDiskQuota be quota)
       [Ev (abstract_EngineFileSizes (abstract be)) sizes] out ->
  exists largeEngines inProgressLargeEngines totalSize,
    out = Returned (largeEngines, inProgressLargeEngines, totalSize) /\
    (forall u, In u largeEngines ->
       exists r, In r sizes /\ UUID r = u /\ IsImporting r = false) /\
    (length largeEngines <= length (filter idle sizes))%nat /\
    0 <= inProgressLargeEngines <= Z.of_nat (length (filter IsImporting sizes)).
Proof.
  intros Hperm Hr. apply CheckDiskQuota_runs in Hr. subst out.
  unfold quota_verdict, excess. eexists _, _, _. split; [reflexivity|].
  split; [| split].
  - intros u Hin. apply in_map_iff in Hin as (r & <- & Hin).
    apply filter_In in Hin as [Hin Hi]. exists r.
    split; [| split; [reflexivity | now apply negb_true_iff]].
    apply (Permutation_in _ Hperm).
    now apply (proj1 (excess_from_sub quota idle _ 0)).
  - rewrite length_map, <- (filter_length_perm idle _ _ Hperm).
    apply (proj2 (excess_from_sub quota idle _ 0)).
  - rewrite <- (filter_length_perm IsImporting _ _ Hperm).
    pose proof (proj2 (excess_from_sub quota IsImporting (sort_Slice sizes less) 0)).
    lia.
Qed.

(** X15.  With sizes that are not negative, a sum that fits and a quota
    that is not negative, [CheckDiskQuota] flags nothing exactly when the
    total is within the quota: it returns no engine and counts none in
    progress if and only if the sum of the sizes is at most the quota. *)
Theorem CheckDiskQuota_within_quota (be : Backend) (quota : Z)
    (sizes : list EngineFileSize) (out : outcome (list uuid_UUID * Z * Z)) :
  Permutation (sort_Slice sizes less) sizes ->
  Forall (fun r => 0 <= Size r) sizes ->
  sum_sizes sizes < 2 ^ 63 ->
  0 <= quota ->
  runs (Backend_CheckDiskQuota be quota)
       [Ev (abstract_EngineFileSizes (abstract be)) sizes] out ->
  exists largeEngines inProgressLargeEngines,
    out = Returned (largeEngines, inProgressLargeEngines, sum_sizes sizes) /\
    ((largeEngines = [] /\ inProgressLargeEngines = 0) <-> sum_sizes sizes <= quota).
Proof.
  intros Hperm Hpos Hsum Hq Hr. apply CheckDiskQuota_runs in Hr. subst out.
  unfold quota_verdict, excess.
  assert (Hpos' : Forall (fun r => 0 <= Size r) (sort_Slice sizes less)).
  { eapply Permutation_Forall; [apply Permutation_sym; exact Hperm | exact Hpos]. }
  pose proof (sum_sizes_nonneg _ Hpos) as H0.
  rewrite (sum_sizes_perm _ _ Hperm).
  rewrite wrap64_small by (unfold in_int64; lia).
  eexists _, _. split; [reflexivity|].
  destruct (excess_suffix quota (sort_Slice sizes less) 0 Hpos')
    as (kept & over & E & -> & Hk & Ho);
    [lia | rewrite (sum_sizes_perm _ _ Hperm); lia |].
  rewrite <- (sum_sizes_perm _ _ Hperm), E, sum_sizes_app.
  assert (Hover : Forall (fun r => 0 <= Size r) over).
  { rewrite E in Hpos'. now apply Forall_app in Hpos' as [_ ?]. }
  destruct over as [|r over].
  - simpl. split; [intros _ | auto].
    destruct kept as [|k kept]; [simpl; lia|].
    assert (k :: kept <> []) as Hne by discriminate. specialize (Hk Hne). lia.
  - specialize (Ho r over eq_refl). inversion Hover; subst.
    pose proof (sum_sizes_nonneg over ltac:(assumption)).
    split.
    + intros [Hl Hn]. exfalso. simpl in Hl, Hn.
      destruct (IsImporting r); simpl in Hl, Hn; [lia | discriminate].
    + intros Hle. exfalso. simpl in Hle. lia.
Qed.

(** X16.  When the sort has ordered the records (sizes not negative, sum
    fitting) and [CheckDiskQuota] counts at least one engine in progress,
    the engines that are already importing take the total above the quota
    on their own, and every engine that is not importing is returned: the
    identities returned are those of all the idle engines reported. *)
Theorem CheckDiskQuota_importing_over_quota (be : Backend) (quota : Z)
    (sizes : list EngineFileSize) (out : outcome (list uuid_UUID * Z * Z)) :
  sort_Slice_sorts sizes less ->
  Forall (fun r => 0 <= Size r) sizes ->
  sum_sizes sizes < 2 ^ 63 ->
  runs (Backend_CheckDiskQuota be quota)
       [Ev (abstract_EngineFileSizes (abstract be)) sizes] out ->
  exists largeEngines inProgressLargeEngines totalSize,
    out = Returned (largeEngines, inProgressLargeEngines, totalSize) /\
    (0 < inProgressLargeEngines ->
     Permutation largeEngines (map UUID (filter idle sizes)) /\
     quota < sum_sizes (filter IsImporting sizes)).
Proof.
  intros [Hperm Hord] Hpos Hsum Hr. apply CheckDiskQuota_runs in Hr. subst out.
  specialize (Hord less_strict_weak_order).
  apply ordered_importing_first in Hord as (imp & idl & Eo & Himp & Hidl & _ & _).
  unfold quota_verdict, excess. eexists _, _, _. split; [reflexivity|].
  intros Hn.
  assert (Hpos' : Forall (fun r => 0 <= Size r) (sort_Slice sizes less)).
  { eapply Permutation_Forall; [apply Permutation_sym; exact Hperm | exact Hpos]. }
  destruct (excess_suffix quota (sort_Slice sizes less) 0 Hpos')
    as (kept & over & E & Hex & Hk & Ho);
    [lia | rewrite (sum_sizes_perm _ _ Hperm); lia |].
  rewrite Hex in *.
  assert (Fimp : forall l, Forall (fun r => IsImporting r = true) l ->
                           filter IsImporting l = l /\ filter idle l = []).
  { induction 1 as [|r l Hr _ [IH1 IH2]]; [auto|].
    unfold idle in *. simpl. rewrite Hr. simpl. now rewrite IH1, IH2. }
  assert (Fidl : forall l, Forall (fun r => IsImporting r = false) l ->
                           filter IsImporting l = [] /\ filter idle l = l).
  { induction 1 as [|r l Hr _ [IH1 IH2]]; [auto|].
    unfold idle in *. simpl. rewrite Hr. simpl. now rewrite IH1, IH2. }
  destruct (Fimp _ Himp) as [Ii Id]. destruct (Fidl _ Hidl) as [Di Dd].
  assert (Esplit : kept ++ over = imp ++ idl) by congruence.
  apply app_eq_app in Esplit as (l & [[-> ->] | [-> ->]]).
  - exfalso. apply Forall_app in Hidl as [_ Hov].
    destruct (Fidl _ Hov) as [Z0 _].
    change (fun r => negb (IsImporting r)) with idle in *.
    rewrite Z0 in Hn. simpl in Hn. lia.
  - apply Forall_app in Himp as [Hk' Hl].
    destruct (Fimp _ Hl) as [Li Ld].
    change (fun r => negb (IsImporting r)) with idle.
    split.
    + rewrite filter_app, Ld, Dd. simpl.
      apply Permutation_map.
      assert (Permutation (filter idle (sort_Slice sizes less)) (filter idle sizes))
        by now apply filter_perm.
      rewrite Eo in H0. rewrite filter_app, Id, Dd in H0. exact H0.
    + assert (Permutation (filter IsImporting (sort_Slice sizes less))
                          (filter IsImporting sizes)) as P
        by now apply filter_perm.
      rewrite Eo, filter_app, Ii, Di, app_nil_r in P.
      rewrite <- (sum_sizes_perm _ _ P), sum_sizes_app.
      destruct l as [|r l].
      * exfalso. simpl in Hn. rewrite Di in Hn. simpl in Hn. lia.
      * specialize (Ho r (l ++ idl) eq_refl). inversion Hl; subst.
        assert (0 <= sum_sizes l).
        { apply sum_sizes_nonneg. rewrite Eo in Hpos'.
          apply Forall_app in Hpos' as [Hp _].
          apply Forall_app in Hp as [_ Hp]. now inversion Hp. }
        simpl. lia.
Qed.

End VerdictFacts.

(** ** Further properties: the guard against counters that count *)

Module counting_facts.

Import double double_runs.
#[local] Existing Instance imports.

(** X17.  With counters that really count (each [Inc] adds one, each read
    gives the count) and the failpoint set to the ceiling [N], [OpenEngine]
    aborts exactly when, before the call, the engines opened and not yet
    closed already number [N] or more: the engine being opened counts
    itself.  The open counter is one higher afterwards in either case, and
    the closed counter is as it was. *)
Theorem OpenEngine_guard_counts_itself (w : world) (tableName : string)
    (engineID N : Z) :
  script w = [] ->
  failpoints w = [("FailIfEngineCountExceeds"%string, failpoint_int N)] ->
  0 <= open_counter w < 2 ^ 53 - 1 ->
  0 <= closed_counter w < 2 ^ 53 ->
  ((exists msg,
      fst (fst (exec serve (Backend_OpenEngine be tt tableName engineID) w))
      = Panicked msg)
   <-> open_counter w - closed_counter w >= N) /\
  ((exists en,
      fst (fst (exec serve (Backend_OpenEngine be tt tableName engineID) w))
      = Returned (Some en, no_error))
   <-> open_counter w - closed_counter w < N) /\
  open_counter (snd (fst (exec serve (Backend_OpenEngine be tt tableName engineID) w)))
  = open_counter w + 1 /\
  closed_counter (snd (fst (exec serve (Backend_OpenEngine be tt tableName engineID) w)))
  = closed_counter w.
Proof.
  destruct w as [scr eng imp mc rd sl cl o c fps fs]. simpl.
  intros -> -> Ho Hc.
  unfold Backend_OpenEngine.
  cbn -[float64_of_int float64_sub float64_gt Z.add].
  rewrite float64_sub_whole by lia.
  rewrite float64_gt_int by (apply Z.abs_lt; lia).
  destruct (o + 1 - c >? N) eqn:G; cbn -[Z.add].
  - repeat split; try lia; eauto.
    intros (en & E). discriminate.
  - repeat split; try lia; eauto.
    intros (msg & E). discriminate.
Qed.

End counting_facts.

(** ** The further properties on the in-memory environment *)

Module double_runs_facts.

Import double double_runs.
#[local] Existing Instance imports.
Local Open Scope string_scope.
Local Open Scope list_scope.

(** The backend refuses to open the engine of table t, number 0. *)
Lemma OpenEngine_backend_failure_witness :
  runs (Backend_OpenEngine be tt "t" 0)
       (snd open_failing_run) (fst (fst open_failing_run)) /\
  In (Ev (abstract_OpenEngine (abstract be) tt (snd (MakeUUID "t" 0)))
         (Some (permanent "no space left")))
     (snd open_failing_run) /\
  snd open_failing_run
  = [Ev (abstract_OpenEngine (abstract be) tt (snd (MakeUUID "t" 0)))
        (Some (permanent "no space left"))] /\
  fst (fst open_failing_run) = Returned (None, Some (permanent "no space left")).
Proof.
  pose (Hr := exec_runs serve (Backend_OpenEngine be tt "t" 0)
                (with_script [Some (permanent "no space left")] start)).
  pose (Hin := or_introl eq_refl
               : In (Ev (abstract_OpenEngine (abstract be) tt (snd (MakeUUID "t" 0)))
                        (Some (permanent "no space left")))
                    (snd open_failing_run)).
  split; [exact Hr|]. split; [exact Hin|].
  exact (OpenEngine_backend_failure be tt "t" 0 _ _ _ Hr Hin).
Defined.

(** The fifth unbalanced engine: counted, then refused by the guard. *)
Lemma OpenEngine_counts_before_guard_witness :
  runs (Backend_OpenEngine be tt "t" 0) (snd (open_run 4)) (fst (fst (open_run 4))) /\
  In (Ev (abstract_OpenEngine (abstract be) tt (snd (MakeUUID "t" 0))) no_error)
     (snd (open_run 4)) /\
  (exists msg, fst (fst (open_run 4)) = Panicked msg) /\
  (exists val rest,
     snd (open_run 4)
     = OpenEngine_prefix be tt "t" 0 ++
       Ev (failpoint_Inject "FailIfEngineCountExceeds") val :: rest /\
     existsb is_Counter rest = false) /\
  length (filter (is_Counter_Inc "open") (snd (open_run 4))) = 1%nat /\
  existsb (is_Counter_Inc "closed") (snd (open_run 4)) = false.
Proof.
  pose (Hr := exec_runs serve (Backend_OpenEngine be tt "t" 0) (guarded 4)).
  pose (Hin := or_introl eq_refl
               : In (Ev (abstract_OpenEngine (abstract be) tt (snd (MakeUUID "t" 0)))
                        no_error)
                    (snd (open_run 4))).
  split; [exact Hr|]. split; [exact Hin|].
  split; [eexists; reflexivity|].
  exact (OpenEngine_counts_before_guard be tt "t" 0 _ _ Hr Hin).
Defined.

(** Without the failpoint the engine of table t, number 0, comes back
    stamped with the clock of the environment. *)
Lemma OpenEngine_result_witness :
  runs (Backend_OpenEngine be tt "t" 0) (snd open_plain_run) (fst (fst open_plain_run)) /\
  fst (fst open_plain_run) = Returned (Some life_engine, no_error) /\
  match fst (fst open_plain_run) with
  | Returned (Some en, None) =>
      exists now, In (Ev time_Now_Unix now) (snd open_plain_run) /\
                  en = OpenEngine_engine be "t" 0 now
  | Returned (None, Some e) =>
      In (Ev (abstract_OpenEngine (abstract be) tt (snd (MakeUUID "t" 0))) (Some e))
         (snd open_plain_run)
  | Returned _ => False
  | Panicked _ =>
      exists v, In (Ev (failpoint_Inject "FailIfEngineCountExceeds") (Some v))
                   (snd open_plain_run)
  end.
Proof.
  pose (Hr := exec_runs serve (Backend_OpenEngine be tt "t" 0) start).
  split; [exact Hr|]. split; [reflexivity|].
  exact (OpenEngine_result be tt "t" 0 _ _ Hr).
Defined.

(** The failpoint set to the string 4: the type assertion fails. *)
Lemma OpenEngine_mistyped_failpoint_witness :
  runs (Backend_OpenEngine be tt "t" 0)
       (snd open_mistyped_run) (fst (fst open_mistyped_run)) /\
  In (Ev (failpoint_Inject "FailIfEngineCountExceeds") (Some (failpoint_string "4")))
     (snd open_mistyped_run) /\
  (forall n, failpoint_string "4" <> failpoint_int n) /\
  (exists msg, fst (fst open_mistyped_run) = Panicked msg) /\
  In (Ev (abstract_OpenEngine (abstract be) tt (snd (MakeUUID "t" 0))) no_error)
     (snd open_mistyped_run) /\
  length (filter (is_Counter_Inc "open") (snd open_mistyped_run)) = 1%nat.
Proof.
  pose (Hr := exec_runs serve (Backend_OpenEngine be tt "t" 0) mistyped).
  pose (Hin := or_intror (or_intror (or_intror (or_introl eq_refl)))
               : In (Ev (failpoint_Inject "FailIfEngineCountExceeds")
                        (Some (failpoint_string "4")))
                    (snd open_mistyped_run)).
  pose (Hv := ltac:(intros n E; discriminate E)
              : forall n, failpoint_string "4" <> failpoint_int n).
  split; [exact Hr|]. split; [exact Hin|]. split; [exact Hv|].
  exact (OpenEngine_mistyped_failpoint be tt "t" 0 _ _ _ Hr Hin Hv).
Defined.

(** Closing engine A, with the backend willing. *)
Lemma Close_counts_success_witness :
  runs (OpenedEngine_Close opened_A tt) (snd close_ok_run) (fst (fst close_ok_run)) /\
  closed_counter (snd (fst close_ok_run)) = 1 /\
  closed_counter (snd (fst close_failing_run)) = 0 /\
  exists err,
    filter is_CloseEngine (snd close_ok_run)
    = [Ev (abstract_CloseEngine (backend (opened opened_A)) tt (uuid (opened opened_A)))
          err] /\
    length (filter (is_Counter_Inc "closed") (snd close_ok_run))
    = (match err with None => 1 | Some _ => 0 end)%nat /\
    existsb (is_Counter_Inc "open") (snd close_ok_run) = false /\
    fst (fst close_ok_run)
    = Returned (match err with
                | Some _ => (None, err)
                | None => (Some {| closed := opened opened_A |}, no_error)
                end).
Proof.
  pose (Hr := exec_runs serve (OpenedEngine_Close opened_A tt) (with_A [])).
  split; [exact Hr|]. split; [reflexivity|]. split; [reflexivity|].
  exact (Close_counts_success opened_A tt _ _ Hr).
Defined.

(** The engine of table t, number 0, opened and closed again. *)
Lemma Close_balances_OpenEngine_witness :
  runs (Backend_OpenEngine be tt "t" 0) (snd life_open)
       (Returned (Some life_engine, no_error)) /\
  runs (OpenedEngine_Close life_engine tt) (snd life_close)
       (Returned (Some life_closed, no_error)) /\
  open_counter (snd (fst life_close)) - closed_counter (snd (fst life_close)) = 0 /\
  length (filter (is_Counter_Inc "open") (snd life_open ++ snd life_close)) = 1%nat /\
  length (filter (is_Counter_Inc "closed") (snd life_open ++ snd life_close)) = 1%nat /\
  closed life_closed = opened life_engine /\
  uuid (closed life_closed) = snd (MakeUUID "t" 0) /\
  no_error = no_error /\ no_error = no_error.
Proof.
  pose (H1 := exec_runs serve (Backend_OpenEngine be tt "t" 0) start
              : runs (Backend_OpenEngine be tt "t" 0) (snd life_open)
                     (Returned (Some life_engine, no_error))).
  pose (H2 := exec_runs serve (OpenedEngine_Close life_engine tt) (snd (fst life_flush))
              : runs (OpenedEngine_Close life_engine tt) (snd life_close)
                     (Returned (Some life_closed, no_error))).
  split; [exact H1|]. split; [exact H2|]. split; [reflexivity|].
  exact (Close_balances_OpenEngine be tt tt "t" 0 _ _ _ _ _ _ H1 H2).
Defined.

(** The same engine closed by name instead: one engine stays counted. *)
Lemma UnsafeCloseEngine_uncounted_witness :
  runs (Backend_OpenEngine be tt "t" 0) (snd life_open)
       (Returned (Some life_engine, no_error)) /\
  runs (Backend_UnsafeCloseEngine be tt "t" 0) (snd life_unsafe_close)
       (fst (fst life_unsafe_close)) /\
  fst (fst life_unsafe_close) = Returned (Some life_closed, no_error) /\
  open_counter (snd (fst life_unsafe_close))
  - closed_counter (snd (fst life_unsafe_close)) = 1 /\
  existsb is_Counter (snd life_unsafe_close) = false /\
  length (filter (is_Counter_Inc "open") (snd life_open ++ snd life_unsafe_close))
  = 1%nat /\
  existsb (is_Counter_Inc "closed") (snd life_open ++ snd life_unsafe_close) = false /\
  exists err,
    filter is_CloseEngine (snd life_unsafe_close)
    = [Ev (abstract_CloseEngine (backend (opened life_engine)) tt
             (uuid (opened life_engine))) err] /\
    fst (fst life_unsafe_close)
    = Returned (match err with
                | Some _ => (None, err)
                | None => (Some {| closed := opened life_engine |}, no_error)
                end).
Proof.
  pose (H1 := exec_runs serve (Backend_OpenEngine be tt "t" 0) start
              : runs (Backend_OpenEngine be tt "t" 0) (snd life_open)
                     (Returned (Some life_engine, no_error))).
  pose (H2 := exec_runs serve (Backend_UnsafeCloseEngine be tt "t" 0)
                (snd (fst life_open))).
  split; [exact H1|]. split; [exact H2|]. split; [reflexivity|].
  split; [reflexivity|].
  exact (UnsafeCloseEngine_uncounted be tt tt "t" 0 _ _ _ _ _ H1 H2).
Defined.

(** The whole workflow on the engine of table t, number 0. *)
Lemma lifecycle_on_one_engine_witness :
  runs (Backend_OpenEngine be tt "t" 0) (snd life_open)
       (Returned (Some life_engine, no_error)) /\
  runs (OpenedEngine_WriteRows life_engine tt ["c"] ["aaaa"; "bbbb"; "cc"])
       (snd life_write) (fst (fst life_write)) /\
  runs (OpenedEngine_Flush life_engine) (snd life_flush) (fst (fst life_flush)) /\
  runs (OpenedEngine_Close life_engine tt) (snd life_close)
       (Returned (Some life_closed, no_error)) /\
  runs (ClosedEngine_Import life_closed tt) (snd life_import) (fst (fst life_import)) /\
  runs (ClosedEngine_Cleanup life_closed tt) (snd life_cleanup)
       (fst (fst life_cleanup)) /\
  imported (snd (fst life_cleanup)) = ["aaaa"; "bbbb"; "cc"] /\
  engines (snd (fst life_cleanup)) = [] /\
  Forall (fun e => on_engine (abstract be) (snd (MakeUUID "t" 0)) (ev_call e))
         (snd life_open ++ snd life_write ++ snd life_flush ++ snd life_close ++
          snd life_import ++ snd life_cleanup).
Proof.
  pose (H1 := exec_runs serve (Backend_OpenEngine be tt "t" 0) start
              : runs (Backend_OpenEngine be tt "t" 0) (snd life_open)
                     (Returned (Some life_engine, no_error))).
  pose (H2 := exec_runs serve
                (OpenedEngine_WriteRows life_engine tt ["c"] ["aaaa"; "bbbb"; "cc"])
                (with_script [Some (transient "busy")] (snd (fst life_open)))).
  pose (H3 := exec_runs serve (OpenedEngine_Flush life_engine) (snd (fst life_write))).
  pose (H4 := exec_runs serve (OpenedEngine_Close life_engine tt) (snd (fst life_flush))
              : runs (OpenedEngine_Close life_engine tt) (snd life_close)
                     (Returned (Some life_closed, no_error))).
  pose (H5 := exec_runs serve (ClosedEngine_Import life_closed tt)
                (with_script [Some (transient "timeout")] (snd (fst life_close)))).
  pose (H6 := exec_runs serve (ClosedEngine_Cleanup life_closed tt)
                (snd (fst life_import))).
  split; [exact H1|]. split; [exact H2|]. split; [exact H3|].
  split; [exact H4|]. split; [exact H5|]. split; [exact H6|].
  split; [reflexivity|]. split; [reflexivity|].
  exact (lifecycle_on_one_engine be tt "t" 0 ["c"] ["aaaa"; "bbbb"; "cc"]
           _ _ _ _ _ _ _ _ _ _ _ _ _ _ H1 H2 H3 H4 H5 H6).
Defined.

Lemma Annotatef_keeps_failure (e : error) (msg : string) :
  e <> no_error -> errors_Annotatef e msg <> no_error.
Proof. destruct e as [e|]; [discriminate | intros E; now elim E]. Qed.

(** Three rows in two chunks, the second chunk refused for good: the first
    chunk is delivered, the second is left over. *)
Lemma WriteRows_delivers_prefix_witness :
  (forall e msg, e <> no_error -> errors_Annotatef e msg <> no_error) /\
  runs (OpenedEngine_WriteRows opened_A tt ["c"] ["aaaa"; "bbbb"; "cc"])
       (snd write_failing_run) (fst (fst write_failing_run)) /\
  delivered (snd write_failing_run) = [["aaaa"; "bbbb"]] /\
  fst (fst write_failing_run) = Returned (Some (permanent "checksum mismatch")) /\
  exists splitSize later,
    In (Ev (abstract_MaxChunkSize (backend (opened opened_A))) splitSize)
       (snd write_failing_run) /\
    Rows_SplitIntoChunks ["aaaa"; "bbbb"; "cc"] splitSize
    = delivered (snd write_failing_run) ++ later /\
    (fst (fst write_failing_run) = Returned no_error <-> later = []).
Proof.
  pose (Hr := exec_runs serve
                (OpenedEngine_WriteRows opened_A tt ["c"] ["aaaa"; "bbbb"; "cc"])
                (with_A [None; Some (permanent "checksum mismatch")])).
  split; [exact Annotatef_keeps_failure|]. split; [exact Hr|].
  split; [reflexivity|]. split; [reflexivity|].
  exact (WriteRows_delivers_prefix opened_A tt ["c"] ["aaaa"; "bbbb"; "cc"] _ _
           Annotatef_keeps_failure Hr).
Defined.

(** Two chunks, three writes. *)
Lemma WriteRows_call_bound_witness :
  runs (OpenedEngine_WriteRows opened_A tt ["c"] ["aaaa"; "bbbb"; "cc"])
       (snd write_run) (fst (fst write_run)) /\
  length (snd write_run) = 4%nat /\
  (exists err, fst (fst write_run) = Returned err) /\
  exists splitSize writes,
    snd write_run
    = Ev (abstract_MaxChunkSize (backend (opened opened_A))) splitSize :: writes /\
    forallb is_WriteRows writes = true /\
    (length writes
     <= 3 * length (Rows_SplitIntoChunks ["aaaa"; "bbbb"; "cc"] splitSize))%nat.
Proof.
  pose (Hr := exec_runs serve
                (OpenedEngine_WriteRows opened_A tt ["c"] ["aaaa"; "bbbb"; "cc"])
                (with_A [Some (transient "busy")])).
  split; [exact Hr|]. split; [reflexivity|].
  exact (WriteRows_call_bound opened_A tt ["c"] ["aaaa"; "bbbb"; "cc"] _ _ Hr).
Defined.


(** The import of engine A succeeds, its reset fails: the rows are in the
    target, the engine still holds them, and the reset's error is the
    result. *)
Lemma UnsafeImportAndReset_reset_result_witness :
  runs (Backend_UnsafeImportAndReset be tt "A")
       (snd reset_failing_run) (fst (fst reset_failing_run)) /\
  In (Ev (abstract_ResetEngine (abstract be) tt "A")
         (Some (permanent "cannot reset")))
     (snd reset_failing_run) /\
  imported (snd (fst reset_failing_run)) = ["r1"; "r2"] /\
  map content (engines (snd (fst reset_failing_run))) = [["r1"; "r2"]] /\
  fst (fst reset_failing_run) = Returned (Some (permanent "cannot reset")) /\
  filter is_ResetEngine (snd reset_failing_run)
  = [Ev (abstract_ResetEngine (abstract be) tt "A")
        (Some (permanent "cannot reset"))] /\
  exists tr1,
    snd reset_failing_run
    = tr1 ++ [Ev (abstract_ResetEngine (abstract be) tt "A")
                 (Some (permanent "cannot reset"))] /\
    runs (ClosedEngine_Import (import_and_reset_engine be "A") tt) tr1
         (Returned no_error).
Proof.
  pose (Hr := exec_runs serve (Backend_UnsafeImportAndReset be tt "A")
                (with_A [None; Some (permanent "cannot reset")])).
  pose (Hin := or_intror (or_intror (or_intror (or_introl eq_refl)))
               : In (Ev (abstract_ResetEngine (abstract be) tt "A")
                        (Some (permanent "cannot reset")))
                    (snd reset_failing_run)).
  split; [exact Hr|]. split; [exact Hin|].
  split; [reflexivity|]. split; [reflexivity|].
  exact (UnsafeImportAndReset_reset_result be tt "A" _ _ _ Hr Hin).
Defined.

Lemma sizes_busy_not_negative : Forall (fun r => 0 <= Size r) sizes_busy.
Proof. repeat (constructor; [discriminate|]). constructor. Qed.

(** Four engines of 35 bytes in all. *)
Lemma CheckDiskQuota_total_witness :
  Permutation (sort_Slice sizes_busy less) sizes_busy /\
  runs (Backend_CheckDiskQuota be 20)
       [Ev (abstract_EngineFileSizes (abstract be)) sizes_busy]
       (fst (fst (busy_run 20))) /\
  fst (fst (busy_run 20)) = Returned (["S"; "Q"], 1, 35) /\
  exists largeEngines inProgressLargeEngines totalSize,
    fst (fst (busy_run 20))
    = Returned (largeEngines, inProgressLargeEngines, totalSize) /\
    totalSize = wrap64 (sum_sizes sizes_busy) /\
    in_int64 totalSize /\
    (in_int64 (sum_sizes sizes_busy) -> totalSize = sum_sizes sizes_busy).
Proof.
  pose (Hp := proj1 (double_facts.insertionSort_contract _ sizes_busy less)).
  pose (Hr := exec_runs serve (Backend_CheckDiskQuota be 20) (reporting sizes_busy)).
  split; [exact Hp|]. split; [exact Hr|]. split; [reflexivity|].
  exact (CheckDiskQuota_total be 20 sizes_busy _ Hp Hr).
Defined.

(** A quota of 12: everything but the smallest importing engine is
    flagged, and nothing else. *)
Lemma CheckDiskQuota_flags_reported_witness :
  Permutation (sort_Slice sizes_busy less) sizes_busy /\
  runs (Backend_CheckDiskQuota be 12)
       [Ev (abstract_EngineFileSizes (abstract be)) sizes_busy]
       (fst (fst (busy_run 12))) /\
  exists largeEngines inProgressLargeEngines totalSize,
    fst (fst (busy_run 12))
    = Returned (largeEngines, inProgressLargeEngines, totalSize) /\
    (forall u, In u largeEngines ->
       exists r, In r sizes_busy /\ UUID r = u /\ IsImporting r = false) /\
    (length largeEngines <= length (filter idle sizes_busy))%nat /\
    0 <= inProgressLargeEngines
      <= Z.of_nat (length (filter IsImporting sizes_busy)).
Proof.
  pose (Hp := proj1 (double_facts.insertionSort_contract _ sizes_busy less)).
  pose (Hr := exec_runs serve (Backend_CheckDiskQuota be 12) (reporting sizes_busy)).
  split; [exact Hp|]. split; [exact Hr|].
  exact (CheckDiskQuota_flags_reported be 12 sizes_busy _ Hp Hr).
Defined.

(** A quota of 35 is just enough for the four engines. *)
Lemma CheckDiskQuota_within_quota_witness :
  Permutation (sort_Slice sizes_busy less) sizes_busy /\
  Forall (fun r => 0 <= Size r) sizes_busy /\
  sum_sizes sizes_busy < 2 ^ 63 /\
  0 <= 35 /\
  runs (Backend_CheckDiskQuota be 35)
       [Ev (abstract_EngineFileSizes (abstract be)) sizes_busy]
       (fst (fst (busy_run 35))) /\
  fst (fst (busy_run 35)) = Returned ([], 0, 35) /\
  fst (fst (busy_run 34)) = Returned (["Q"], 0, 35) /\
  exists largeEngines inProgressLargeEngines,
    fst (fst (busy_run 35))
    = Returned (largeEngines, inProgressLargeEngines, sum_sizes sizes_busy) /\
    ((largeEngines = [] /\ inProgressLargeEngines = 0)
     <-> sum_sizes sizes_busy <= 35).
Proof.
  pose (Hp := proj1 (double_facts.insertionSort_contract _ sizes_busy less)).
  pose (Hs := eq_refl : sum_sizes sizes_busy < 2 ^ 63).
  pose (Hq := ltac:(lia) : 0 <= 35).
  pose (Hr := exec_runs serve (Backend_CheckDiskQuota be 35) (reporting sizes_busy)).
  split; [exact Hp|]. split; [exact sizes_busy_not_negative|].
  split; [exact Hs|]. split; [exact Hq|]. split; [exact Hr|].
  split; [reflexivity|]. split; [reflexivity|].
  exact (CheckDiskQuota_within_quota be 35 sizes_busy _ Hp sizes_busy_not_negative
           Hs Hq Hr).
Defined.

(** A quota of 20 with 25 bytes already importing: both idle engines are
    returned. *)
Lemma CheckDiskQuota_importing_over_quota_witness :
  sort_Slice_sorts sizes_busy less /\
  Forall (fun r => 0 <= Size r) sizes_busy /\
  sum_sizes sizes_busy < 2 ^ 63 /\
  runs (Backend_CheckDiskQuota be 20)
       [Ev (abstract_EngineFileSizes (abstract be)) sizes_busy]
       (fst (fst (busy_run 20))) /\
  exists largeEngines inProgressLargeEngines totalSize,
    fst (fst (busy_run 20))
    = Returned (largeEngines, inProgressLargeEngines, totalSize) /\
    (0 < inProgressLargeEngines ->
     Permutation largeEngines (map UUID (filter idle sizes_busy)) /\
     20 < sum_sizes (filter IsImporting sizes_busy)).
Proof.
  pose (Hc := double_facts.insertionSort_contract _ sizes_busy less).
  pose (Hs := eq_refl : sum_sizes sizes_busy < 2 ^ 63).
  pose (Hr := exec_runs serve (Backend_CheckDiskQuota be 20) (reporting sizes_busy)).
  split; [exact Hc|]. split; [exact sizes_busy_not_negative|].
  split; [exact Hs|]. split; [exact Hr|].
  exact (CheckDiskQuota_importing_over_quota be 20 sizes_busy _ Hc
           sizes_busy_not_negative Hs Hr).
Defined.

(** The integration test's setting: ceiling 4, four engines open. *)
Lemma OpenEngine_guard_counts_itself_witness :
  script (guarded 4) = [] /\
  failpoints (guarded 4) = [("FailIfEngineCountExceeds", failpoint_int 4)] /\
  0 <= open_counter (guarded 4) < 2 ^ 53 - 1 /\
  0 <= closed_counter (guarded 4) < 2 ^ 53 /\
  ((exists msg,
      fst (fst (exec serve (Backend_OpenEngine be tt "t" 0) (guarded 4)))
      = Panicked msg)
   <-> open_counter (guarded 4) - closed_counter (guarded 4) >= 4) /\
  ((exists en,
      fst (fst (exec serve (Backend_OpenEngine be tt "t" 0) (guarded 4)))
      = Returned (Some en, no_error))
   <-> open_counter (guarded 4) - closed_counter (guarded 4) < 4) /\
  open_counter (snd (fst (exec serve (Backend_OpenEngine be tt "t" 0) (guarded 4))))
  = open_counter (guarded 4) + 1 /\
  closed_counter (snd (fst (exec serve (Backend_OpenEngine be tt "t" 0) (guarded 4))))
  = closed_counter (guarded 4).
Proof.
  pose (Ho := ltac:(simpl; lia) : 0 <= open_counter (guarded 4) < 2 ^ 53 - 1).
  pose (Hc := ltac:(simpl; lia) : 0 <= closed_counter (guarded 4) < 2 ^ 53).
  split; [reflexivity|]. split; [reflexivity|].
  split; [exact Ho|]. split; [exact Hc|].
  exact (counting_facts.OpenEngine_guard_counts_itself (guarded 4) "t" 0 4
           eq_refl eq_refl Ho Hc).
Defined.

End double_runs_facts.
